(** * BenchApp → Google Calendar sync: the reconciliation engine

    A shallow embedding of the Apps Script sources of the repository and the
    properties of its reconciliation engine.

    Two versions of the script that derive a stable UID live in the
    repository, and both are embedded:
    - the "STABLE UID FIX" script ([StableUID]), with
      [processEventsWithStableUIDs] and its content-key migration;
    - the "CLEAN VERSION" script ([Clean]), with the simplified
      [processEvents] and the entry point [syncHockeyCalendar].
    [createStableUID], [createEvent] and [updateEvent] read the same in both.
    Around the engine, the feed parser ([Feed]), the by-hand clean-up of
    duplicates, the trigger set-up, the status checks and the per-event
    functions of the original script ([Original]) are embedded as well.

    Modelling conventions.
    - A JavaScript string is a [string]: a sequence of code units, here the
      code units below 256 (Latin-1).  The built-ins [trim], [toLowerCase],
      [\s] and [.] are written out on that range.
    - A [Date] is its epoch value in milliseconds, a [Z].
    - An optional property of an event object is an [option]; [x || ''] is
      [orEmpty].
    - A calendar event is an object with identity: the list of existing
      events is a store indexed by position, the lookup maps hold positions
      (references), and [updateEvent] writes through the reference. *)

From Stdlib Require Import ZArith DecimalString DecimalZ Ascii.
From stdpp Require Import prelude strings gmap.

Local Open Scope Z_scope.

(** ** JavaScript string built-ins *)

Definition LF : ascii := "010"%char.

(** [\s] of a regular expression, and the characters [trim] removes:
    WhiteSpace and LineTerminator, below 256. *)
Definition isWhiteSpace (c : ascii) : bool :=
  match N_of_ascii c with
  | 9 | 10 | 11 | 12 | 13 | 32 | 160 => true
  | _ => false
  end%N.

(** The characters the regular expression [.] does not match. *)
Definition isLineTerminator (c : ascii) : bool :=
  match N_of_ascii c with
  | 10 | 13 => true
  | _ => false
  end%N.

Fixpoint trimStart (s : string) : string :=
  match s with
  | EmptyString => EmptyString
  | String c s' => if isWhiteSpace c then trimStart s' else s
  end.

Fixpoint trimEnd (s : string) : string :=
  match s with
  | EmptyString => EmptyString
  | String c s' =>
      match trimEnd s' with
      | EmptyString => if isWhiteSpace c then EmptyString else String c EmptyString
      | r => String c r
      end
  end.

Definition trim (s : string) : string := trimEnd (trimStart s).

(** [toLowerCase] on one code unit below 256: A-Z, and the Latin-1 capitals
    À-Þ without the multiplication sign. *)
Definition lowerChar (c : ascii) : ascii :=
  let n := N_of_ascii c in
  if ((65 <=? n) && (n <=? 90) || (192 <=? n) && (n <=? 222) && negb (n =? 215))%N
  then ascii_of_N (n + 32) else c.

Fixpoint toLowerCase (s : string) : string :=
  match s with
  | EmptyString => EmptyString
  | String c s' => String (lowerChar c) (toLowerCase s')
  end.

Definition startsWith (s p : string) : bool := String.prefix p s.
Global Arguments startsWith : simpl never.

Fixpoint dropChars (n : nat) (s : string) : string :=
  match n, s with
  | O, _ => s
  | S n', String _ s' => dropChars n' s'
  | S _, EmptyString => EmptyString
  end.

(** [s.includes(p)] *)
Fixpoint includes (s p : string) : bool :=
  startsWith s p ||
  match s with
  | EmptyString => false
  | String _ s' => includes s' p
  end.

(** [s.replace(p, '')] with a string pattern: the first occurrence goes. *)
Fixpoint removeFirst (s p : string) : string :=
  if startsWith s p then dropChars (String.length p) s
  else match s with
       | EmptyString => EmptyString
       | String c s' => String c (removeFirst s' p)
       end.

Fixpoint takeWhile (f : ascii -> bool) (s : string) : string :=
  match s with
  | EmptyString => EmptyString
  | String c s' => if f c then String c (takeWhile f s') else EmptyString
  end.

Fixpoint allChars (f : ascii -> bool) (s : string) : bool :=
  match s with
  | EmptyString => true
  | String c s' => f c && allChars f s'
  end.

Definition isEmpty (s : string) : bool :=
  match s with EmptyString => true | _ => false end.

(** Truthiness of a string, and [x || ''] on an optional string. *)
Definition truthy (s : string) : bool := negb (isEmpty s).

Definition orEmpty (o : option string) : string :=
  match o with Some s => s | None => EmptyString end.

(** [n.toString()] and [`${n}`] for an integer-valued number. *)
Definition numberToString (z : Z) : string :=
  NilZero.string_of_int (Z.to_int z).

(** ** Configuration *)

Definition EVENT_PREFIX : string := "[Hockey] ".
Definition MARKER : string := "Hockey-UID:".
Definition TWO_HOURS : Z := 2 * 60 * 60 * 1000.

(** ** Data model *)

(** The object [parseEventBlock] fills in from the lines of one VEVENT. *)
Record RawEvent := mkRaw {
  raw_originalUID : option string;
  raw_title : option string;
  raw_startTime : option Z;
  raw_endTime : option Z;
  raw_location : option string;
  raw_description : option string
}.

(** A source event as [processEvents] reads it: [title] and [startTime] are
    set, and [uid] has been assigned. *)
Record HockeyEvent := mkHockey {
  uid : string;
  title : string;
  startTime : Z;
  endTime : option Z;
  location : option string;
  description : option string
}.

(** An event of the family calendar, with the getters of [CalendarEvent]. *)
Record CalendarEvent := mkCal {
  getTitle : string;
  getStartTime : Z;
  getEndTime : Z;
  getLocation : string;
  getDescription : string
}.

Global Instance HockeyEvent_eq_dec : EqDecision HockeyEvent.
Proof. solve_decision. Defined.

Global Instance CalendarEvent_eq_dec : EqDecision CalendarEvent.
Proof. solve_decision. Defined.

(** ** Stable UID generation *)

(** ToInt32: the value of a number as a signed 32-bit word. *)
Definition toInt32 (z : Z) : Z := (z + 2 ^ 31) mod 2 ^ 32 - 2 ^ 31.

(** One turn of the loop of [createStableUID]:
    [hash = ((hash << 5) - hash) + char; hash = hash & hash]. *)
Definition hashStep (hash : Z) (c : ascii) : Z :=
  let char := Z.of_N (N_of_ascii c) in
  let hash := (toInt32 (Z.shiftl (toInt32 hash) 5) - hash) + char in
  Z.land (toInt32 hash) (toInt32 hash).

Fixpoint hashLoop (hash : Z) (s : string) : Z :=
  match s with
  | EmptyString => hash
  | String c s' => hashLoop (hashStep hash c) s'
  end.

Definition stableString (ev : RawEvent) : string :=
  let title := trim (orEmpty (raw_title ev)) in
  let startTime :=
    match raw_startTime ev with
    | Some t => numberToString t
    | None => EmptyString
    end in
  let location := trim (orEmpty (raw_location ev)) in
  title +:+ "|" +:+ startTime +:+ "|" +:+ location.

Definition createStableUID (ev : RawEvent) : string :=
  let hash := hashLoop 0 (stableString ev) in
  let positiveHash := Z.abs hash in
  "benchapp-stable-" +:+ numberToString positiveHash.

(** The end of [parseEventBlock]: an event with a title and a start time gets
    its stable UID and is returned, any other is dropped. *)
Definition parseEventBlock_finish (ev : RawEvent) : option HockeyEvent :=
  match raw_title ev, raw_startTime ev with
  | Some t, Some s =>
      if truthy t
      then Some {| uid := createStableUID ev; title := t; startTime := s;
                   endTime := raw_endTime ev; location := raw_location ev;
                   description := raw_description ev |}
      else None
  | _, _ => None
  end.

(** ** Writing to the calendar *)

Definition LFLF : string := String LF (String LF EmptyString).

(** [hockeyEvent.endTime || new Date(hockeyEvent.startTime.getTime() + 2h)] *)
Definition expectedEndTime (e : HockeyEvent) : Z :=
  match endTime e with
  | Some t => t
  | None => startTime e + TWO_HOURS
  end.

(** The description [createEvent] and [updateEvent] store. *)
Definition newDescription (e : HockeyEvent) : string :=
  trim (orEmpty (description e))
  +:+ (if truthy (orEmpty (description e)) then LFLF else EmptyString)
  +:+ "Hockey-UID: " +:+ uid e.

(** [calendar.createEvent(title, startTime, endTime, {description, location})] *)
Definition createEvent (e : HockeyEvent) : CalendarEvent :=
  {| getTitle := EVENT_PREFIX +:+ title e;
     getStartTime := startTime e;
     getEndTime := expectedEndTime e;
     getLocation := orEmpty (location e);
     getDescription := newDescription e |}.

Definition setTitle (t : CalendarEvent) (s : string) : CalendarEvent :=
  {| getTitle := s; getStartTime := getStartTime t; getEndTime := getEndTime t;
     getLocation := getLocation t; getDescription := getDescription t |}.

Definition setTime (t : CalendarEvent) (a b : Z) : CalendarEvent :=
  {| getTitle := getTitle t; getStartTime := a; getEndTime := b;
     getLocation := getLocation t; getDescription := getDescription t |}.

Definition setDescription (t : CalendarEvent) (s : string) : CalendarEvent :=
  {| getTitle := getTitle t; getStartTime := getStartTime t;
     getEndTime := getEndTime t; getLocation := getLocation t;
     getDescription := s |}.

Definition setLocation (t : CalendarEvent) (s : string) : CalendarEvent :=
  {| getTitle := getTitle t; getStartTime := getStartTime t;
     getEndTime := getEndTime t; getLocation := s;
     getDescription := getDescription t |}.

Definition updateEvent (existingEvent : CalendarEvent) (e : HockeyEvent)
  : CalendarEvent :=
  let newTitle := EVENT_PREFIX +:+ title e in
  let newEndTime := expectedEndTime e in
  let t1 := setTitle existingEvent newTitle in
  let t2 := setTime t1 (startTime e) newEndTime in
  let t3 := setDescription t2 (newDescription e) in
  setLocation t3 (orEmpty (location e)).

(** ** The run of one reconciliation *)

(** What the reconciler decided, in the order it decided it.  [Added] goes
    with a [createEvent] call, [Updated] and [Migrated] with an [updateEvent]
    call on the existing event at that position, [Removed] with a
    [deleteEvent] call; [Unchanged] requests nothing. *)
Inductive Verdict :=
| Added (e : HockeyEvent)
| Updated (i : nat) (e : HockeyEvent)
| Migrated (i : nat) (e : HockeyEvent)
| Unchanged (i : nat) (e : HockeyEvent)
| Removed (i : nat).

Global Instance Verdict_eq_dec : EqDecision Verdict.
Proof. solve_decision. Defined.

Definition isMutation (d : Verdict) : bool :=
  match d with Unchanged _ _ => false | _ => true end.

(** The counters of the [results] object.  [migrated] stays 0 in the clean
    version, whose object has no such property. *)
Record Results := mkResults {
  added : nat;
  updated : nat;
  removed : nat;
  unchanged : nat;
  migrated : nat
}.

Global Instance Results_eq_dec : EqDecision Results.
Proof. solve_decision. Defined.

(** The state a run threads through its loops: the existing events as they
    now read (position = object identity), the positions [deleteEvent] was
    called on, the events [createEvent] added, the counters and the log. *)
Record Run := mkRun {
  existing : list CalendarEvent;
  deleted : list nat;
  created : list CalendarEvent;
  results : Results;
  log : list Verdict
}.

Definition startRun (existingEvents : list CalendarEvent) : Run :=
  mkRun existingEvents [] [] (mkResults 0 0 0 0 0) [].

Definition incAdded (r : Results) : Results :=
  mkResults (S (added r)) (updated r) (removed r) (unchanged r) (migrated r).
Definition incUpdated (r : Results) : Results :=
  mkResults (added r) (S (updated r)) (removed r) (unchanged r) (migrated r).
Definition incRemoved (r : Results) : Results :=
  mkResults (added r) (updated r) (S (removed r)) (unchanged r) (migrated r).
Definition incUnchanged (r : Results) : Results :=
  mkResults (added r) (updated r) (removed r) (S (unchanged r)) (migrated r).
Definition incMigrated (r : Results) : Results :=
  mkResults (added r) (updated r) (removed r) (unchanged r) (S (migrated r)).

Definition doCreate (r : Run) (e : HockeyEvent) : Run :=
  mkRun (existing r) (deleted r) (created r ++ [createEvent e])
        (incAdded (results r)) (log r ++ [Added e]).

Definition doUpdate (r : Run) (i : nat) (existingEvent : CalendarEvent)
    (e : HockeyEvent) (isMigration : bool) : Run :=
  mkRun (<[i := updateEvent existingEvent e]> (existing r)) (deleted r)
        (created r)
        (if isMigration then incMigrated (results r) else incUpdated (results r))
        (log r ++ [if isMigration then Migrated i e else Updated i e]).

Definition doUnchanged (r : Run) (i : nat) (e : HockeyEvent) : Run :=
  mkRun (existing r) (deleted r) (created r)
        (incUnchanged (results r)) (log r ++ [Unchanged i e]).

Definition doDelete (r : Run) (i : nat) : Run :=
  mkRun (existing r) (deleted r ++ [i]) (created r)
        (incRemoved (results r)) (log r ++ [Removed i]).

(** [list.forEach(f)] where [f] needs to know which object it is handed. *)
Fixpoint forEachIdx {A R : Type} (f : R -> nat -> A -> R) (i : nat)
    (l : list A) (r : R) : R :=
  match l with
  | [] => r
  | x :: l' => forEachIdx f (S i) l' (f r i x)
  end.

(** The events left in the calendar when the run ends: the existing ones that
    were not deleted, as they now read, then the created ones. *)
Fixpoint aliveFrom (i : nat) (dead : list nat) (evs : list CalendarEvent)
  : list CalendarEvent :=
  match evs with
  | [] => []
  | t :: evs' =>
      if bool_decide (i ∈ dead) then aliveFrom (S i) dead evs'
      else t :: aliveFrom (S i) dead evs'
  end.

Definition calendarAfter (r : Run) : list CalendarEvent :=
  aliveFrom 0 (deleted r) (existing r) ++ created r.

(** [new Map(); hockeyEvents.forEach(event => map.set(event.uid, event))] *)
Definition setByUID (m : gmap string HockeyEvent) (event : HockeyEvent)
  : gmap string HockeyEvent :=
  <[uid event := event]> m.

Definition hockeyEventMap (hockeyEvents : list HockeyEvent)
  : gmap string HockeyEvent :=
  foldl setByUID ∅ hockeyEvents.

(** What a call to a script function or service comes to. *)
Inductive Outcome (A : Type) :=
| Returned (a : A)
| Thrown (error : string).
Arguments Returned {A} a.
Arguments Thrown {A} error.

(** [match => ...] on the capture group [([^\n\r\s]+)] after [\s*]: the
    white space is skipped, the run of other characters is the group, and an
    empty run is no match.  ([\s*] giving characters back cannot help: the
    group takes no white space.) *)
Definition captureToken (rest : string) : option string :=
  let group := takeWhile (fun c => negb (isWhiteSpace c)) (trimStart rest) in
  if isEmpty group then None else Some group.

(** [description.match(/Hockey-UID:\s*([^\n\r\s]+)/)], group 1 of the
    leftmost match. *)
Fixpoint matchMarkerToken (s : string) : option string :=
  match (if startsWith s MARKER
         then captureToken (dropChars (String.length MARKER) s) else None) with
  | Some group => Some group
  | None =>
      match s with
      | EmptyString => None
      | String _ s' => matchMarkerToken s'
      end
  end.

(** [s.replace(/\n\nHockey-UID:.*$/, '')]: the leftmost place where the
    marker block starts and no line terminator follows up to the end. *)
Fixpoint stripMarkerBlock (s : string) : string :=
  if startsWith s (LFLF +:+ MARKER)
     && allChars (fun c => negb (isLineTerminator c))
                 (dropChars (String.length (LFLF +:+ MARKER)) s)
  then EmptyString
  else match s with
       | EmptyString => EmptyString
       | String c s' => String c (stripMarkerBlock s')
       end.

(** [s.replace(/^Hockey-UID:.*$/, '')] *)
Definition stripMarkerOnly (s : string) : string :=
  if startsWith s MARKER
     && allChars (fun c => negb (isLineTerminator c))
                 (dropChars (String.length MARKER) s)
  then EmptyString else s.

(** [getExistingHockeyEvents], on the events [calendar.getEvents] returns for
    the window. *)
Definition getExistingHockeyEvents (events : list CalendarEvent)
  : list CalendarEvent :=
  filter (fun event =>
            startsWith (getTitle event) EVENT_PREFIX
            && truthy (getDescription event)
            && includes (getDescription event) MARKER = true) events.

(** ** The clean version *)
Module Clean.

Definition extractUIDFromDescription (description : string) : option string :=
  if negb (truthy description) then None
  else match matchMarkerToken description with
       | Some group => Some (trim group)
       | None => None
       end.

Definition TOLERANCE : Z := 300000.

Section NeedsUpdate.
Variables (existingEvent : CalendarEvent) (hockeyEvent : HockeyEvent).

Definition titleChanged : bool :=
  negb (String.eqb (getTitle existingEvent) (EVENT_PREFIX +:+ title hockeyEvent)).

Definition startTimeDiff : Z :=
  Z.abs (getStartTime existingEvent - startTime hockeyEvent).
Definition endTimeDiff : Z :=
  Z.abs (getEndTime existingEvent - expectedEndTime hockeyEvent).
Definition startChanged : bool := TOLERANCE <? startTimeDiff.
Definition endChanged : bool := TOLERANCE <? endTimeDiff.

Definition existingLocation : string :=
  trim (toLowerCase (getLocation existingEvent)).
Definition newLocation : string :=
  trim (toLowerCase (orEmpty (location hockeyEvent))).
Definition locationChanged : bool :=
  negb (String.eqb existingLocation newLocation).

Definition existingContentDesc : string :=
  trim (stripMarkerOnly (stripMarkerBlock (getDescription existingEvent))).
Definition newContentDesc : string :=
  trim (orEmpty (description hockeyEvent)).
Definition descriptionChanged : bool :=
  negb (String.eqb existingContentDesc newContentDesc).

Definition needsUpdate : bool :=
  titleChanged || startChanged || endChanged || locationChanged
  || descriptionChanged.
End NeedsUpdate.

(** [existingEvents.forEach(event => { uid = extract(...); if (uid)
    existingEventMap.set(uid, event) })]: the map holds the event object,
    here its position. *)
Definition indexExisting (m : gmap string nat) (i : nat) (event : CalendarEvent)
  : gmap string nat :=
  match extractUIDFromDescription (getDescription event) with
  | Some uid => if truthy uid then <[uid := i]> m else m
  | None => m
  end.

Definition existingEventMap (existingEvents : list CalendarEvent)
  : gmap string nat :=
  forEachIdx indexExisting 0 existingEvents ∅.

(** The body of the add-or-update loop.  A position the map holds is a
    position of the store; the [None] branch of the inner match stands for a
    reference to no object and is never taken. *)
Definition processOne (existingEventMap : gmap string nat) (r : Run)
    (hockeyEvent : HockeyEvent) : Run :=
  match existingEventMap !! uid hockeyEvent with
  | Some i =>
      match existing r !! i with
      | Some existingEvent =>
          if needsUpdate existingEvent hockeyEvent
          then doUpdate r i existingEvent hockeyEvent false
          else doUnchanged r i hockeyEvent
      | None => r
      end
  | None => doCreate r hockeyEvent
  end.

(** The test of the removal loop: [uid && !hockeyEventMap.has(uid)]. *)
Definition shouldRemove (hockeyEventMap : gmap string HockeyEvent)
    (existingEvent : CalendarEvent) : bool :=
  match extractUIDFromDescription (getDescription existingEvent) with
  | Some uid => truthy uid && negb (bool_decide (is_Some (hockeyEventMap !! uid)))
  | None => false
  end.

Definition removeOne (hockeyEventMap : gmap string HockeyEvent) (r : Run)
    (i : nat) (existingEvent : CalendarEvent) : Run :=
  if shouldRemove hockeyEventMap existingEvent then doDelete r i else r.

Definition processEvents (hockeyEvents : list HockeyEvent)
    (existingEvents : list CalendarEvent) : Run :=
  let hockeyEventMap := hockeyEventMap hockeyEvents in
  let existingEventMap := existingEventMap existingEvents in
  let r := foldl (processOne existingEventMap) (startRun existingEvents)
                 hockeyEvents in
  forEachIdx (removeOne hockeyEventMap) 0 (existing r) r.

Section Sync.
(** The ICS text parser, with the local-time [Date]s it builds, stays
    outside the model. *)
Variable parseICSData : string -> list HockeyEvent.

(** [response] is what [UrlFetchApp.fetch(CONFIG.HOCKEY_CALENDAR_URL)]
    comes to: the text of the feed, or an exception. *)
Definition fetchHockeyEvents (response : Outcome string) : list HockeyEvent :=
  match response with
  | Returned icsData => parseICSData icsData
  | Thrown _ => []
  end.

(** [familyCalendar] is what [CalendarApp.getCalendarById] returns: the
    events of the window, or null. *)
Definition syncHockeyCalendar (familyCalendar : option (list CalendarEvent))
    (response : Outcome string) : Outcome Run :=
  match familyCalendar with
  | None => Thrown "Family calendar not found. Check your FAMILY_CALENDAR_ID."
  | Some events =>
      let hockeyEvents := fetchHockeyEvents response in
      let existingEvents := getExistingHockeyEvents events in
      Returned (processEvents hockeyEvents existingEvents)
  end.
End Sync.

End Clean.

(** ** The stable-UID version, with migration by content key *)
Module StableUID.

(** Group 1 of [/Hockey-UID:\s*([^\n\r]+)/] at one occurrence of the marker:
    [\s*] first takes the [k] white-space characters that follow and then
    gives them back one by one until the group, a run of characters other
    than line terminators, is not empty. *)
Fixpoint captureLine (k : nat) (rest : string) : option string :=
  let group := takeWhile (fun c => negb (isLineTerminator c)) (dropChars k rest) in
  if isEmpty group
  then match k with
       | O => None
       | S k' => captureLine k' rest
       end
  else Some group.

Fixpoint matchMarkerLine (s : string) : option string :=
  match (if startsWith s MARKER
         then let rest := dropChars (String.length MARKER) s in
              captureLine (String.length (takeWhile isWhiteSpace rest)) rest
         else None) with
  | Some group => Some group
  | None =>
      match s with
      | EmptyString => None
      | String _ s' => matchMarkerLine s'
      end
  end.

Definition extractUIDFromDescription (description : string) : option string :=
  if negb (truthy description) then None
  else match matchMarkerToken description with
       | Some group => Some (trim group)
       | None =>
           match matchMarkerLine description with
           | Some group => Some (trim group)
           | None => None
           end
       end.

Definition TOLERANCE : Z := 60000.

Section NeedsUpdate.
Variables (existingEvent : CalendarEvent) (hockeyEvent : HockeyEvent).

Definition titleChanged : bool :=
  negb (String.eqb (getTitle existingEvent) (EVENT_PREFIX +:+ title hockeyEvent)).

Definition startTimeDiff : Z :=
  Z.abs (getStartTime existingEvent - startTime hockeyEvent).
Definition endTimeDiff : Z :=
  Z.abs (getEndTime existingEvent - expectedEndTime hockeyEvent).
Definition startChanged : bool := TOLERANCE <? startTimeDiff.
Definition endChanged : bool := TOLERANCE <? endTimeDiff.

Definition locationChanged : bool :=
  negb (String.eqb (trim (getLocation existingEvent))
                   (trim (orEmpty (location hockeyEvent)))).

Definition existingContentDesc : string :=
  trim (stripMarkerBlock (getDescription existingEvent)).
Definition newContentDesc : string :=
  trim (orEmpty (description hockeyEvent)).
Definition descriptionChanged : bool :=
  negb (String.eqb existingContentDesc newContentDesc).

Definition needsUpdate : bool :=
  titleChanged || startChanged || endChanged || locationChanged
  || descriptionChanged.
End NeedsUpdate.

(** The content key of an existing event:
    [`${title.replace(PREFIX, '')}|${start.getTime()}|${location || ''}`]. *)
Definition existingContentKey (event : CalendarEvent) : string :=
  removeFirst (getTitle event) EVENT_PREFIX +:+ "|"
  +:+ numberToString (getStartTime event) +:+ "|"
  +:+ orEmpty (Some (getLocation event)).

(** The content key of a source event. *)
Definition hockeyContentKey (hockeyEvent : HockeyEvent) : string :=
  title hockeyEvent +:+ "|" +:+ numberToString (startTime hockeyEvent) +:+ "|"
  +:+ orEmpty (location hockeyEvent).

(** The two lookup maps over the existing events, filled in one loop. *)
Record Lookup := mkLookup {
  existingEventMap : gmap string nat;
  existingByContent : gmap string nat
}.

Definition indexExisting (m : Lookup) (i : nat) (event : CalendarEvent) : Lookup :=
  let byUID :=
    match extractUIDFromDescription (getDescription event) with
    | Some storedUID =>
        if truthy storedUID then <[storedUID := i]> (existingEventMap m)
        else existingEventMap m
    | None => existingEventMap m
    end in
  mkLookup byUID (<[existingContentKey event := i]> (existingByContent m)).

Definition buildLookup (existingEvents : list CalendarEvent) : Lookup :=
  forEachIdx indexExisting 0 existingEvents (mkLookup ∅ ∅).

(** [existingEventMap.get(uid)], then the content key when that finds
    nothing: the event found and [isMigration]. *)
Definition findExisting (m : Lookup) (hockeyEvent : HockeyEvent)
  : option nat * bool :=
  match existingEventMap m !! uid hockeyEvent with
  | Some i => (Some i, false)
  | None =>
      match existingByContent m !! hockeyContentKey hockeyEvent with
      | Some i => (Some i, true)
      | None => (None, false)
      end
  end.

Definition processOne (m : Lookup) (r : Run) (hockeyEvent : HockeyEvent) : Run :=
  match findExisting m hockeyEvent with
  | (Some i, isMigration) =>
      match existing r !! i with
      | Some existingEvent =>
          if isMigration || needsUpdate existingEvent hockeyEvent
          then doUpdate r i existingEvent hockeyEvent isMigration
          else doUnchanged r i hockeyEvent
      | None => r
      end
  | (None, _) => doCreate r hockeyEvent
  end.

Definition existsByUID (hockeyEventMap : gmap string HockeyEvent)
    (existingEvent : CalendarEvent) : bool :=
  match extractUIDFromDescription (getDescription existingEvent) with
  | Some storedUID =>
      truthy storedUID && bool_decide (is_Some (hockeyEventMap !! storedUID))
  | None => false
  end.

(** [Array.from(hockeyEventMap.values()).some(...)] *)
Definition existsByContent (hockeyEventMap : gmap string HockeyEvent)
    (existingEvent : CalendarEvent) : bool :=
  existsb (fun hockeyEvent =>
             String.eqb (hockeyContentKey hockeyEvent)
                        (existingContentKey existingEvent))
          ((map_to_list hockeyEventMap).*2).

Definition shouldRemove (hockeyEventMap : gmap string HockeyEvent)
    (existingEvent : CalendarEvent) : bool :=
  negb (existsByUID hockeyEventMap existingEvent)
  && negb (existsByContent hockeyEventMap existingEvent).

Definition removeOne (hockeyEventMap : gmap string HockeyEvent) (r : Run)
    (i : nat) (existingEvent : CalendarEvent) : Run :=
  if shouldRemove hockeyEventMap existingEvent then doDelete r i else r.

Definition processEventsWithStableUIDs (hockeyEvents : list HockeyEvent)
    (existingEvents : list CalendarEvent) : Run :=
  let hockeyEventMap := hockeyEventMap hockeyEvents in
  let m := buildLookup existingEvents in
  let r := foldl (processOne m) (startRun existingEvents) hockeyEvents in
  forEachIdx (removeOne hockeyEventMap) 0 (existing r) r.

End StableUID.

(** * The vocabulary of the properties *)

Definition startsClean (s : string) : Prop :=
  match s with
  | EmptyString => True
  | String c _ => isWhiteSpace c = false
  end.

Definition notWhiteSpace (c : ascii) : bool := negb (isWhiteSpace c).
Definition notLineTerminator (c : ascii) : bool := negb (isLineTerminator c).

Definition tokenLike (u : string) : bool := truthy u && allChars notWhiteSpace u.

(** A source event is well formed when its UID is a token and its own
    description does not hold the marker text. *)
Definition markerFree (e : HockeyEvent) : bool :=
  negb (includes (orEmpty (description e)) MARKER).

Definition sourceOK (e : HockeyEvent) : bool :=
  tokenLike (uid e) && markerFree e.

(** The stored identity an index over the existing events is keyed by: the
    extracted UID when it is truthy. *)
Definition keyOf (extract : string -> option string) (t : CalendarEvent)
  : option string :=
  match extract (getDescription t) with
  | Some u => if truthy u then Some u else None
  | None => None
  end.

(** An index over the existing events: the last event with a key wins. *)
Definition indexBy (key : CalendarEvent -> option string)
    (m : gmap string nat) (i : nat) (t : CalendarEvent) : gmap string nat :=
  match key t with
  | Some k => <[k := i]> m
  | None => m
  end.

Definition storedUID : CalendarEvent -> option string :=
  keyOf Clean.extractUIDFromDescription.

(** The body the two versions share, given what the lookup found. *)
Definition stepWith (needs : CalendarEvent -> HockeyEvent -> bool)
    (found : option nat * bool) (r : Run) (e : HockeyEvent) : Run :=
  match found with
  | (Some i, isMigration) =>
      match existing r !! i with
      | Some t =>
          if isMigration || needs t e then doUpdate r i t e isMigration
          else doUnchanged r i e
      | None => r
      end
  | (None, _) => doCreate r e
  end.

(** The source event a verdict is about. *)
Definition sourceOf (d : Verdict) : option HockeyEvent :=
  match d with
  | Added e | Updated _ e | Migrated _ e | Unchanged _ e => Some e
  | Removed _ => None
  end.

(** The source events counted so far. *)
Definition classified (r : Results) : nat :=
  (added r + updated r + migrated r + unchanged r)%nat.

(** "Equal after trimming surrounding white space and ignoring letter
    case", in the words of the specification. *)
Definition sameLocation (a b : string) : Prop :=
  toLowerCase (trim a) = toLowerCase (trim b).

Definition cleanFind (ts : list CalendarEvent) (e : HockeyEvent)
  : option nat * bool :=
  (Clean.existingEventMap ts !! uid e, false).

Definition stableFind (ts : list CalendarEvent) (e : HockeyEvent)
  : option nat * bool :=
  StableUID.findExisting (StableUID.buildLookup ts) e.

Definition stableStoredUID : CalendarEvent -> option string :=
  keyOf StableUID.extractUIDFromDescription.

Definition contentKeyOf (t : CalendarEvent) : option string :=
  Some (StableUID.existingContentKey t).


(** The last position of a list of keys that holds [k]. *)
Fixpoint lastIndex {K : Type} `{EqDecision K} (k : K) (keys : list (option K))
  : option nat :=
  match keys with
  | [] => None
  | x :: keys' =>
      match lastIndex k keys' with
      | Some j => Some (S j)
      | None => if decide (x = Some k) then Some O else None
      end
  end.

(** The last event of a list that carries the key [k]. *)
Fixpoint lastWith (key : CalendarEvent -> option string) (k : string)
    (ts : list CalendarEvent) : option CalendarEvent :=
  match ts with
  | [] => None
  | t :: ts' =>
      match lastWith key k ts' with
      | Some x => Some x
      | None => if decide (key t = Some k) then Some t else None
      end
  end.

(** The removal loop, for a test on the existing event. *)
Definition removeIf (test : CalendarEvent -> bool) (r : Run) (i : nat)
    (t : CalendarEvent) : Run :=
  if test t then doDelete r i else r.

(** The positions the removal loop deletes, counted from [i]. *)
Fixpoint removedFrom (test : CalendarEvent -> bool) (i : nat)
    (ts : list CalendarEvent) : list nat :=
  match ts with
  | [] => []
  | t :: ts' =>
      if test t then i :: removedFrom test (S i) ts'
      else removedFrom test (S i) ts'
  end.

(** The add-or-update loop, for a change test and a lookup. *)
Definition pass (needs : CalendarEvent -> HockeyEvent -> bool)
    (find : HockeyEvent -> option nat * bool) (r : Run)
    (es : list HockeyEvent) : Run :=
  foldl (fun r e => stepWith needs (find e) r e) r es.

(** A source event whose identity no existing event of [T] stores. *)
Definition isNew (T : list CalendarEvent) (e : HockeyEvent) : Prop :=
  Clean.existingEventMap T !! uid e = None.

Global Instance isNew_dec (T : list CalendarEvent) (e : HockeyEvent) :
  Decision (isNew T e).
Proof. unfold isNew. apply _. Defined.

(** The existing events the clean removal loop keeps. *)
Definition cleanKeeps (es : list HockeyEvent) (t : CalendarEvent) : bool :=
  negb (Clean.shouldRemove (hockeyEventMap es) t).

(** What holds between two turns of the clean add-or-update loop over the
    existing events [T], [seen] being the source events already handled:
    the stored identities stand where they stood, the created events are
    those of the new source events, nothing is deleted, and every source
    event seen that found an existing event finds it in no need of an
    update. *)
Record PassInv (T : list CalendarEvent) (seen : list HockeyEvent) (r : Run)
  : Prop := {
  inv_keys : storedUID <$> existing r = storedUID <$> T;
  inv_created : created r = createEvent <$> filter (isNew T) seen;
  inv_deleted : deleted r = [];
  inv_settled : forall e i, e ∈ seen ->
    Clean.existingEventMap T !! uid e = Some i ->
    exists t, existing r !! i = Some t /\ Clean.needsUpdate t e = false
}.

(** ** Sample events *)

Definition practice : HockeyEvent :=
  mkHockey "benchapp-stable-255548776" "Practice" 1700000000000 None
           (Some "Rink A") None.

(** Two events of one feed that share title, start and location, hence the
    stable UID, and differ in their description. *)
Definition drill : HockeyEvent :=
  mkHockey "benchapp-stable-255548776" "Practice" 1700000000000 None
           (Some "Rink A") (Some "Bring both jerseys").

Definition scrimmage : HockeyEvent :=
  mkHockey "benchapp-stable-255548776" "Practice" 1700000000000 None
           (Some "Rink A") (Some "Full gear").

Definition game : HockeyEvent :=
  mkHockey "benchapp-stable-2064294037" "Game vs Owls" 1700600000000
           (Some 1700605400000) (Some "Arena 2") (Some "Arrive 30 min early").

(** A calendar event that reads as [practice] was written, but starts
    exactly the tolerance later. *)
Definition practiceLate : CalendarEvent :=
  mkCal "[Hockey] Practice" 1700000300000 1700007200000 "Rink A"
        "Hockey-UID: benchapp-stable-255548776".

(** [drill] as the reconciler writes it, starting one millisecond more than
    the clean tolerance later. *)
Definition drillLate : CalendarEvent :=
  mkCal "[Hockey] Practice" 1700000300001 1700007200000 "Rink A"
        (newDescription drill).

(** [drill] as the reconciler writes it, the location in lower case. *)
Definition drillLowerCase : CalendarEvent :=
  mkCal "[Hockey] Practice" 1700000000000 1700007200000 "rink a"
        (newDescription drill).

(** An event the calendar filter lets through and the extractor reads no
    identity from: the marker is there, its value is not. *)
Definition blankMarker : CalendarEvent :=
  mkCal "[Hockey] Skills clinic" 1700100000000 1700103600000 "Rink B"
        "Hockey-UID:   ".

(** A calendar with one synced event and one event of the family's own. *)
Definition syncedPractice : CalendarEvent :=
  mkCal "[Hockey] Practice" 1700000000000 1700007200000 "Rink A"
        "Hockey-UID: benchapp-stable-255548776".

Definition dentist : CalendarEvent :=
  mkCal "Dentist" 1700050000000 1700053600000 "" "".

(** An existing event with the identity of no source event and the content
    key of one: the clean version deletes it and adds the source event
    anew. *)
Definition legacyPractice : CalendarEvent :=
  mkCal "[Hockey] Practice" 1700000000000 1700007200000 "Rink A"
        "Hockey-UID: 8f14e45f-ceea-467f-a9c2@benchapp.com".

(** An existing event that stores an identity of the feed's old scheme and
    matches nothing. *)
Definition legacyStray : CalendarEvent :=
  mkCal "[Hockey] Tournament" 1690000000000 1690007200000 "Arena 9"
        "Hockey-UID: 45c48cce-2e2d-4fbd-aa1f@benchapp.com".

(** [syncedPractice]'s twin of the old scheme, and the pair with a
    description, for which the stable-UID version sees no change. *)
Definition legacyDrill : CalendarEvent :=
  mkCal "[Hockey] Practice" 1700000000000 1700007200000 "Rink A"
        (String.append "Bring both jerseys"
           (String.append LFLF "Hockey-UID: 8f14e45f-ceea-467f-a9c2@benchapp.com")).

(** A source event whose own description holds the marker text. *)
Definition tagged : HockeyEvent :=
  mkHockey "benchapp-stable-255548776" "Practice" 1700000000000 None
           (Some "Rink A") (Some "Hockey-UID: see the league page").

(** Two source events whose stable strings collide under the hash, and an
    existing event of the old scheme with the content key of the first. *)
Definition teamAa : HockeyEvent :=
  mkHockey "benchapp-stable-1127771043" "Aa" 1700000000000 None
           (Some "Rink A") None.

Definition teamBB : HockeyEvent :=
  mkHockey "benchapp-stable-1127771043" "BB" 1700000000000 None
           (Some "Rink A") None.

Definition legacyAa : CalendarEvent :=
  mkCal "[Hockey] Aa" 1700000000000 1700007200000 "Rink A"
        "Hockey-UID: 8f14e45f-ceea-467f-a9c2@benchapp.com".


(** A decidable proposition about concrete data, settled by evaluation. *)
Ltac by_decide := apply (bool_decide_unpack _); vm_compute; exact I.

(** * More of the scripts *)

(** The hash in the words of its comment and of the design: a rolling
    [hash * 31 + charCode], truncated to a signed 32-bit word at each
    character. *)
Fixpoint hashSpec (hash : Z) (s : string) : Z :=
  match s with
  | EmptyString => hash
  | String c s' => hashSpec (toInt32 (hash * 31 + Z.of_N (N_of_ascii c))) s'
  end.

(** The identities a calendar stores, in order. *)
Definition identities (ts : list CalendarEvent) : list string :=
  omap storedUID ts.

(** The test of [getExistingHockeyEvents] on one event. *)
Definition isSynced (event : CalendarEvent) : bool :=
  startsWith (getTitle event) EVENT_PREFIX
  && truthy (getDescription event)
  && includes (getDescription event) MARKER.

(** ** Parsing the feed *)

Fixpoint takeChars (n : nat) (s : string) : string :=
  match n, s with
  | S n', String c s' => String c (takeChars n' s')
  | _, _ => EmptyString
  end.

(** [s.substring(a, b)] for [a <= b]. *)
Definition substring (s : string) (a b : nat) : string :=
  takeChars (b - a) (dropChars a s).

(** [s.split(sep)] for a separator that is not empty: [acc] is the piece
    being read, [skip] the characters of a separator still to pass. *)
Fixpoint splitFrom (sep : string) (skip : nat) (acc : string) (s : string)
  : list string :=
  match skip with
  | S k =>
      match s with
      | String _ s' => splitFrom sep k acc s'
      | EmptyString => [acc]
      end
  | O =>
      if startsWith s sep
      then match s with
           | String _ s' =>
               acc :: splitFrom sep (String.length sep - 1) EmptyString s'
           | EmptyString => [acc]
           end
      else match s with
           | String c s' => splitFrom sep O (acc +:+ String c EmptyString) s'
           | EmptyString => [acc]
           end
  end.

Definition split (s sep : string) : list string := splitFrom sep O EmptyString s.

(** [s.replace(/\ab/g, 'r')] for a pattern of two characters: every
    occurrence, left to right, without overlap. *)
Fixpoint replacePair (a b r : ascii) (s : string) : string :=
  match s with
  | EmptyString => EmptyString
  | String x t =>
      match t with
      | String y s' =>
          if Ascii.eqb x a && Ascii.eqb y b
          then String r (replacePair a b r s')
          else String x (replacePair a b r t)
      | EmptyString => String x EmptyString
      end
  end.

Definition BACKSLASH : ascii := "092"%char.

Definition cleanLocationString (location : string) : string :=
  if negb (truthy location) then EmptyString
  else trim
         (replacePair BACKSLASH ";" ";"
            (replacePair BACKSLASH BACKSLASH BACKSLASH
               (replacePair BACKSLASH "," ","
                  (replacePair BACKSLASH "n" LF location)))).

(** [\d] *)
Definition isDigit (c : ascii) : bool :=
  let n := N_of_ascii c in ((48 <=? n) && (n <=? 57))%N.

(** The pattern [\d{8}T\d{6}] at the start of [s]. *)
Definition stampAt (s : string) : bool :=
  let stamp := takeChars 15 s in
  (String.length stamp =? 15)%nat
  && allChars isDigit (takeChars 8 stamp)
  && startsWith (dropChars 8 stamp) "T"
  && allChars isDigit (dropChars 9 stamp).

(** [line.match(/(\d{8}T\d{6})/)], group 1 of the leftmost match. *)
Fixpoint matchStamp (s : string) : option string :=
  if stampAt s then Some (takeChars 15 s)
  else match s with
       | EmptyString => None
       | String _ s' => matchStamp s'
       end.

(** [parseInt] on a string of decimal digits, which is what the pattern
    hands it. *)
Fixpoint parseDigits (acc : Z) (s : string) : Z :=
  match s with
  | EmptyString => acc
  | String c s' => parseDigits (acc * 10 + (Z.of_N (N_of_ascii c) - 48)) s'
  end.

Definition parseInt (s : string) : Z := parseDigits 0 s.

Definition emptyEvent : RawEvent := mkRaw None None None None None None.

Definition setOriginalUID (ev : RawEvent) (v : string) : RawEvent :=
  mkRaw (Some v) (raw_title ev) (raw_startTime ev) (raw_endTime ev)
        (raw_location ev) (raw_description ev).
Definition setRawTitle (ev : RawEvent) (v : string) : RawEvent :=
  mkRaw (raw_originalUID ev) (Some v) (raw_startTime ev) (raw_endTime ev)
        (raw_location ev) (raw_description ev).
Definition setStartTime (ev : RawEvent) (v : option Z) : RawEvent :=
  mkRaw (raw_originalUID ev) (raw_title ev) v (raw_endTime ev)
        (raw_location ev) (raw_description ev).
Definition setEndTime (ev : RawEvent) (v : option Z) : RawEvent :=
  mkRaw (raw_originalUID ev) (raw_title ev) (raw_startTime ev) v
        (raw_location ev) (raw_description ev).
Definition setRawLocation (ev : RawEvent) (v : string) : RawEvent :=
  mkRaw (raw_originalUID ev) (raw_title ev) (raw_startTime ev) (raw_endTime ev)
        (Some v) (raw_description ev).
Definition setRawDescription (ev : RawEvent) (v : string) : RawEvent :=
  mkRaw (raw_originalUID ev) (raw_title ev) (raw_startTime ev) (raw_endTime ev)
        (raw_location ev) (Some v).

Module Feed.
Section Parser.
(** [new Date(year, month, day, hour, minute, second)], the epoch value of a
    local time: the time zone of the script stays outside the model. *)
Variable newDate : Z -> Z -> Z -> Z -> Z -> Z -> Z.

Definition parseICSDateTime (line : string) : option Z :=
  match matchStamp line with
  | Some dateStr =>
      let year := parseInt (substring dateStr 0 4) in
      let month := parseInt (substring dateStr 4 6) - 1 in
      let day := parseInt (substring dateStr 6 8) in
      let hour := parseInt (substring dateStr 9 11) in
      let minute := parseInt (substring dateStr 11 13) in
      let second := parseInt (substring dateStr 13 15) in
      Some (newDate year month day hour minute second)
  | None => None
  end.

(** The body of the loop over the lines of a block.  [unescape] is what is
    done to the trimmed location: [cleanLocationString] in the clean version,
    nothing in the stable-UID version. *)
Definition readLine (unescape : string -> string) (event : RawEvent)
    (line : string) : RawEvent :=
  if startsWith line "UID:" then
    setOriginalUID event (trim (dropChars 4 line))
  else if startsWith line "SUMMARY:" then
    setRawTitle event (trim (dropChars 8 line))
  else if startsWith line "DTSTART" then
    setStartTime event (parseICSDateTime line)
  else if startsWith line "DTEND" then
    setEndTime event (parseICSDateTime line)
  else if startsWith line "LOCATION:" then
    setRawLocation event (unescape (trim (dropChars 9 line)))
  else if startsWith line "DESCRIPTION:" then
    setRawDescription event (trim (dropChars 12 line))
  else event.

(** [eventBlock.split('\n').map(line => line.trim()).filter(line => line)] *)
Definition linesOf (eventBlock : string) : list string :=
  filter (fun line => truthy line = true)
         (trim <$> split eventBlock (String LF EmptyString)).

Definition parseEventBlockWith (unescape : string -> string)
    (eventBlock : string) : option HockeyEvent :=
  parseEventBlock_finish (foldl (readLine unescape) emptyEvent (linesOf eventBlock)).

(** [parseEventBlock] of the clean version. *)
Definition parseEventBlock : string -> option HockeyEvent :=
  parseEventBlockWith cleanLocationString.

(** [parseEventBlock] of the stable-UID version. *)
Definition parseEventBlock_stable : string -> option HockeyEvent :=
  parseEventBlockWith (fun rawLocation => rawLocation).

(** [parseICSData]: the text before the first [BEGIN:VEVENT] is skipped, and
    of each later piece the part before [END:VEVENT] is parsed. *)
Definition parseICSData (icsData : string) : list HockeyEvent :=
  let eventBlocks := split icsData "BEGIN:VEVENT" in
  omap (fun block =>
          parseEventBlock (default EmptyString (head (split block "END:VEVENT"))))
       (tail eventBlocks).
End Parser.
End Feed.

(** A feed of two events, line by line. *)
Definition NL : string := String LF EmptyString.

Definition sampleFeed : string :=
  "BEGIN:VCALENDAR" +:+ NL +:+
  "BEGIN:VEVENT" +:+ NL +:+
  "UID:a1@benchapp.com" +:+ NL +:+
  "SUMMARY:Practice" +:+ NL +:+
  "DTSTART:20231114T221320" +:+ NL +:+
  "LOCATION:Rink A\, North St" +:+ NL +:+
  "DESCRIPTION:Bring both jerseys" +:+ NL +:+
  "END:VEVENT" +:+ NL +:+
  "BEGIN:VEVENT" +:+ NL +:+
  "UID:b2@benchapp.com" +:+ NL +:+
  "DTSTART:20231121T210000" +:+ NL +:+
  "END:VEVENT" +:+ NL +:+
  "END:VCALENDAR".

(** A stand-in for the clock of the script: seconds since the start of the
    day, as milliseconds. *)
Definition clockOfDay (year month day hour minute second : Z) : Z :=
  ((hour * 60 + minute) * 60 + second) * 1000.

(** Decimal digits, and the two- and four-digit fields of an ICS time
    stamp. *)
Definition digitChar (d : Z) : ascii := ascii_of_N (Z.to_N (48 + d)).

Definition pad2 (n : Z) : string :=
  String (digitChar (n / 10)) (String (digitChar (n mod 10)) EmptyString).

Definition pad4 (n : Z) : string :=
  String (digitChar (n / 1000))
    (String (digitChar (n / 100 mod 10))
       (String (digitChar (n / 10 mod 10))
          (String (digitChar (n mod 10)) EmptyString))).

(** [YYYYMMDDTHHMMSS] *)
Definition icsStamp (year month day hour minute second : Z) : string :=
  pad4 year +:+ pad2 month +:+ pad2 day +:+ "T"
  +:+ pad2 hour +:+ pad2 minute +:+ pad2 second.

Definition notBackslash (c : ascii) : bool := negb (Ascii.eqb c BACKSLASH).
Definition notDigit (c : ascii) : bool := negb (isDigit c).

(** The fields the loop over the lines leaves are trimmed. *)
Definition rawTrimmed (ev : RawEvent) : Prop :=
  (forall t, raw_title ev = Some t -> trim t = t)
  /\ (forall l, raw_location ev = Some l -> trim l = l)
  /\ (forall d, raw_description ev = Some d -> trim d = d).

(** ** Removing duplicates by hand *)

(** The key of [cleanupDuplicateEvents]:
    [`${event.getTitle()}|${event.getStartTime().getTime()}`]. *)
Definition duplicateKey (event : CalendarEvent) : string :=
  getTitle event +:+ "|" +:+ numberToString (getStartTime event).

(** [if (!eventGroups.has(key)) eventGroups.set(key, []);
     eventGroups.get(key).push(event)]: the entries of a [Map] stay in the
    order in which their keys were first set, and the removal loop goes
    through them in that order.  An event is named by its position among the
    existing events. *)
Fixpoint pushGroup (key : string) (i : nat) (groups : list (string * list nat))
  : list (string * list nat) :=
  match groups with
  | [] => [(key, [i])]
  | (k, events) :: groups' =>
      if bool_decide (k = key) then (k, events ++ [i]) :: groups'
      else (k, events) :: pushGroup key i groups'
  end.

Definition groupStep (groups : list (string * list nat)) (i : nat)
    (event : CalendarEvent) : list (string * list nat) :=
  pushGroup (duplicateKey event) i groups.

Definition eventGroups (existingEvents : list CalendarEvent)
  : list (string * list nat) :=
  forEachIdx groupStep 0 existingEvents [].

(** What the clean-up did: the events [deleteEvent] was called on, in order,
    and the counter it reports. *)
Record Cleanup : Type := mkCleanup {
  cleaned : list nat;
  duplicatesRemoved : nat
}.

Definition deleteDuplicate (c : Cleanup) (i : nat) : Cleanup :=
  mkCleanup (cleaned c ++ [i]) (S (duplicatesRemoved c)).

(** [if (events.length > 1) for (let i = 1; i < events.length; i++) ...] *)
Definition removeExtra (c : Cleanup) (group : string * list nat) : Cleanup :=
  if (1 <? length group.2)%nat then foldl deleteDuplicate c (tail group.2)
  else c.

Definition cleanupDuplicateEvents (events : list CalendarEvent) : Cleanup :=
  let existingEvents := getExistingHockeyEvents events in
  foldl removeExtra (mkCleanup [] 0) (eventGroups existingEvents).

(** The vocabulary of its properties. *)
Definition keyIs (k : string) (t : CalendarEvent) : bool :=
  bool_decide (duplicateKey t = k).

Definition notBar (c : ascii) : bool := negb (Ascii.eqb c "|").

(** The groups after the events of [E]: one group per key that occurs, holding
    the positions of the events with that key, in order. *)
Definition Grouped (E : list CalendarEvent) (groups : list (string * list nat))
  : Prop :=
  NoDup groups.*1
  /\ Forall (fun g => g.2 = removedFrom (keyIs g.1) 0 E /\ g.2 <> []) groups
  /\ (forall k, k ∉ groups.*1 -> removedFrom (keyIs k) 0 E = []).

Definition extras (groups : list (string * list nat)) : list nat :=
  mjoin ((fun g => tail g.2) <$> groups).

(** Two synced copies of one practice, a third with another location, and a
    drill. *)
Definition practiceCopy : CalendarEvent :=
  mkCal "[Hockey] Practice" 1700000000000 1700007200000 "Rink B"
        "Hockey-UID: benchapp-stable-1".

(** ** What a run reports *)

(** [results.added > 0 || results.updated > 0 || results.removed > 0], the
    test of [syncHockeyCalendar] between "Changes detected - family will
    receive notifications" and "No changes needed - no notifications sent". *)
Definition changesDetected (r : Results) : bool :=
  (0 <? added r)%nat || (0 <? updated r)%nat || (0 <? removed r)%nat.

(** [quickStatusCheck]: the number of events the feed gave and the number of
    synced events among [events], the events [calendar.getEvents] returns for
    the window; it prints "Match: YES" when they are equal. *)
Definition quickStatusCheck (hockeyEvents : list HockeyEvent)
    (events : list CalendarEvent) : nat * nat :=
  (length hockeyEvents, length (getExistingHockeyEvents events)).

(** ** Triggers *)

Record Trigger : Type := mkTrigger {
  getHandlerFunction : string;
  getUniqueId : string
}.

Definition isSyncTrigger (trigger : Trigger) : bool :=
  bool_decide (getHandlerFunction trigger = "syncHockeyCalendar").

Definition isOtherTrigger (trigger : Trigger) : bool :=
  negb (isSyncTrigger trigger).

(** The triggers of the project when [setupTriggers] ends, what it counted,
    and the number its last lines log when they are reached. *)
Record TriggerSetup : Type := mkTriggerSetup {
  projectTriggers : list Trigger;
  deletedCount : nat;
  verified : option nat
}.

(** One turn of the loop over [ScriptApp.getProjectTriggers()]: the state is
    the triggers met so far that are still in the project, and the counter.
    [ScriptApp.deleteTrigger] takes the trigger out of the project. *)
Definition deleteIfSync (st : list Trigger * nat) (trigger : Trigger)
  : list Trigger * nat :=
  if isSyncTrigger trigger then (st.1, S st.2)
  else (st.1 ++ [trigger], st.2).

(** [newTrigger] is what
    [ScriptApp.newTrigger('syncHockeyCalendar').timeBased().everyHours(6).create()]
    comes to: the unique id of the trigger now in the project, or an
    exception. *)
Definition setupTriggers (triggers : list Trigger) (newTrigger : Outcome string)
  : TriggerSetup :=
  let st := foldl deleteIfSync ([], O) triggers in
  match newTrigger with
  | Returned uniqueId =>
      let allTriggers := st.1 ++ [mkTrigger "syncHockeyCalendar" uniqueId] in
      let syncTriggers := filter (fun t => isSyncTrigger t = true) allTriggers in
      mkTriggerSetup allTriggers st.2 (Some (length syncTriggers))
  | Thrown _ => mkTriggerSetup st.1 st.2 None
  end.

(** [getSyncStatus]: the stored time of the last run and whether a sync
    trigger is active. *)
Definition getSyncStatus (lastSync : option string) (triggers : list Trigger)
  : option string * bool :=
  let syncTriggers := filter (fun t => isSyncTrigger t = true) triggers in
  (lastSync, (0 <? length syncTriggers)%nat).

(** ** The original script *)

(** The script as it was before the stable UID: the identity of a source
    event is the [UID] of the feed. *)
Module Original.

(** [(hockeyEvent.description || '') + `\n\nHockey-UID:${hockeyEvent.uid}`] *)
Definition newDescription (e : HockeyEvent) : string :=
  orEmpty (description e) +:+ LFLF +:+ MARKER +:+ uid e.

Definition createEvent (e : HockeyEvent) : CalendarEvent :=
  {| getTitle := EVENT_PREFIX +:+ title e;
     getStartTime := startTime e;
     getEndTime := expectedEndTime e;
     getLocation := orEmpty (location e);
     getDescription := newDescription e |}.

Definition updateEvent (existingEvent : CalendarEvent) (e : HockeyEvent)
  : CalendarEvent :=
  let newTitle := EVENT_PREFIX +:+ title e in
  let t1 := setTitle existingEvent newTitle in
  let t2 := setTime t1 (startTime e) (expectedEndTime e) in
  let t3 := setDescription t2 (newDescription e) in
  setLocation t3 (orEmpty (location e)).

Definition needsUpdate (existingEvent : CalendarEvent) (e : HockeyEvent)
  : bool :=
  let expectedTitle := EVENT_PREFIX +:+ title e in
  negb (bool_decide (getTitle existingEvent = expectedTitle))
  || negb (getStartTime existingEvent =? startTime e)
  || negb (getEndTime existingEvent =? expectedEndTime e)
  || negb (bool_decide (getLocation existingEvent = orEmpty (location e))).

(** Group 1 of [/Hockey-UID:([^\n\r]+)/] at one occurrence of the marker. *)
Definition captureRest (rest : string) : option string :=
  let group := takeWhile (fun c => negb (isLineTerminator c)) rest in
  if isEmpty group then None else Some group.

Fixpoint matchMarkerRest (s : string) : option string :=
  match (if startsWith s MARKER
         then captureRest (dropChars (String.length MARKER) s) else None) with
  | Some group => Some group
  | None =>
      match s with
      | EmptyString => None
      | String _ s' => matchMarkerRest s'
      end
  end.

Definition extractUIDFromDescription (description : string) : option string :=
  match matchMarkerRest description with
  | Some group => Some (trim group)
  | None => None
  end.

(** [getExistingHockeyEvents] without the test that the description is not
    empty. *)
Definition getExistingHockeyEvents (events : list CalendarEvent)
  : list CalendarEvent :=
  filter (fun event =>
            startsWith (getTitle event) EVENT_PREFIX
            && includes (getDescription event) MARKER = true) events.

End Original.

(** ** The entry point of the stable-UID version *)

(** [syncHockeyCalendar] of the stable-UID script, which takes
    [fetchHockeyEvents] and [getExistingHockeyEvents] over as they are. *)
Definition syncHockeyCalendar_stable (parseICSData : string -> list HockeyEvent)
    (familyCalendar : option (list CalendarEvent)) (response : Outcome string)
  : Outcome Run :=
  match familyCalendar with
  | None => Thrown "Family calendar not found. Check your FAMILY_CALENDAR_ID."
  | Some events =>
      let hockeyEvents := Clean.fetchHockeyEvents parseICSData response in
      let existingEvents := getExistingHockeyEvents events in
      Returned (StableUID.processEventsWithStableUIDs hockeyEvents existingEvents)
  end.

(** * Properties *)

Example hash_sample :
  createStableUID (mkRaw None (Some "Practice") (Some 1700000000000) None (Some "Rink A") None)
  = "benchapp-stable-255548776".
Proof. vm_compute. reflexivity. Qed.


(** ** Strings *)

Lemma append_nil_l (s : string) : EmptyString +:+ s = s.
Proof. reflexivity. Qed.

Lemma append_cons (c : ascii) (s t : string) :
  String c s +:+ t = String c (s +:+ t).
Proof. reflexivity. Qed.

Lemma append_nil_r (s : string) : s +:+ EmptyString = s.
Proof. induction s as [|c s IH]; [done|]. by rewrite append_cons, IH. Qed.

Lemma append_assoc (s t u : string) : (s +:+ t) +:+ u = s +:+ (t +:+ u).
Proof. induction s as [|c s IH]; [done|]. by rewrite !append_cons, IH. Qed.

Lemma startsWith_nil (s : string) : startsWith s EmptyString = true.
Proof. by destruct s. Qed.

Lemma startsWith_cons (c d : ascii) (s p : string) :
  startsWith (String c s) (String d p)
  = bool_decide (c = d) && startsWith s p.
Proof.
  unfold startsWith. simpl. destruct (ascii_dec d c) as [->|Hne].
  - by rewrite bool_decide_eq_true_2.
  - rewrite bool_decide_eq_false_2; [done|]. intros ->. by apply Hne.
Qed.

Lemma startsWith_app (s t : string) : startsWith (s +:+ t) s = true.
Proof.
  induction s as [|c s IH]; [apply startsWith_nil|].
  rewrite append_cons, startsWith_cons, IH. by rewrite bool_decide_eq_true_2.
Qed.

Lemma startsWith_app_l (s t p : string) :
  startsWith s p = true -> startsWith (s +:+ t) p = true.
Proof.
  revert p. induction s as [|c s IH]; intros [|d p]; try done.
  - intros _. apply startsWith_nil.
  - rewrite append_cons, !startsWith_cons.
    intros [-> H]%andb_true_iff. by rewrite (IH _ H).
Qed.

(** A pattern that starts inside [d] and matches [d +:+ t] either lies in [d]
    or runs out of [d] with a rest that [t] starts with. *)
Lemma startsWith_app_inv (d t p : string) :
  startsWith (d +:+ t) p = true ->
  startsWith d p = true \/ exists q, p = d +:+ q /\ startsWith t q = true.
Proof.
  revert p. induction d as [|c d IH]; intros p H.
  - right. exists p. by rewrite append_nil_l in *.
  - destruct p as [|c' p]; [by left|].
    rewrite append_cons, startsWith_cons in H.
    apply andb_true_iff in H as [Hc H]. apply bool_decide_eq_true in Hc as <-.
    destruct (IH _ H) as [Hd|(q & -> & Hq)].
    + left. by rewrite startsWith_cons, Hd, bool_decide_eq_true_2.
    + right. by exists q.
Qed.

Lemma allChars_app (f : ascii -> bool) (s t : string) :
  allChars f (s +:+ t) = allChars f s && allChars f t.
Proof.
  induction s as [|c s IH]; [done|].
  rewrite append_cons. simpl. by rewrite IH, andb_assoc.
Qed.

(** A pattern without the character [c] cannot straddle a boundary that is
    followed by [c]. *)
Lemma startsWith_before (c : ascii) (d t p : string) :
  allChars (fun x => negb (bool_decide (x = c))) p = true ->
  startsWith (d +:+ String c t) p = startsWith d p.
Proof.
  intros Hp. destruct (startsWith d p) eqn:Hd.
  - by apply startsWith_app_l.
  - apply not_true_is_false. intros H.
    apply startsWith_app_inv in H as [H|(q & -> & Hq)]; [congruence|].
    rewrite allChars_app in Hp. apply andb_true_iff in Hp as [_ Hp].
    destruct q as [|c' q].
    + rewrite append_nil_r in Hd. pose proof (startsWith_app d EmptyString) as H.
      rewrite append_nil_r in H. congruence.
    + rewrite startsWith_cons in Hq. simpl in Hp.
      apply andb_true_iff in Hq as [Hq _]. apply bool_decide_eq_true in Hq as ->.
      by rewrite bool_decide_eq_true_2 in Hp.
Qed.

Lemma dropChars_app (s t : string) : dropChars (String.length s) (s +:+ t) = t.
Proof. induction s as [|c s IH]; [done|]. by rewrite append_cons. Qed.

Lemma includes_startsWith (s p : string) :
  startsWith s p = true -> includes s p = true.
Proof. destruct s; simpl; intros ->; done. Qed.

Lemma includes_cons (c : ascii) (s p : string) :
  includes s p = true -> includes (String c s) p = true.
Proof. simpl. intros ->. apply orb_true_r. Qed.

Lemma includes_app_l (s t p : string) :
  includes s p = true -> includes (s +:+ t) p = true.
Proof.
  induction s as [|c s IH].
  - simpl. rewrite orb_false_r. intros H. destruct p; [|done].
    apply includes_startsWith, startsWith_nil.
  - rewrite append_cons. simpl. intros [H|H]%orb_true_iff.
    + change (String c (s +:+ t)) with (String c s +:+ t).
      by rewrite startsWith_app_l.
    + rewrite (IH H). apply orb_true_r.
Qed.

Lemma includes_trimStart (s p : string) :
  includes (trimStart s) p = true -> includes s p = true.
Proof.
  induction s as [|c s IH]; [done|]. simpl trimStart.
  destruct (isWhiteSpace c); [|done]. intros H. by apply includes_cons, IH.
Qed.

Lemma trimEnd_prefix (s : string) : exists w, s = trimEnd s +:+ w.
Proof.
  induction s as [|c s [w IH]]; [by exists EmptyString|].
  simpl. destruct (trimEnd s) as [|c' r] eqn:Hr.
  - destruct (isWhiteSpace c).
    + by exists (String c s).
    + exists s. by rewrite append_cons, append_nil_l.
  - exists w. rewrite append_cons. by f_equal.
Qed.

Lemma includes_trim (s p : string) :
  includes (trim s) p = true -> includes s p = true.
Proof.
  unfold trim. intros H. apply includes_trimStart.
  destruct (trimEnd_prefix (trimStart s)) as [w Hw]. rewrite Hw.
  by apply includes_app_l.
Qed.

(** *** Trimming and lower-casing *)

Lemma lineTerminator_whiteSpace (c : ascii) :
  isLineTerminator c = true -> isWhiteSpace c = true.
Proof. destruct c as [[] [] [] [] [] [] [] []]; vm_compute; done. Qed.

Lemma isWhiteSpace_lowerChar (c : ascii) :
  isWhiteSpace (lowerChar c) = isWhiteSpace c.
Proof. destruct c as [[] [] [] [] [] [] [] []]; vm_compute; done. Qed.

Lemma trimStart_clean (s : string) : startsClean (trimStart s).
Proof.
  induction s as [|c s IH]; [done|]. simpl.
  destruct (isWhiteSpace c) eqn:Hc; [done|]. exact Hc.
Qed.

Lemma trimStart_of_clean (s : string) : startsClean s -> trimStart s = s.
Proof. destruct s as [|c s]; [done|]. simpl. by intros ->. Qed.

Lemma trimEnd_clean (s : string) : startsClean s -> startsClean (trimEnd s).
Proof.
  destruct s as [|c s]; [done|]. simpl. intros Hc.
  destruct (trimEnd s); [by rewrite Hc|done].
Qed.

Lemma trimEnd_idempotent (s : string) : trimEnd (trimEnd s) = trimEnd s.
Proof.
  induction s as [|c s IH]; [done|]. simpl.
  destruct (trimEnd s) as [|c' r] eqn:Hr.
  - destruct (isWhiteSpace c) eqn:Hc; [done|]. simpl. by rewrite Hc.
  - change (trimEnd (String c (String c' r))) with
      (match trimEnd (String c' r) with
       | EmptyString =>
           if isWhiteSpace c then EmptyString else String c EmptyString
       | q => String c q
       end).
    by rewrite IH.
Qed.

Lemma trim_clean (s : string) : startsClean (trim s).
Proof. apply trimEnd_clean, trimStart_clean. Qed.

Lemma trim_idempotent (s : string) : trim (trim s) = trim s.
Proof.
  unfold trim at 1. rewrite trimStart_of_clean by apply trim_clean.
  apply trimEnd_idempotent.
Qed.

Lemma trimStart_toLowerCase (s : string) :
  trimStart (toLowerCase s) = toLowerCase (trimStart s).
Proof.
  induction s as [|c s IH]; [done|]. simpl.
  rewrite isWhiteSpace_lowerChar. by destruct (isWhiteSpace c).
Qed.

Lemma trimEnd_toLowerCase (s : string) :
  trimEnd (toLowerCase s) = toLowerCase (trimEnd s).
Proof.
  induction s as [|c s IH]; [done|]. simpl. rewrite IH.
  destruct (trimEnd s); simpl; [|done].
  rewrite isWhiteSpace_lowerChar. by destruct (isWhiteSpace c).
Qed.

Lemma trim_toLowerCase (s : string) :
  trim (toLowerCase s) = toLowerCase (trim s).
Proof. unfold trim. by rewrite trimStart_toLowerCase, trimEnd_toLowerCase. Qed.

(** *** Tokens: strings that are not empty and hold no white space *)

Lemma allChars_impl (f g : ascii -> bool) (s : string) :
  (forall c, f c = true -> g c = true) ->
  allChars f s = true -> allChars g s = true.
Proof.
  intros Hfg. induction s as [|c s IH]; [done|]. simpl.
  intros [Hc Hs]%andb_true_iff. by rewrite (Hfg _ Hc), IH.
Qed.

Lemma token_no_lineTerminator (u : string) :
  allChars notWhiteSpace u = true -> allChars notLineTerminator u = true.
Proof.
  apply allChars_impl. intros c. unfold notWhiteSpace, notLineTerminator.
  destruct (isLineTerminator c) eqn:Hc; [|done].
  by rewrite (lineTerminator_whiteSpace _ Hc).
Qed.

Lemma takeWhile_all (f : ascii -> bool) (s : string) :
  allChars f s = true -> takeWhile f s = s.
Proof.
  induction s as [|c s IH]; [done|]. simpl.
  intros [-> Hs]%andb_true_iff. by rewrite IH.
Qed.

Lemma trimEnd_token (u : string) :
  allChars notWhiteSpace u = true -> trimEnd u = u.
Proof.
  induction u as [|c u IH]; [done|]. simpl.
  intros [Hc Hu]%andb_true_iff. rewrite (IH Hu).
  destruct u; [|done]. unfold notWhiteSpace in Hc.
  by destruct (isWhiteSpace c).
Qed.

Lemma trimStart_token (u : string) :
  allChars notWhiteSpace u = true -> trimStart u = u.
Proof.
  intros Hu. apply trimStart_of_clean. destruct u as [|c u]; [done|].
  simpl in *. apply andb_true_iff in Hu as [Hc _].
  unfold notWhiteSpace in Hc. by destruct (isWhiteSpace c).
Qed.

Lemma trim_token (u : string) : allChars notWhiteSpace u = true -> trim u = u.
Proof. intros Hu. unfold trim. by rewrite trimStart_token, trimEnd_token. Qed.

Lemma uint_chars (d : Decimal.uint) :
  allChars notWhiteSpace (NilEmpty.string_of_uint d) = true.
Proof. induction d; simpl; done. Qed.

Lemma numberToString_chars (z : Z) :
  allChars notWhiteSpace (numberToString z) = true.
Proof.
  unfold numberToString, NilZero.string_of_int, NilZero.string_of_uint.
  destruct (Z.to_int z) as [d|d]; destruct d; try done;
    simpl; apply uint_chars.
Qed.

(** The stable UID is a token, whatever the event. *)
Lemma createStableUID_token (ev : RawEvent) : tokenLike (createStableUID ev) = true.
Proof.
  unfold createStableUID, tokenLike.
  set (n := numberToString _).
  change ("benchapp-stable-" +:+ n) with
    (String "b" ("enchapp-stable-" +:+ n)) at 1.
  simpl truthy. rewrite allChars_app. subst n.
  by rewrite numberToString_chars.
Qed.

(** *** The identity marker inside a stored description *)

Lemma matchMarkerToken_eq (s : string) :
  matchMarkerToken s
  = match (if startsWith s MARKER
           then captureToken (dropChars (String.length MARKER) s) else None) with
    | Some group => Some group
    | None =>
        match s with
        | EmptyString => None
        | String _ s' => matchMarkerToken s'
        end
    end.
Proof. by destruct s. Qed.

Lemma stripMarkerBlock_eq (s : string) :
  stripMarkerBlock s
  = if startsWith s (LFLF +:+ MARKER)
       && allChars notLineTerminator
                   (dropChars (String.length (LFLF +:+ MARKER)) s)
    then EmptyString
    else match s with
         | EmptyString => EmptyString
         | String c s' => String c (stripMarkerBlock s')
         end.
Proof. by destruct s. Qed.

Lemma captureToken_token (u : string) :
  tokenLike u = true -> captureToken (String " " u) = Some u.
Proof.
  intros [Ht Hu]%andb_true_iff. unfold captureToken. simpl trimStart.
  rewrite trimStart_token by done.
  fold notWhiteSpace. rewrite takeWhile_all by done.
  by destruct u.
Qed.

(** The marker line alone: the token after it is found. *)
Lemma matchMarkerToken_only (u : string) :
  tokenLike u = true -> matchMarkerToken ("Hockey-UID: " +:+ u) = Some u.
Proof.
  intros Hu. rewrite matchMarkerToken_eq.
  change ("Hockey-UID: " +:+ u) with (MARKER +:+ String " " u).
  by rewrite startsWith_app, dropChars_app, captureToken_token.
Qed.

Lemma startsWith_of_includes_false (s p : string) :
  includes s p = false -> startsWith s p = false.
Proof.
  intros H. destruct (startsWith s p) eqn:Hs; [|done].
  by rewrite (includes_startsWith _ _ Hs) in H.
Qed.

Lemma includes_false_tail (c : ascii) (s p : string) :
  includes (String c s) p = false -> includes s p = false.
Proof. simpl. by intros [_ ?]%orb_false_iff. Qed.

Lemma MARKER_no_LF :
  allChars (fun x => negb (bool_decide (x = LF))) MARKER = true.
Proof. done. Qed.

(** A marker-free text, a blank line, the marker line: the first marker found
    is the appended one. *)
Lemma matchMarkerToken_block (d u : string) :
  includes d MARKER = false -> tokenLike u = true ->
  matchMarkerToken (d +:+ LFLF +:+ "Hockey-UID: " +:+ u) = Some u.
Proof.
  intros Hd Hu. induction d as [|c d IH].
  - change (EmptyString +:+ LFLF +:+ "Hockey-UID: " +:+ u)
      with (String LF (String LF ("Hockey-UID: " +:+ u))).
    rewrite matchMarkerToken_eq.
    change (startsWith (String LF (String LF ("Hockey-UID: " +:+ u))) MARKER)
      with false. cbv iota.
    rewrite matchMarkerToken_eq.
    change (startsWith (String LF ("Hockey-UID: " +:+ u)) MARKER) with false.
    cbv iota. by apply matchMarkerToken_only.
  - rewrite matchMarkerToken_eq.
    change (String c d +:+ LFLF +:+ "Hockey-UID: " +:+ u)
      with (String c d +:+ String LF (String LF ("Hockey-UID: " +:+ u))) at 1.
    rewrite (startsWith_before LF) by apply MARKER_no_LF.
    rewrite (startsWith_of_includes_false _ _ Hd).
    rewrite append_cons. apply IH. by apply includes_false_tail in Hd.
Qed.

Lemma stripMarkerBlock_block (d u : string) :
  includes d MARKER = false -> allChars notWhiteSpace u = true ->
  stripMarkerBlock (d +:+ LFLF +:+ "Hockey-UID: " +:+ u) = d.
Proof.
  intros Hd Hu. apply token_no_lineTerminator in Hu.
  induction d as [|c d IH].
  - rewrite stripMarkerBlock_eq.
    change (EmptyString +:+ LFLF +:+ "Hockey-UID: " +:+ u)
      with ((LFLF +:+ MARKER) +:+ String " " u).
    rewrite startsWith_app, dropChars_app. simpl allChars. by rewrite Hu.
  - rewrite stripMarkerBlock_eq.
    assert (startsWith (String c d +:+ LFLF +:+ "Hockey-UID: " +:+ u)
              (LFLF +:+ MARKER) = false) as ->.
    { apply not_true_is_false. intros H.
      change (LFLF +:+ MARKER) with (String LF (String LF MARKER)) in H.
      rewrite append_cons, startsWith_cons in H.
      apply andb_true_iff in H as [_ H].
      destruct d as [|c' d].
      - by vm_compute in H.
      - rewrite append_cons, startsWith_cons in H.
        apply andb_true_iff in H as [_ H].
        change (d +:+ LFLF +:+ "Hockey-UID: " +:+ u)
          with (d +:+ String LF (String LF ("Hockey-UID: " +:+ u))) in H.
        rewrite (startsWith_before LF) in H by apply MARKER_no_LF.
        apply includes_false_tail, includes_false_tail in Hd.
        by rewrite (startsWith_of_includes_false _ _ Hd) in H. }
    simpl andb. cbv iota. rewrite append_cons. f_equal.
    apply IH. by apply includes_false_tail in Hd.
Qed.

Lemma stripMarkerBlock_no_LF (s : string) :
  allChars (fun x => negb (bool_decide (x = LF))) s = true ->
  stripMarkerBlock s = s.
Proof.
  induction s as [|c s IH]; [done|]. simpl allChars.
  intros [Hc Hs]%andb_true_iff. rewrite stripMarkerBlock_eq.
  change (LFLF +:+ MARKER) with (String LF (String LF MARKER)).
  rewrite startsWith_cons. apply negb_true_iff in Hc. rewrite Hc.
  simpl andb. cbv iota. by rewrite IH.
Qed.

Lemma token_no_LF (u : string) :
  allChars notWhiteSpace u = true ->
  allChars (fun x => negb (bool_decide (x = LF))) u = true.
Proof.
  apply allChars_impl. intros c Hc. apply negb_true_iff, bool_decide_eq_false.
  intros ->. by vm_compute in Hc.
Qed.

Lemma truthy_app_r (s t : string) : truthy t = true -> truthy (s +:+ t) = true.
Proof. destruct s; [by rewrite append_nil_l|done]. Qed.

(** *** What the reconciler writes, read back *)

Lemma updateEvent_createEvent (t : CalendarEvent) (e : HockeyEvent) :
  updateEvent t e = createEvent e.
Proof. reflexivity. Qed.

Lemma newDescription_cases (e : HockeyEvent) :
  (truthy (orEmpty (description e)) = false /\
   newDescription e = "Hockey-UID: " +:+ uid e) \/
  (truthy (orEmpty (description e)) = true /\
   newDescription e
   = trim (orEmpty (description e)) +:+ LFLF +:+ "Hockey-UID: " +:+ uid e).
Proof.
  unfold newDescription. destruct (orEmpty (description e)) as [|c d]; [by left|].
  by right.
Qed.

Lemma markerFree_trim (e : HockeyEvent) :
  markerFree e = true ->
  includes (trim (orEmpty (description e))) MARKER = false.
Proof.
  unfold markerFree. intros H%negb_true_iff.
  apply not_true_is_false. intros H'. by rewrite (includes_trim _ _ H') in H.
Qed.

Lemma extract_newDescription (e : HockeyEvent) :
  sourceOK e = true ->
  Clean.extractUIDFromDescription (newDescription e) = Some (uid e).
Proof.
  intros [Hu Hd]%andb_true_iff. unfold Clean.extractUIDFromDescription.
  pose proof Hu as [_ Hchars]%andb_true_iff.
  destruct (newDescription_cases e) as [[_ ->]|[_ ->]].
  - rewrite matchMarkerToken_only by done. by rewrite trim_token.
  - rewrite matchMarkerToken_block by auto using markerFree_trim.
    rewrite (trim_token (uid e)) by done.
    by rewrite !truthy_app_r.
Qed.

Lemma contentDesc_newDescription (e : HockeyEvent) :
  sourceOK e = true ->
  Clean.existingContentDesc (createEvent e) = Clean.newContentDesc e.
Proof.
  intros [Hu Hd]%andb_true_iff. apply andb_true_iff in Hu as [_ Hu].
  unfold Clean.existingContentDesc, Clean.newContentDesc. simpl getDescription.
  destruct (newDescription_cases e) as [[Hempty ->]|[_ ->]].
  - rewrite stripMarkerBlock_no_LF.
    + unfold stripMarkerOnly.
      change ("Hockey-UID: " +:+ uid e) with (MARKER +:+ String " " (uid e)).
      rewrite startsWith_app, dropChars_app. simpl allChars.
      fold notLineTerminator. rewrite token_no_lineTerminator by done.
      simpl andb. cbv iota.
      destruct (orEmpty (description e)); [reflexivity|discriminate Hempty].
    + rewrite allChars_app. by rewrite (token_no_LF (uid e)).
  - rewrite stripMarkerBlock_block by auto using markerFree_trim.
    unfold stripMarkerOnly.
    rewrite (startsWith_of_includes_false _ _ (markerFree_trim _ Hd)).
    apply trim_idempotent.
Qed.

Lemma eqb_refl_neg (s : string) : negb (String.eqb s s) = false.
Proof. by rewrite String.eqb_refl. Qed.

(** An event the reconciler has just written needs no update. *)
Lemma needsUpdate_createEvent (e : HockeyEvent) :
  sourceOK e = true -> Clean.needsUpdate (createEvent e) e = false.
Proof.
  intros He. unfold Clean.needsUpdate.
  assert (Clean.titleChanged (createEvent e) e = false) as ->
    by apply eqb_refl_neg.
  assert (Clean.startChanged (createEvent e) e = false) as ->.
  { unfold Clean.startChanged, Clean.startTimeDiff. simpl.
    rewrite Z.sub_diag. done. }
  assert (Clean.endChanged (createEvent e) e = false) as ->.
  { unfold Clean.endChanged, Clean.endTimeDiff. simpl.
    rewrite Z.sub_diag. done. }
  assert (Clean.locationChanged (createEvent e) e = false) as ->
    by apply eqb_refl_neg.
  unfold Clean.descriptionChanged.
  rewrite contentDesc_newDescription by done. apply eqb_refl_neg.
Qed.

(** ** The lookup maps *)

Section HockeyEventMap.
Implicit Types (m : gmap string HockeyEvent) (es : list HockeyEvent).

Lemma foldl_add_is_Some m es (u : string) :
  is_Some (foldl setByUID m es !! u) <-> is_Some (m !! u) \/ u ∈ uid <$> es.
Proof.
  revert m. induction es as [|e es IH]; intros m; simpl.
  - rewrite elem_of_nil. tauto.
  - rewrite IH, elem_of_cons. unfold setByUID.
    destruct (decide (uid e = u)) as [->|Hne].
    + rewrite lookup_insert_eq. split; [|intros _; left]; eauto.
    + rewrite lookup_insert_ne by done.
      split; [intros [?|?]; auto|intros [?|[?|?]]; auto; done].
Qed.

Lemma foldl_add_Some m es (u : string) (e : HockeyEvent) :
  foldl setByUID m es !! u = Some e ->
  m !! u = Some e \/ (e ∈ es /\ uid e = u).
Proof.
  revert m. induction es as [|e' es IH]; intros m; simpl; [by left|].
  intros [H|[H1 H2]]%IH.
  - unfold setByUID in H. destruct (decide (uid e' = u)) as [<-|Hne].
    + rewrite lookup_insert_eq in H. injection H as ->.
      right. split; [left|done].
    + rewrite lookup_insert_ne in H by done. by left.
  - right. split; [by right|done].
Qed.

Lemma foldl_add_NoDup m es (e : HockeyEvent) :
  NoDup (uid <$> es) -> e ∈ es -> foldl setByUID m es !! uid e = Some e.
Proof.
  revert m. induction es as [|e' es IH]; intros m Hnd He; simpl.
  - by apply elem_of_nil in He.
  - rewrite fmap_cons in Hnd. apply NoDup_cons in Hnd as [Hnew Hnd].
    apply elem_of_cons in He as [->|He]; [|by apply IH].
    destruct (foldl setByUID (setByUID m e') es !! uid e') as [x|] eqn:Hx.
    + apply foldl_add_Some in Hx as [Hx|[Hx1 Hx2]].
      * unfold setByUID in Hx. by rewrite lookup_insert_eq in Hx.
      * exfalso. apply Hnew. rewrite <- Hx2. by apply list_elem_of_fmap_2.
    + assert (is_Some (foldl setByUID (setByUID m e') es !! uid e')) as [? ?]; [|congruence].
      apply foldl_add_is_Some. left. unfold setByUID. by rewrite lookup_insert_eq.
Qed.

Lemma hockeyEventMap_has es (u : string) :
  is_Some (hockeyEventMap es !! u) <-> u ∈ uid <$> es.
Proof.
  unfold hockeyEventMap. rewrite (foldl_add_is_Some ∅).
  rewrite lookup_empty. split; [intros [[? ?]|?]|]; auto; done.
Qed.

Lemma hockeyEventMap_Some es (u : string) (e : HockeyEvent) :
  hockeyEventMap es !! u = Some e -> e ∈ es /\ uid e = u.
Proof.
  intros [H|H]%(foldl_add_Some ∅); [|done]. by rewrite lookup_empty in H.
Qed.

Lemma hockeyEventMap_NoDup es (e : HockeyEvent) :
  NoDup (uid <$> es) -> e ∈ es -> hockeyEventMap es !! uid e = Some e.
Proof. apply (foldl_add_NoDup ∅). Qed.
End HockeyEventMap.

Section LastIndex.
Context {K : Type} `{EqDecision K}.

Lemma lastIndex_lookup (k : K) (keys : list (option K)) (j : nat) :
  lastIndex k keys = Some j -> keys !! j = Some (Some k).
Proof.
  revert j. induction keys as [|x keys IH]; intros j; simpl; [done|].
  destruct (lastIndex k keys) as [j'|].
  - intros [= <-]. by apply IH.
  - destruct (decide (x = Some k)) as [->|]; [|done]. by intros [= <-].
Qed.

Lemma lastIndex_None (k : K) (keys : list (option K)) :
  lastIndex k keys = None <-> Some k ∉ keys.
Proof.
  induction keys as [|x keys IH]; simpl.
  - split; [intros _; apply not_elem_of_nil|done].
  - rewrite not_elem_of_cons. destruct (lastIndex k keys) as [j|].
    + split; [done|]. intros [_ H]. by apply IH in H.
    + destruct (decide (x = Some k)) as [->|Hne];
        [split; [done|]; by intros [? _]|].
      split; [|done]. intros _. split; [congruence|]. by apply IH.
Qed.
End LastIndex.

Lemma forEachIdx_ext {A R : Type} (f g : R -> nat -> A -> R) (i : nat)
    (l : list A) (r : R) :
  (forall r i x, f r i x = g r i x) -> forEachIdx f i l r = forEachIdx g i l r.
Proof.
  intros Hfg. revert i r. induction l as [|x l IH]; intros i r; simpl; [done|].
  by rewrite Hfg, IH.
Qed.

Lemma forEachIdx_indexBy (key : CalendarEvent -> option string)
    (ts : list CalendarEvent) (i : nat) (m : gmap string nat) (k : string) :
  forEachIdx (indexBy key) i ts m !! k
  = match lastIndex k (key <$> ts) with
    | Some j => Some (i + j)%nat
    | None => m !! k
    end.
Proof.
  revert i m. induction ts as [|t ts IH]; intros i m; [done|].
  rewrite fmap_cons. cbn [forEachIdx lastIndex].
  rewrite IH. destruct (lastIndex k (key <$> ts)) as [j|].
  - f_equal. lia.
  - unfold indexBy. destruct (key t) as [k'|].
    + destruct (decide (Some k' = Some k)) as [[= ->]|Hne].
      * rewrite lookup_insert_eq. f_equal. lia.
      * rewrite lookup_insert_ne; [done|]. by intros ->.
    + by destruct (decide (None = Some k)).
Qed.

Section LastWith.
Variable key : CalendarEvent -> option string.

Lemma lastIndex_lastWith (k : string) (ts : list CalendarEvent) :
  match lastIndex k (key <$> ts) with
  | Some j => ts !! j = lastWith key k ts /\ is_Some (lastWith key k ts)
  | None => lastWith key k ts = None
  end.
Proof.
  induction ts as [|t ts IH]; [done|].
  rewrite fmap_cons. cbn [lastIndex lastWith lookup].
  destruct (lastIndex k (key <$> ts)) as [j|].
  - destruct IH as [IH [x Hx]]. rewrite Hx in *. eauto.
  - rewrite IH. destruct (decide (key t = Some k)); eauto.
Qed.

Lemma lastWith_indexed (k : string) (ts : list CalendarEvent)
    (x : CalendarEvent) :
  lastWith key k ts = Some x ->
  exists j, forEachIdx (indexBy key) 0 ts ∅ !! k = Some j /\ ts !! j = Some x.
Proof.
  intros Hx. rewrite forEachIdx_indexBy.
  pose proof (lastIndex_lastWith k ts) as H.
  destruct (lastIndex k (key <$> ts)) as [j|]; [|congruence].
  exists j. destruct H as [H _]. by rewrite H.
Qed.

Lemma lastWith_Some (k : string) (ts : list CalendarEvent) (x : CalendarEvent) :
  lastWith key k ts = Some x -> x ∈ ts /\ key x = Some k.
Proof.
  induction ts as [|t ts IH]; simpl; [done|].
  destruct (lastWith key k ts) as [y|].
  - intros [= <-]. destruct IH as [? ?]; [done|]. split; [by right|done].
  - destruct (decide (key t = Some k)); [|done].
    intros [= <-]. split; [left|done].
Qed.

Lemma lastWith_None (k : string) (ts : list CalendarEvent) :
  lastWith key k ts = None <-> forall t, t ∈ ts -> key t <> Some k.
Proof.
  induction ts as [|t ts IH]; simpl.
  - split; [|done]. intros _ t Ht. by apply elem_of_nil in Ht.
  - destruct (lastWith key k ts) as [y|].
    + split; [done|]. intros H. exfalso.
      assert (Some y = None) as Hy; [|done]. apply IH. intros t' Ht'.
      apply H. by right.
    + destruct (decide (key t = Some k)) as [Hk|Hk].
      * split; [done|]. intros H. exfalso. apply (H t); [left|done].
      * split; [|done]. intros _ t' [->|Ht']%elem_of_cons; [done|].
        by apply IH.
Qed.

Lemma lastWith_app (k : string) (ts1 ts2 : list CalendarEvent) :
  lastWith key k (ts1 ++ ts2)
  = match lastWith key k ts2 with
    | Some x => Some x
    | None => lastWith key k ts1
    end.
Proof.
  induction ts1 as [|t ts1 IH]; simpl; [by destruct (lastWith key k ts2)|].
  rewrite IH. by destruct (lastWith key k ts2).
Qed.

Lemma lastWith_filter (P : CalendarEvent -> bool) (k : string)
    (ts : list CalendarEvent) :
  (forall t, t ∈ ts -> key t = Some k -> P t = true) ->
  lastWith key k (filter (fun t => P t = true) ts) = lastWith key k ts.
Proof.
  induction ts as [|t ts IH]; intros HP; [done|].
  assert (lastWith key k (filter (fun t => P t = true) ts) = lastWith key k ts) as IH'.
  { apply IH. intros t' Ht'. apply HP. by right. }
  rewrite filter_cons. simpl. destruct (decide (P t = true)) as [Ht|Ht].
  - simpl. by rewrite IH'.
  - rewrite IH'. destruct (lastWith key k ts); [done|].
    destruct (decide (key t = Some k)) as [Hk|]; [|done].
    exfalso. apply Ht, HP; [left|done].
Qed.

(** Where the keys of two lists agree position by position, so do the
    positions the index holds. *)
Lemma lastWith_same_keys (k : string) (ts1 ts2 : list CalendarEvent) (j : nat) :
  key <$> ts1 = key <$> ts2 ->
  forEachIdx (indexBy key) 0 ts1 ∅ !! k = Some j ->
  lastWith key k ts2 = ts2 !! j /\ is_Some (ts2 !! j).
Proof.
  intros Hkeys. rewrite forEachIdx_indexBy, Hkeys.
  pose proof (lastIndex_lastWith k ts2) as H.
  destruct (lastIndex k (key <$> ts2)) as [j'|]; [|by rewrite lookup_empty].
  intros [= <-]. destruct H as [H1 H2]. by rewrite H1.
Qed.
End LastWith.

Lemma elem_of_snoc {A : Type} (l : list A) (x y : A) :
  y ∈ l ++ [x] <-> y ∈ l \/ y = x.
Proof. by rewrite elem_of_app, list_elem_of_singleton. Qed.

(** ** The removal pass *)

Section RemovalPass.
Variable test : CalendarEvent -> bool.

Lemma removal_pass (ts : list CalendarEvent) (i : nat) (r : Run) :
  forEachIdx (removeIf test) i ts r
  = mkRun (existing r) (deleted r ++ removedFrom test i ts) (created r)
          (mkResults (added (results r)) (updated (results r))
                     (removed (results r) + length (removedFrom test i ts))
                     (unchanged (results r)) (migrated (results r)))
          (log r ++ (Removed <$> removedFrom test i ts)).
Proof.
  revert i r. induction ts as [|t ts IH]; intros i r; simpl.
  - rewrite !app_nil_r, Nat.add_0_r. by destruct r as [? ? ? [] ?].
  - rewrite IH. unfold removeIf. destruct (test t); simpl; [|done].
    rewrite <- !app_assoc. simpl. do 2 f_equal. lia.
Qed.

Lemma removedFrom_ge (i j : nat) (ts : list CalendarEvent) :
  j ∈ removedFrom test i ts -> (i <= j)%nat.
Proof.
  revert i. induction ts as [|t ts IH]; intros i; simpl.
  - by intros ?%elem_of_nil.
  - destruct (test t).
    + intros [->|H%IH]%elem_of_cons; lia.
    + intros H%IH. lia.
Qed.

Lemma removedFrom_lookup (i j : nat) (ts : list CalendarEvent) :
  j ∈ removedFrom test i ts <->
  (i <= j)%nat /\ exists t, ts !! (j - i)%nat = Some t /\ test t = true.
Proof.
  revert i. induction ts as [|t ts IH]; intros i; simpl.
  - rewrite elem_of_nil. split; [done|]. by intros [_ (? & ? & _)].
  - assert (j ∈ removedFrom test (S i) ts <->
            (i < j)%nat /\ exists t', (t :: ts) !! (j - i)%nat = Some t'
                                    /\ test t' = true) as Htail.
    { rewrite IH. split.
      - intros [Hle (t' & Ht' & Htest)]. split; [lia|]. exists t'.
        split; [|done]. by replace (j - i)%nat with (S (j - S i)) by lia.
      - intros [Hlt (t' & Ht' & Htest)]. split; [lia|]. exists t'.
        split; [|done].
        by replace (j - i)%nat with (S (j - S i)) in Ht' by lia. }
    destruct (test t) eqn:Ht.
    + rewrite elem_of_cons, Htail. split.
      * intros [->|[Hlt H]]; [|split; [lia|done]].
        split; [lia|]. exists t. by rewrite Nat.sub_diag.
      * intros [Hle H]. destruct (decide (j = i)) as [->|Hne]; [by left|].
        right. split; [lia|done].
    + rewrite Htail. split.
      * intros [Hlt H]. split; [lia|done].
      * intros [Hle (t' & Ht' & Htest)].
        destruct (decide (j = i)) as [->|Hne].
        -- rewrite Nat.sub_diag in Ht'. simpl in Ht'. congruence.
        -- split; [lia|]. by exists t'.
Qed.

Lemma removedFrom_none (i : nat) (ts : list CalendarEvent) :
  (forall t, t ∈ ts -> test t = false) -> removedFrom test i ts = [].
Proof.
  revert i. induction ts as [|t ts IH]; intros i H; simpl; [done|].
  rewrite (H t) by left. apply IH. intros t' Ht'. apply H. by right.
Qed.

Lemma aliveFrom_removedFrom (dead : list nat) (i : nat)
    (ts : list CalendarEvent) :
  (forall j, j ∈ dead -> (j < i)%nat) ->
  aliveFrom i (dead ++ removedFrom test i ts) ts
  = filter (fun t => negb (test t) = true) ts.
Proof.
  revert dead i. induction ts as [|t ts IH]; intros dead i Hdead; [done|].
  simpl. rewrite filter_cons. destruct (test t) eqn:Ht; simpl.
  - rewrite bool_decide_eq_true_2
      by (apply elem_of_app; right; left).
    replace (dead ++ i :: removedFrom test (S i) ts)
      with ((dead ++ [i]) ++ removedFrom test (S i) ts)
      by (by rewrite <- app_assoc).
    apply IH.
    intros j [?%Hdead| ->]%elem_of_snoc; lia.
  - rewrite bool_decide_eq_false_2.
    + f_equal. apply IH.
      intros j ?%Hdead. lia.
    + intros [?%Hdead|?%removedFrom_ge]%elem_of_app; lia.
Qed.

Lemma aliveFrom_nil (i : nat) (ts : list CalendarEvent) :
  aliveFrom i [] ts = ts.
Proof.
  revert i. induction ts as [|t ts IH]; intros i; [done|]. simpl.
  by rewrite IH.
Qed.
End RemovalPass.

(** ** The clean version: the add-or-update pass *)

Lemma Clean_existingEventMap_eq (ts : list CalendarEvent) :
  Clean.existingEventMap ts = forEachIdx (indexBy storedUID) 0 ts ∅.
Proof.
  apply forEachIdx_ext. intros m i t.
  unfold Clean.indexExisting, indexBy, storedUID, keyOf.
  destruct (Clean.extractUIDFromDescription _) as [u|]; [|done].
  by destruct (truthy u).
Qed.

Lemma Clean_existingEventMap_lookup (ts : list CalendarEvent) (u : string)
    (i : nat) :
  Clean.existingEventMap ts !! u = Some i ->
  (storedUID <$> ts) !! i = Some (Some u).
Proof.
  rewrite Clean_existingEventMap_eq, forEachIdx_indexBy.
  destruct (lastIndex u (storedUID <$> ts)) as [j|] eqn:Hj;
    [|by rewrite lookup_empty].
  intros [= <-]. by apply lastIndex_lookup.
Qed.

Lemma keys_lookup (ts : list CalendarEvent) (u : string) (i : nat) :
  (storedUID <$> ts) !! i = Some (Some u) ->
  exists t, ts !! i = Some t /\ storedUID t = Some u.
Proof.
  rewrite list_lookup_fmap. destruct (ts !! i) as [t|]; [|done].
  intros [= H]. by exists t.
Qed.

Lemma Clean_shouldRemove_true (es : list HockeyEvent) (t : CalendarEvent) :
  Clean.shouldRemove (hockeyEventMap es) t = true <->
  exists u, storedUID t = Some u /\ u ∉ uid <$> es.
Proof.
  unfold Clean.shouldRemove, storedUID, keyOf.
  destruct (Clean.extractUIDFromDescription _) as [u|];
    [|split; [done|by intros (? & ? & ?)]].
  destruct (truthy u); simpl; [|split; [done|by intros (? & ? & ?)]].
  rewrite negb_true_iff, bool_decide_eq_false, hockeyEventMap_has.
  split; [by exists u|]. by intros (? & [= <-] & ?).
Qed.

Lemma storedUID_createEvent (e : HockeyEvent) :
  sourceOK e = true -> storedUID (createEvent e) = Some (uid e).
Proof.
  intros He. unfold storedUID, keyOf. simpl getDescription.
  rewrite extract_newDescription by done.
  apply andb_true_iff in He as [[-> _]%andb_true_iff _]. done.
Qed.

Section CleanRun.
Variables (S : list HockeyEvent) (T : list CalendarEvent).
Hypothesis S_ok : forall e, e ∈ S -> sourceOK e = true.
Hypothesis S_functional :
  forall e e', e ∈ S -> e' ∈ S -> uid e = uid e' -> e = e'.

Lemma PassInv_start : PassInv T [] (startRun T).
Proof.
  split; try done. intros e i He. by apply elem_of_nil in He.
Qed.

Lemma PassInv_step (seen : list HockeyEvent) (r : Run) (e : HockeyEvent) :
  (forall x, x ∈ seen -> x ∈ S) -> e ∈ S ->
  PassInv T seen r ->
  PassInv T (seen ++ [e]) (Clean.processOne (Clean.existingEventMap T) r e).
Proof.
  intros Hseen He [Hkeys Hcreated Hdeleted Hsettled].
  unfold Clean.processOne. destruct ((Clean.existingEventMap T) !! uid e) as [i|] eqn:Hi.
  - pose proof (Clean_existingEventMap_lookup _ _ _ Hi) as HTi.
    pose proof HTi as HTi'. rewrite <- Hkeys in HTi'.
    destruct (keys_lookup _ _ _ HTi') as (t & Ht & Htu). rewrite Ht.
    assert (filter (isNew T) (seen ++ [e]) = filter (isNew T) seen) as Hfilter.
    { rewrite filter_app, filter_cons, filter_nil.
      unfold isNew at 2. rewrite decide_False by congruence.
      apply app_nil_r. }
    destruct (Clean.needsUpdate t e) eqn:Hneeds.
    + split; simpl; [| by rewrite Hfilter | done |].
      * rewrite list_fmap_insert, updateEvent_createEvent.
        rewrite storedUID_createEvent by auto.
        rewrite Hkeys. by apply list_insert_id.
      * intros e0 i0 He0 Hi0. destruct (decide (i0 = i)) as [->|Hne].
        -- pose proof (Clean_existingEventMap_lookup _ _ _ Hi0) as H0.
           rewrite HTi in H0. injection H0 as H0.
           assert (e0 = e) as ->.
           { apply S_functional; [|done|done].
             apply elem_of_snoc in He0 as [?| ->]; auto. }
           exists (createEvent e). split.
           ++ rewrite updateEvent_createEvent.
              apply list_lookup_insert_eq. by apply lookup_lt_Some in Ht.
           ++ apply needsUpdate_createEvent; auto.
        -- rewrite list_lookup_insert_ne by done.
           apply elem_of_snoc in He0 as [?| ->]; [eauto|].
           congruence.
    + split; simpl; [done | by rewrite Hfilter | done |].
      intros e0 i0 [?| ->]%elem_of_snoc Hi0; [eauto|].
      exists t. split; congruence.
  - split; simpl; [done | | done |].
    + rewrite filter_app, filter_cons, filter_nil.
      unfold isNew at 2. rewrite decide_True by done.
      by rewrite fmap_app, Hcreated.
    + intros e0 i0 [?| ->]%elem_of_snoc Hi0; [eauto|].
      congruence.
Qed.

Lemma PassInv_foldl (seen : list HockeyEvent) :
  (forall x, x ∈ seen -> x ∈ S) ->
  PassInv T seen (foldl (Clean.processOne (Clean.existingEventMap T)) (startRun T) seen).
Proof.
  induction seen as [|e seen IH] using rev_ind; intros Hseen.
  - apply PassInv_start.
  - rewrite foldl_app. simpl. apply PassInv_step.
    + intros x Hx. apply Hseen, elem_of_snoc. by left.
    + apply Hseen, elem_of_snoc. by right.
    + apply IH. intros x Hx. apply Hseen, elem_of_snoc. by left.
Qed.
Lemma cleanKeeps_identity (t : CalendarEvent) (e : HockeyEvent) :
  e ∈ S -> storedUID t = Some (uid e) -> cleanKeeps S t = true.
Proof.
  intros He Ht. unfold cleanKeeps. apply negb_true_iff, not_true_is_false.
  intros (u & Hu & Hnot)%Clean_shouldRemove_true. apply Hnot.
  rewrite Ht in Hu. injection Hu as <-. by apply list_elem_of_fmap_2.
Qed.

Lemma created_inv (r : Run) (c : CalendarEvent) :
  PassInv T S r -> c ∈ created r ->
  exists e, e ∈ S /\ isNew T e /\ c = createEvent e.
Proof.
  intros [_ Hcreated _ _]. rewrite Hcreated.
  intros (e & -> & [Hnew He]%list_elem_of_filter)%list_elem_of_fmap.
  by exists e.
Qed.

Lemma survivors_settled (r : Run) (e : HockeyEvent) :
  PassInv T S r -> e ∈ S ->
  exists t,
    lastWith storedUID (uid e)
      (filter (fun t => cleanKeeps S t = true) (existing r) ++ created r) = Some t
    /\ Clean.needsUpdate t e = false.
Proof.
  intros Hinv He. pose proof Hinv as [Hkeys Hcreated _ Hsettled].
  rewrite lastWith_app. destruct ((Clean.existingEventMap T) !! uid e) as [i|] eqn:Hi.
  - destruct (Hsettled e i He Hi) as (t & Ht & Hneeds).
    assert (lastWith storedUID (uid e) (created r) = None) as ->.
    { apply lastWith_None. intros c Hc Hcu.
      destruct (created_inv r c Hinv Hc) as (e' & He' & Hnew & ->).
      rewrite storedUID_createEvent in Hcu by auto. injection Hcu as Hcu.
      unfold isNew in Hnew. rewrite Hcu in Hnew. congruence. }
    rewrite lastWith_filter by eauto using cleanKeeps_identity.
    rewrite Clean_existingEventMap_eq in Hi.
    destruct (lastWith_same_keys storedUID (uid e) T (existing r) i)
      as [-> _]; [done|done|].
    by exists t.
  - assert (createEvent e ∈ created r) as Hin.
    { rewrite Hcreated. apply list_elem_of_fmap_2, list_elem_of_filter. done. }
    destruct (lastWith storedUID (uid e) (created r)) as [c|] eqn:Hc.
    + exists c. split; [done|].
      apply lastWith_Some in Hc as [Hc Hcu].
      destruct (created_inv r c Hinv Hc) as (e' & He' & _ & ->).
      rewrite storedUID_createEvent in Hcu by auto. injection Hcu as Hcu.
      rewrite (S_functional e' e) by done.
      apply needsUpdate_createEvent; auto.
    + exfalso. rewrite lastWith_None in Hc.
      apply (Hc _ Hin). apply storedUID_createEvent; auto.
Qed.

Lemma survivors_kept (r : Run) (t : CalendarEvent) :
  PassInv T S r ->
  t ∈ filter (fun t => cleanKeeps S t = true) (existing r) ++ created r ->
  Clean.shouldRemove (hockeyEventMap S) t = false.
Proof.
  intros Hinv [[Hkeep _]%list_elem_of_filter|Hc]%elem_of_app.
  - by apply negb_true_iff in Hkeep.
  - destruct (created_inv r t Hinv Hc) as (e & He & _ & ->).
    apply negb_true_iff. apply (cleanKeeps_identity _ e); [done|].
    apply storedUID_createEvent; auto.
Qed.
End CleanRun.

(** A pass in which every source event finds an existing event that needs no
    update changes nothing and counts them all unchanged. *)
Lemma Clean_pass_quiet (emap : gmap string nat) (es : list HockeyEvent)
    (r : Run) :
  (forall e, e ∈ es -> exists j t,
      emap !! uid e = Some j /\ existing r !! j = Some t
      /\ Clean.needsUpdate t e = false) ->
  foldl (Clean.processOne emap) r es
  = mkRun (existing r) (deleted r) (created r)
          (mkResults (added (results r)) (updated (results r))
                     (removed (results r))
                     (unchanged (results r) + length es)
                     (migrated (results r)))
          (log r ++ ((fun e => Unchanged (default O (emap !! uid e)) e) <$> es)).
Proof.
  revert r. induction es as [|e es IH]; intros r H; simpl.
  - rewrite app_nil_r, Nat.add_0_r. by destruct r as [? ? ? [] ?].
  - destruct (H e) as (j & t & Hj & Ht & Hneeds); [left|].
    assert (Clean.processOne emap r e = doUnchanged r j e) as ->.
    { unfold Clean.processOne. by rewrite Hj, Ht, Hneeds. }
    rewrite IH.
    + simpl. rewrite Hj. simpl. rewrite <- app_assoc. simpl.
      do 2 f_equal. lia.
    + intros e' He'. simpl. apply H. by right.
Qed.


Lemma Clean_processEvents_unfold (es : list HockeyEvent)
    (ts : list CalendarEvent) :
  let r := foldl (Clean.processOne (Clean.existingEventMap ts)) (startRun ts) es in
  let gone := removedFrom (Clean.shouldRemove (hockeyEventMap es)) 0 (existing r) in
  Clean.processEvents es ts
  = mkRun (existing r) (deleted r ++ gone) (created r)
          (mkResults (added (results r)) (updated (results r))
                     (removed (results r) + length gone)
                     (unchanged (results r)) (migrated (results r)))
          (log r ++ (Removed <$> gone)).
Proof. intros r gone. unfold Clean.processEvents. apply removal_pass. Qed.

(** ** Idempotence of the clean version *)

Example drill_parsed :
  parseEventBlock_finish
    (mkRaw (Some "a1") (Some "Practice") (Some 1700000000000) None
           (Some "Rink A") (Some "Bring both jerseys")) = Some drill
  /\ parseEventBlock_finish
       (mkRaw (Some "b2") (Some "Practice") (Some 1700000000000) None
              (Some "Rink A") (Some "Full gear")) = Some scrimmage.
Proof. split; vm_compute; reflexivity. Qed.

(** C2, as stated, fails: after a first run on an empty calendar has created
    one event for each of two source events that share an identity, the
    second run updates twice. *)
Lemma idempotence_fails_on_shared_identity :
  let T' := calendarAfter (Clean.processEvents [drill; scrimmage] []) in
  results (Clean.processEvents [drill; scrimmage] T') = mkResults 0 2 0 0 0.
Proof. vm_compute. reflexivity. Qed.

(** C2 (amended): in the clean version, when every source event has a token
    for UID and a description without the marker text, and source events that
    share a UID are equal, reconciling the same source events against the
    calendar the first run left counts nothing added, updated or removed,
    counts every source event unchanged, requests no mutation and leaves the
    calendar as it was. *)
Theorem reconcile_idempotent (S : list HockeyEvent) (T : list CalendarEvent) :
  (forall e, e ∈ S -> sourceOK e = true) ->
  (forall e e', e ∈ S -> e' ∈ S -> uid e = uid e' -> e = e') ->
  let T' := calendarAfter (Clean.processEvents S T) in
  let again := Clean.processEvents S T' in
  results again = mkResults 0 0 0 (length S) 0
  /\ Forall (fun d => isMutation d = false) (log again)
  /\ calendarAfter again = T'.
Proof.
  intros Hok Hfun T' again.
  pose proof (PassInv_foldl S T Hok Hfun S (fun x Hx => Hx)) as Hinv.
  set (r := foldl (Clean.processOne (Clean.existingEventMap T)) (startRun T) S)
    in Hinv.
  assert (T' = filter (fun t => cleanKeeps S t = true) (existing r)
               ++ created r) as HT'.
  { unfold T'. rewrite Clean_processEvents_unfold. fold r. unfold calendarAfter.
    simpl. rewrite (inv_deleted _ _ _ Hinv).
    by rewrite aliveFrom_removedFrom by (intros j ?%elem_of_nil; done). }
  assert (foldl (Clean.processOne (Clean.existingEventMap T')) (startRun T') S
          = mkRun T' [] [] (mkResults 0 0 0 (length S) 0)
              ((fun e => Unchanged
                  (default O (Clean.existingEventMap T' !! uid e)) e) <$> S))
    as Hpass.
  { rewrite Clean_pass_quiet; [done|]. intros e He. simpl.
    destruct (survivors_settled S T Hok Hfun r e Hinv He) as (t & Ht & Hneeds).
    rewrite <- HT' in Ht.
    apply lastWith_indexed in Ht as (j & Hj & Ht).
    exists j, t. by rewrite Clean_existingEventMap_eq. }
  assert (removedFrom (Clean.shouldRemove (hockeyEventMap S)) 0 T' = [])
    as Hgone.
  { apply removedFrom_none. intros t Ht. rewrite HT' in Ht.
    by apply (survivors_kept S T Hok r t Hinv). }
  unfold again. rewrite Clean_processEvents_unfold, Hpass. simpl.
  rewrite Hgone. simpl. rewrite app_nil_r. split; [done|]. split.
  - apply Forall_fmap, Forall_forall. done.
  - unfold calendarAfter. simpl. by rewrite aliveFrom_nil, app_nil_r.
Qed.

Lemma reconcile_idempotent_witness :
  let T' := calendarAfter (Clean.processEvents [practice; game] []) in
  let again := Clean.processEvents [practice; game] T' in
  results again = mkResults 0 0 0 2 0
  /\ Forall (fun d => isMutation d = false) (log again)
  /\ calendarAfter again = T'.
Proof.
  apply (reconcile_idempotent [practice; game] []).
  - intros e He. repeat (apply elem_of_cons in He as [->|He]; [reflexivity|]).
    by apply elem_of_nil in He.
  - intros e e' He He' Hu.
    repeat (apply elem_of_cons in He as [->|He]);
      repeat (apply elem_of_cons in He' as [->|He']);
      try reflexivity; try discriminate Hu;
      exfalso; eapply elem_of_nil; eassumption.
Defined.

(** ** The add-or-update pass, for both versions *)

Lemma Clean_processOne_stepWith (emap : gmap string nat) (r : Run)
    (e : HockeyEvent) :
  Clean.processOne emap r e
  = stepWith Clean.needsUpdate (emap !! uid e, false) r e.
Proof. unfold Clean.processOne, stepWith. by destruct (emap !! uid e). Qed.

Lemma StableUID_processOne_stepWith (m : StableUID.Lookup) (r : Run)
    (e : HockeyEvent) :
  StableUID.processOne m r e
  = stepWith StableUID.needsUpdate (StableUID.findExisting m e) r e.
Proof. reflexivity. Qed.

Section Pass.
Variable needs : CalendarEvent -> HockeyEvent -> bool.
Variable find : HockeyEvent -> option nat * bool.
Variable n : nat.
Hypothesis find_valid : forall e i b, find e = (Some i, b) -> (i < n)%nat.

(** One turn: one verdict about the event, one counter up by one, at most
    one existing event rewritten, nothing deleted. *)
Lemma step_spec (r : Run) (e : HockeyEvent) :
  length (existing r) = n ->
  let r' := stepWith needs (find e) r e in
  length (existing r') = n
  /\ deleted r' = deleted r
  /\ removed (results r') = removed (results r)
  /\ classified (results r') = S (classified (results r))
  /\ (exists d, log r' = log r ++ [d] /\ sourceOf d = Some e
                /\ (forall i, find e = (Some i, true) -> d = Migrated i e)
                /\ (d = Added e -> (find e).1 = None))
  /\ (forall j, existing r' !! j = existing r !! j
                \/ (find e).1 = Some j
                   /\ existing r' !! j = Some (createEvent e))
  /\ (forall i, find e = (Some i, true) ->
                existing r' !! i = Some (createEvent e)).
Proof.
  intros Hlen. unfold stepWith.
  destruct (find e) as [[i|] b] eqn:Hfind.
  - pose proof (find_valid _ _ _ Hfind) as Hi. rewrite <- Hlen in Hi.
    destruct (lookup_lt_is_Some_2 _ _ Hi) as [t Ht]. rewrite Ht.
    assert (forall j, <[i:=updateEvent t e]> (existing r) !! j = existing r !! j
              \/ Some i = Some j /\
                 <[i:=updateEvent t e]> (existing r) !! j = Some (createEvent e))
      as Hwritten.
    { intros j. destruct (decide (j = i)) as [->|Hne].
      - right. split; [done|]. rewrite updateEvent_createEvent.
        by apply list_lookup_insert_eq.
      - left. by apply list_lookup_insert_ne. }
    destruct b; [|destruct (needs t e) eqn:Hneeds]; simpl.
    + rewrite length_insert. split_and!; try done.
      * unfold classified. simpl. lia.
      * eexists. split_and!; [done|done| |done]. by intros i' [= <-].
      * intros i' [= <-]. rewrite updateEvent_createEvent.
        by apply list_lookup_insert_eq.
    + rewrite length_insert. split_and!; try done.
      * unfold classified. simpl. lia.
      * eexists. split_and!; [done|done| |done]. by intros i' [= _].
    + split_and!; try done.
      * unfold classified. simpl. lia.
      * exists (Unchanged i e). split_and!; try done.
      * by left.
  - simpl. split_and!; try done.
    + by exists (Added e).
    + by left.
Qed.

Lemma pass_snoc (r : Run) (es : list HockeyEvent) (e : HockeyEvent) :
  pass needs find r (es ++ [e]) = stepWith needs (find e) (pass needs find r es) e.
Proof. unfold pass. by rewrite foldl_app. Qed.

Lemma pass_spec (r : Run) (es : list HockeyEvent) :
  length (existing r) = n ->
  let r' := pass needs find r es in
  length (existing r') = n
  /\ deleted r' = deleted r
  /\ removed (results r') = removed (results r)
  /\ classified (results r') = (classified (results r) + length es)%nat
  /\ (exists ds, log r' = log r ++ ds /\ sourceOf <$> ds = Some <$> es
                 /\ Forall (fun d => forall i, d <> Removed i) ds)
  /\ (forall j, existing r' !! j = existing r !! j
                \/ exists e, e ∈ es /\ existing r' !! j = Some (createEvent e)).
Proof.
  intros Hlen. induction es as [|e es IH] using rev_ind.
  - simpl. split_and!; try done; try (by left); try (unfold classified; lia).
    exists []. by rewrite app_nil_r.
  - rewrite pass_snoc. destruct IH as (IH1 & IH2 & IH3 & IH4 & IH5 & IH6).
    destruct (step_spec (pass needs find r es) e IH1)
      as (H1 & H2 & H3 & H4 & H5 & H6 & _).
    simpl. split_and!; try congruence.
    + rewrite H4, IH4, length_app. simpl. lia.
    + destruct IH5 as (ds & Hds & Hsrc & Hnot).
      destruct H5 as (d & Hd & Hd1 & _ & _).
      exists (ds ++ [d]). rewrite Hd, Hds, <- app_assoc. split; [done|].
      rewrite !fmap_app, Hsrc. simpl. rewrite Hd1. split; [done|].
      apply Forall_app. split; [done|]. apply Forall_singleton.
      intros i ->. done.
    + intros j. destruct (H6 j) as [Hj|[_ Hj]].
      * rewrite Hj. destruct (IH6 j) as [?|(e' & He' & ?)]; [by left|].
        right. exists e'. split; [|done]. apply elem_of_snoc. by left.
      * right. exists e. split; [|done]. apply elem_of_snoc. by right.
Qed.

(** An existing event no source event is matched to keeps reading the
    same. *)
Lemma pass_untouched (r : Run) (es : list HockeyEvent) (j : nat) :
  length (existing r) = n ->
  (forall e, e ∈ es -> (find e).1 <> Some j) ->
  existing (pass needs find r es) !! j = existing r !! j.
Proof.
  intros Hlen. induction es as [|e es IH] using rev_ind; intros Hj; [done|].
  rewrite pass_snoc.
  destruct (pass_spec r es Hlen) as (Hlen' & _).
  destruct (step_spec (pass needs find r es) e Hlen') as (_ & _ & _ & _ & _ & H & _).
  destruct (H j) as [->|[Hfound _]].
  - apply IH. intros e' He'. apply Hj, elem_of_snoc. by left.
  - exfalso. apply (Hj e); [|done]. apply elem_of_snoc. by right.
Qed.

(** Once an existing event holds what some source event wrote, it keeps
    holding what some source event wrote. *)
Lemma pass_written (r : Run) (es : list HockeyEvent) (j : nat)
    (e0 : HockeyEvent) :
  length (existing r) = n ->
  existing r !! j = Some (createEvent e0) ->
  exists e, (e = e0 \/ e ∈ es) /\ existing (pass needs find r es) !! j = Some (createEvent e).
Proof.
  intros Hlen Hj. destruct (pass_spec r es Hlen) as (_ & _ & _ & _ & _ & H).
  destruct (H j) as [Hsame|(e & He & Hw)].
  - exists e0. split; [by left|]. simpl in Hsame. congruence.
  - exists e. split; [by right|done].
Qed.
End Pass.

(** ** Identity derivation *)

(** C4: two calls of [createStableUID] on events with the same title, start
    time and location return the same string, whatever the other fields
    (original UID, end time, description) hold. *)
Theorem createStableUID_deterministic (ev1 ev2 : RawEvent) :
  raw_title ev1 = raw_title ev2 ->
  raw_startTime ev1 = raw_startTime ev2 ->
  raw_location ev1 = raw_location ev2 ->
  createStableUID ev1 = createStableUID ev2.
Proof.
  intros Htitle Hstart Hlocation. unfold createStableUID, stableString.
  by rewrite Htitle, Hstart, Hlocation.
Qed.

Lemma createStableUID_deterministic_witness :
  createStableUID
    (mkRaw (Some "a1") (Some "Practice") (Some 1700000000000) None
           (Some "Rink A") (Some "Bring both jerseys"))
  = createStableUID
      (mkRaw (Some "zz-9") (Some "Practice") (Some 1700000000000)
             (Some 1700003600000) (Some "Rink A") None).
Proof.
  apply createStableUID_deterministic; reflexivity.
Defined.

(** ** Change detection *)

(** C7, as stated, fails: a start-time difference equal to the threshold,
    all else agreeing, is not a change. *)
Lemma tolerance_threshold_itself_unchanged :
  Clean.startTimeDiff practiceLate practice = Clean.TOLERANCE
  /\ Clean.titleChanged practiceLate practice = false
  /\ Clean.endChanged practiceLate practice = false
  /\ Clean.locationChanged practiceLate practice = false
  /\ Clean.descriptionChanged practiceLate practice = false
  /\ Clean.needsUpdate practiceLate practice = false.
Proof. vm_compute. done. Qed.

(** C7 (amended): for a pair that agrees on title, location and description,
    [needsUpdate] returns true exactly when the start-time or the end-time
    difference is strictly greater than the threshold (300000 ms in the clean
    version, 60000 ms in the stable-UID version); a difference of the
    threshold minus one, or of the threshold itself, is unchanged. *)
Theorem tolerance_boundary_strict (t : CalendarEvent) (e : HockeyEvent) :
  (Clean.titleChanged t e = false ->
   Clean.locationChanged t e = false ->
   Clean.descriptionChanged t e = false ->
   (Clean.needsUpdate t e = true <->
    300000 < Z.abs (getStartTime t - startTime e)
    \/ 300000 < Z.abs (getEndTime t - expectedEndTime e)))
  /\ (StableUID.titleChanged t e = false ->
      StableUID.locationChanged t e = false ->
      StableUID.descriptionChanged t e = false ->
      (StableUID.needsUpdate t e = true <->
       60000 < Z.abs (getStartTime t - startTime e)
       \/ 60000 < Z.abs (getEndTime t - expectedEndTime e))).
Proof.
  split; intros Htitle Hlocation Hdescription.
  - unfold Clean.needsUpdate. rewrite Htitle, Hlocation, Hdescription.
    rewrite !orb_false_r, orb_false_l, orb_true_iff.
    unfold Clean.startChanged, Clean.endChanged, Clean.startTimeDiff,
      Clean.endTimeDiff, Clean.TOLERANCE.
    by rewrite !Z.ltb_lt.
  - unfold StableUID.needsUpdate. rewrite Htitle, Hlocation, Hdescription.
    rewrite !orb_false_r, orb_false_l, orb_true_iff.
    unfold StableUID.startChanged, StableUID.endChanged,
      StableUID.startTimeDiff, StableUID.endTimeDiff, StableUID.TOLERANCE.
    by rewrite !Z.ltb_lt.
Qed.

Lemma tolerance_boundary_strict_witness :
  (Clean.needsUpdate drillLate drill = true <->
   300000 < Z.abs (getStartTime drillLate - startTime drill)
   \/ 300000 < Z.abs (getEndTime drillLate - expectedEndTime drill))
  /\ (StableUID.needsUpdate drillLate drill = true <->
      60000 < Z.abs (getStartTime drillLate - startTime drill)
      \/ 60000 < Z.abs (getEndTime drillLate - expectedEndTime drill)).
Proof.
  destruct (tolerance_boundary_strict drillLate drill) as [Hclean Hstable].
  split; [apply Hclean|apply Hstable]; vm_compute; reflexivity.
Defined.

(** C8, as stated, fails on the stable-UID version: its [needsUpdate] trims
    the locations and compares them as they are, so a location that differs
    in letter case alone is a change. *)
Lemma stable_version_location_case_sensitive :
  sameLocation (getLocation drillLowerCase) (orEmpty (location drill))
  /\ StableUID.titleChanged drillLowerCase drill = false
  /\ StableUID.startChanged drillLowerCase drill = false
  /\ StableUID.endChanged drillLowerCase drill = false
  /\ StableUID.descriptionChanged drillLowerCase drill = false
  /\ StableUID.needsUpdate drillLowerCase drill = true.
Proof. vm_compute. done. Qed.

(** C8 (amended): in the clean version, for a pair whose locations are equal
    after trimming and ignoring letter case and which agrees on title, start,
    end and description, [needsUpdate] returns false.  (The stable-UID
    version trims but compares case-sensitively.) *)
Theorem clean_location_case_insensitive (t : CalendarEvent) (e : HockeyEvent) :
  sameLocation (getLocation t) (orEmpty (location e)) ->
  Clean.titleChanged t e = false ->
  Clean.startChanged t e = false ->
  Clean.endChanged t e = false ->
  Clean.descriptionChanged t e = false ->
  Clean.needsUpdate t e = false.
Proof.
  intros Hlocation Htitle Hstart Hend Hdescription.
  unfold Clean.needsUpdate. rewrite Htitle, Hstart, Hend, Hdescription.
  rewrite orb_false_r. simpl.
  unfold Clean.locationChanged, Clean.existingLocation, Clean.newLocation.
  rewrite !trim_toLowerCase. unfold sameLocation in Hlocation.
  rewrite Hlocation. apply eqb_refl_neg.
Qed.

Lemma clean_location_case_insensitive_witness :
  Clean.needsUpdate drillLowerCase drill = false.
Proof.
  apply clean_location_case_insensitive; vm_compute; reflexivity.
Defined.

(** ** The marker round trip *)

(** C9: for a source event as [parseEventBlock] returns it, whose description
    does not contain "Hockey-UID:", [extractUIDFromDescription] applied to the
    description [createEvent] builds returns the event's uid. *)
Theorem marker_round_trip (ev : RawEvent) (e : HockeyEvent) :
  parseEventBlock_finish ev = Some e ->
  includes (orEmpty (description e)) "Hockey-UID:" = false ->
  Clean.extractUIDFromDescription (getDescription (createEvent e))
  = Some (uid e).
Proof.
  intros Hparsed Hfree. simpl getDescription. apply extract_newDescription.
  unfold sourceOK, markerFree. fold MARKER in Hfree. rewrite Hfree.
  rewrite andb_true_r.
  unfold parseEventBlock_finish in Hparsed.
  destruct (raw_title ev) as [t|]; [|done].
  destruct (raw_startTime ev) as [s|]; [|done].
  destruct (truthy t); [|done]. injection Hparsed as <-. simpl.
  apply createStableUID_token.
Qed.

Lemma marker_round_trip_witness :
  Clean.extractUIDFromDescription (getDescription (createEvent drill))
  = Some (uid drill).
Proof.
  apply (marker_round_trip
           (mkRaw (Some "a1") (Some "Practice") (Some 1700000000000) None
                  (Some "Rink A") (Some "Bring both jerseys")));
    vm_compute; reflexivity.
Defined.

(** Why the amended idempotence asks for marker-free descriptions: when the
    description of a source event holds the marker text, the identity read
    back from the stored description is not the event's, and the second run
    adds the event again and removes the one the first run created. *)
Example marker_text_in_description :
  Clean.extractUIDFromDescription (newDescription tagged) = Some "see"
  /\ log (Clean.processEvents [tagged]
            (calendarAfter (Clean.processEvents [tagged] [])))
     = [Added tagged; Removed O].
Proof. vm_compute. done. Qed.

(** ** The two versions as instances of the pass *)

Lemma foldl_ext_fun {A B : Type} (f g : B -> A -> B) (b : B) (l : list A) :
  (forall b a, f b a = g b a) -> foldl f b l = foldl g b l.
Proof.
  intros Hfg. revert b. induction l as [|a l IH]; intros b; simpl; [done|].
  by rewrite Hfg, IH.
Qed.

Lemma Clean_pass_eq (ts : list CalendarEvent) (r : Run) (es : list HockeyEvent) :
  foldl (Clean.processOne (Clean.existingEventMap ts)) r es
  = pass Clean.needsUpdate (cleanFind ts) r es.
Proof. apply foldl_ext_fun. intros. apply Clean_processOne_stepWith. Qed.

Lemma indexBy_valid (key : CalendarEvent -> option string)
    (ts : list CalendarEvent) (k : string) (i : nat) :
  forEachIdx (indexBy key) 0 ts ∅ !! k = Some i ->
  exists t, ts !! i = Some t /\ key t = Some k.
Proof.
  rewrite forEachIdx_indexBy.
  destruct (lastIndex k (key <$> ts)) as [j|] eqn:Hj;
    [|by rewrite lookup_empty].
  intros [= <-]. apply lastIndex_lookup in Hj.
  rewrite list_lookup_fmap in Hj. destruct (ts !! j) as [t|]; [|done].
  injection Hj as Hj. by exists t.
Qed.

Lemma cleanFind_valid (ts : list CalendarEvent) (e : HockeyEvent) (i : nat)
    (b : bool) :
  cleanFind ts e = (Some i, b) -> (i < length ts)%nat.
Proof.
  unfold cleanFind. intros [= Hi _]. rewrite Clean_existingEventMap_eq in Hi.
  apply indexBy_valid in Hi as (t & Ht & _). by apply lookup_lt_Some in Ht.
Qed.

Lemma StableUID_forEachIdx_split (ts : list CalendarEvent) (i : nat)
    (m : StableUID.Lookup) :
  forEachIdx StableUID.indexExisting i ts m
  = StableUID.mkLookup
      (forEachIdx (indexBy stableStoredUID) i ts (StableUID.existingEventMap m))
      (forEachIdx (indexBy contentKeyOf) i ts (StableUID.existingByContent m)).
Proof.
  revert i m. induction ts as [|t ts IH]; intros i m; simpl.
  - by destruct m.
  - rewrite IH. f_equal. simpl. f_equal.
    unfold indexBy, stableStoredUID, keyOf.
    destruct (StableUID.extractUIDFromDescription _) as [u|]; [|done].
    by destruct (truthy u).
Qed.

Lemma StableUID_buildLookup_eq (ts : list CalendarEvent) :
  StableUID.buildLookup ts
  = StableUID.mkLookup (forEachIdx (indexBy stableStoredUID) 0 ts ∅)
                       (forEachIdx (indexBy contentKeyOf) 0 ts ∅).
Proof. apply StableUID_forEachIdx_split. Qed.

Lemma stableFind_valid (ts : list CalendarEvent) (e : HockeyEvent) (i : nat)
    (b : bool) :
  stableFind ts e = (Some i, b) -> (i < length ts)%nat.
Proof.
  unfold stableFind, StableUID.findExisting.
  rewrite StableUID_buildLookup_eq. simpl.
  destruct (forEachIdx (indexBy stableStoredUID) 0 ts ∅ !! uid e)
    as [j|] eqn:Hj.
  - intros [= <- _]. apply indexBy_valid in Hj as (t & Ht & _).
    by apply lookup_lt_Some in Ht.
  - destruct (forEachIdx (indexBy contentKeyOf) 0 ts ∅
                !! StableUID.hockeyContentKey e) as [j|] eqn:Hc; [|done].
    intros [= <- _]. apply indexBy_valid in Hc as (t & Ht & _).
    by apply lookup_lt_Some in Ht.
Qed.

Lemma StableUID_processEvents_unfold (es : list HockeyEvent)
    (ts : list CalendarEvent) :
  let r := pass StableUID.needsUpdate (stableFind ts) (startRun ts) es in
  let gone :=
    removedFrom (StableUID.shouldRemove (hockeyEventMap es)) 0 (existing r) in
  StableUID.processEventsWithStableUIDs es ts
  = mkRun (existing r) (deleted r ++ gone) (created r)
          (mkResults (added (results r)) (updated (results r))
                     (removed (results r) + length gone)
                     (unchanged (results r)) (migrated (results r)))
          (log r ++ (Removed <$> gone)).
Proof.
  intros r gone. unfold StableUID.processEventsWithStableUIDs.
  apply removal_pass.
Qed.

Lemma Clean_processEvents_pass (es : list HockeyEvent)
    (ts : list CalendarEvent) :
  let r := pass Clean.needsUpdate (cleanFind ts) (startRun ts) es in
  let gone :=
    removedFrom (Clean.shouldRemove (hockeyEventMap es)) 0 (existing r) in
  Clean.processEvents es ts
  = mkRun (existing r) (deleted r ++ gone) (created r)
          (mkResults (added (results r)) (updated (results r))
                     (removed (results r) + length gone)
                     (unchanged (results r)) (migrated (results r)))
          (log r ++ (Removed <$> gone)).
Proof.
  intros r gone. rewrite Clean_processEvents_unfold. unfold r, gone.
  by rewrite Clean_pass_eq.
Qed.

(** ** Targets without an identity *)

(** C10: in [processEvents], an existing event from whose description no
    identity can be extracted is never deleted and never counted as removed,
    whatever the source events are: it still reads the same when the run
    ends, [deleteEvent] was not called on it, no removal verdict names it,
    and the counter counts exactly the deleted events. *)
Theorem unmarked_targets_survive (S : list HockeyEvent)
    (T : list CalendarEvent) (i : nat) (t : CalendarEvent) :
  T !! i = Some t ->
  Clean.extractUIDFromDescription (getDescription t) = None ->
  let r := Clean.processEvents S T in
  existing r !! i = Some t
  /\ (i ∉ deleted r)
  /\ (Removed i ∉ log r)
  /\ removed (results r) = length (deleted r).
Proof.
  intros Hi Hnone r. unfold r. rewrite Clean_processEvents_pass. simpl.
  set (r1 := pass Clean.needsUpdate (cleanFind T) (startRun T) S).
  destruct (pass_spec Clean.needsUpdate (cleanFind T) (length T)
              (cleanFind_valid T) (startRun T) S eq_refl)
    as (_ & Hdeleted & Hremoved & _ & (ds & Hlog & _ & Hds) & _).
  fold r1 in Hdeleted, Hremoved, Hlog. simpl in Hdeleted, Hremoved, Hlog.
  assert (existing r1 !! i = Some t) as Hsame.
  { unfold r1. rewrite (pass_untouched _ _ (length T) (cleanFind_valid T));
      [done|done|].
    intros e _ Hfound. unfold cleanFind in Hfound. simpl in Hfound.
    apply Clean_existingEventMap_lookup, keys_lookup in Hfound
      as (t' & Ht' & Hkey).
    rewrite Hi in Ht'. injection Ht' as <-.
    unfold storedUID, keyOf in Hkey. by rewrite Hnone in Hkey. }
  assert (i ∉ removedFrom (Clean.shouldRemove (hockeyEventMap S)) 0
                          (existing r1)) as Hkept.
  { intros [_ (t' & Ht' & Htest)]%removedFrom_lookup.
    rewrite Nat.sub_0_r, Hsame in Ht'. injection Ht' as <-.
    unfold Clean.shouldRemove in Htest. by rewrite Hnone in Htest. }
  rewrite Hdeleted, Hremoved, Hlog. simpl. split_and!; try done.
  intros [Hin|Hin]%elem_of_app.
  - rewrite Forall_forall in Hds. by apply (Hds _ Hin i).
  - apply list_elem_of_fmap in Hin as (j & [= <-] & Hj). by apply Hkept.
Qed.

Lemma unmarked_targets_survive_witness :
  let r := Clean.processEvents [] [blankMarker] in
  existing r !! O = Some blankMarker
  /\ (O ∉ deleted r)
  /\ (Removed O ∉ log r)
  /\ removed (results r) = length (deleted r).
Proof.
  apply (unmarked_targets_survive [] [blankMarker] O blankMarker);
    reflexivity.
Defined.

(** ** A failed fetch *)

(** When the fetch throws, [fetchHockeyEvents] returns the empty list and
    the run goes on: nothing is added, and every existing event with a stored
    identity is deleted. *)
Lemma failed_fetch_deletes_marked (parseICSData : string -> list HockeyEvent)
    (events : list CalendarEvent) (error : string) :
  exists r,
    Clean.syncHockeyCalendar parseICSData (Some events) (Thrown error)
    = Returned r
    /\ forall i t, getExistingHockeyEvents events !! i = Some t ->
                   is_Some (storedUID t) -> i ∈ deleted r.
Proof.
  eexists. split; [reflexivity|]. intros i t Hi [u Hu]. simpl.
  rewrite Clean_processEvents_pass. simpl.
  apply removedFrom_lookup. split; [lia|].
  exists t. rewrite Nat.sub_0_r. split; [done|].
  apply Clean_shouldRemove_true. exists u. split; [done|].
  apply not_elem_of_nil.
Qed.

(** C1 (the code at the failing input): the feed answers with an error, the
    calendar holds one synced event; the run returns normally, deletes that
    event and reports one removal. *)
Theorem failed_fetch_deletes_synced_event
    (parseICSData : string -> list HockeyEvent) :
  exists r,
    Clean.syncHockeyCalendar parseICSData (Some [dentist; syncedPractice])
      (Thrown "Request failed for https://ics.benchapp.com returned code 504")
    = Returned r
    /\ existing r = [syncedPractice]
    /\ deleted r = [O]
    /\ results r = mkResults 0 0 1 0 0
    /\ log r = [Removed O].
Proof. eexists. split; [reflexivity|]. vm_compute. done. Qed.

(** ** Accounting *)



Lemma NoDup_removedFrom (test : CalendarEvent -> bool) (i : nat)
    (ts : list CalendarEvent) :
  NoDup (removedFrom test i ts).
Proof.
  revert i. induction ts as [|t ts IH]; intros i; simpl; [constructor|].
  destruct (test t); [|apply IH]. apply NoDup_cons. split; [|apply IH].
  intros H%removedFrom_ge. lia.
Qed.

Section Accounting.
Variable needs : CalendarEvent -> HockeyEvent -> bool.
Variable test : CalendarEvent -> bool.
Variables (es : list HockeyEvent) (ts : list CalendarEvent).
Variable find : HockeyEvent -> option nat * bool.
Hypothesis find_valid : forall e i b, find e = (Some i, b) -> (i < length ts)%nat.


Lemma pass_no_migration (r : Run) :
  (forall e, (find e).2 = false) ->
  migrated (results (pass needs find r es)) = migrated (results r).
Proof.
  intros Hfind. induction es as [|e es' IH] using rev_ind; [done|].
  rewrite pass_snoc. unfold stepWith. specialize (Hfind e).
  destruct (find e) as [[i|] b]; simpl in Hfind; subst b.
  - destruct (existing (pass needs find r es') !! i) as [t|]; [|done].
    simpl. by destruct (needs t e).
  - done.
Qed.
End Accounting.

(** ** The stable-UID version: who is protected from deletion *)

Lemma removeFirst_prefix (p t : string) : removeFirst (p +:+ t) p = t.
Proof.
  assert (removeFirst (p +:+ t) p
          = if startsWith (p +:+ t) p
            then dropChars (String.length p) (p +:+ t)
            else match p +:+ t with
                 | EmptyString => EmptyString
                 | String c s' => String c (removeFirst s' p)
                 end) as -> by (by destruct (p +:+ t)).
  by rewrite startsWith_app, dropChars_app.
Qed.

Lemma contentKey_createEvent (e : HockeyEvent) :
  StableUID.existingContentKey (createEvent e) = StableUID.hockeyContentKey e.
Proof.
  unfold StableUID.existingContentKey, StableUID.hockeyContentKey, createEvent.
  cbn [getTitle getStartTime getLocation orEmpty].
  by rewrite removeFirst_prefix.
Qed.

Lemma existsByUID_true (es : list HockeyEvent) (t : CalendarEvent) :
  StableUID.existsByUID (hockeyEventMap es) t = true <->
  exists e, e ∈ es /\ stableStoredUID t = Some (uid e).
Proof.
  unfold StableUID.existsByUID, stableStoredUID, keyOf.
  destruct (StableUID.extractUIDFromDescription _) as [u|];
    [|split; [done|by intros (? & ? & ?)]].
  destruct (truthy u); simpl; [|split; [done|by intros (? & ? & ?)]].
  rewrite bool_decide_eq_true, hockeyEventMap_has, list_elem_of_fmap.
  split.
  - intros (e & -> & He). by exists e.
  - intros (e & He & [= ->]). by exists e.
Qed.

Lemma existsByContent_true (es : list HockeyEvent) (t : CalendarEvent) :
  StableUID.existsByContent (hockeyEventMap es) t = true <->
  exists u e, hockeyEventMap es !! u = Some e
              /\ StableUID.hockeyContentKey e = StableUID.existingContentKey t.
Proof.
  unfold StableUID.existsByContent. rewrite existsb_exists. split.
  - intros (e & He & Hkey). apply list_elem_of_In in He.
    apply list_elem_of_fmap in He as ([u e'] & -> & He).
    apply elem_of_map_to_list in He. exists u, e'. split; [done|].
    by apply String.eqb_eq.
  - intros (u & e & He & Hkey). exists e. split; [|by apply String.eqb_eq].
    apply list_elem_of_In, list_elem_of_fmap. exists (u, e). split; [done|].
    by apply elem_of_map_to_list.
Qed.

(** ** What is counted, and what is removed *)

Lemma Stable_shouldRemove_true (es : list HockeyEvent) (t : CalendarEvent) :
  StableUID.shouldRemove (hockeyEventMap es) t = true <->
  (forall e, e ∈ es -> stableStoredUID t <> Some (uid e))
  /\ (forall u e, hockeyEventMap es !! u = Some e ->
        StableUID.hockeyContentKey e <> StableUID.existingContentKey t).
Proof.
  unfold StableUID.shouldRemove. rewrite andb_true_iff, !negb_true_iff. split.
  - intros [Huid Hcontent]. split.
    + intros e He Hkey.
      assert (StableUID.existsByUID (hockeyEventMap es) t = true) as Hyes
        by (apply existsByUID_true; by exists e).
      congruence.
    + intros u e He Hkey.
      assert (StableUID.existsByContent (hockeyEventMap es) t = true) as Hyes
        by (apply existsByContent_true; by exists u, e).
      congruence.
  - intros [Huid Hcontent]. split; apply not_true_is_false.
    + intros (e & He & Hkey)%existsByUID_true. by apply (Huid e).
    + intros (u & e & He & Hkey)%existsByContent_true. by apply (Hcontent u e).
Qed.



(** With pairwise distinct source identities the identity index holds every
    source event, and an existing event whose content key is that of a source
    event is kept. *)
Lemma content_match_kept (es : list HockeyEvent) (t : CalendarEvent)
    (e : HockeyEvent) :
  NoDup (uid <$> es) -> e ∈ es ->
  StableUID.hockeyContentKey e = StableUID.existingContentKey t ->
  StableUID.shouldRemove (hockeyEventMap es) t = false.
Proof.
  intros Hnd He Hkey. unfold StableUID.shouldRemove.
  assert (StableUID.existsByContent (hockeyEventMap es) t = true) as ->.
  { apply existsByContent_true. exists (uid e), e. split; [|done].
    by apply hockeyEventMap_NoDup. }
  by rewrite andb_false_r.
Qed.

Lemma identity_match_kept (es : list HockeyEvent) (t : CalendarEvent)
    (e : HockeyEvent) :
  e ∈ es -> stableStoredUID t = Some (uid e) ->
  StableUID.shouldRemove (hockeyEventMap es) t = false.
Proof.
  intros He Hkey. unfold StableUID.shouldRemove.
  assert (StableUID.existsByUID (hockeyEventMap es) t = true) as ->.
  { apply existsByUID_true. by exists e. }
  done.
Qed.

(** C3, as stated, fails on [processEvents]: a match on the content key does
    not protect an existing event there. *)
Lemma content_match_does_not_protect_in_clean :
  let r := Clean.processEvents [practice] [legacyPractice] in
  StableUID.existingContentKey legacyPractice = StableUID.hockeyContentKey practice
  /\ deleted r = [O]
  /\ log r = [Added practice; Removed O].
Proof. vm_compute. done. Qed.

(** C3 (amended): in [processEventsWithStableUIDs], when no two source events
    share an identity, an existing event is deleted only if its stored
    identity is that of no source event and its content key is that of no
    source event.  In the simplified [processEvents], which has no content
    key, when every source event has a token for UID and a description
    without the marker text, an existing event is deleted only if it stores
    an identity and that identity is that of no source event. *)
Theorem deletion_only_without_match (S : list HockeyEvent)
    (T : list CalendarEvent) (i : nat) (t : CalendarEvent) :
  T !! i = Some t ->
  (NoDup (uid <$> S) ->
   i ∈ deleted (StableUID.processEventsWithStableUIDs S T) ->
   forall e, e ∈ S ->
     stableStoredUID t <> Some (uid e)
     /\ StableUID.hockeyContentKey e <> StableUID.existingContentKey t)
  /\ ((forall e, e ∈ S -> sourceOK e = true) ->
      i ∈ deleted (Clean.processEvents S T) ->
      exists u, storedUID t = Some u /\ forall e, e ∈ S -> uid e <> u).
Proof.
  intros Hi. split.
  - intros Hnd. rewrite StableUID_processEvents_unfold. simpl.
    set (r := pass StableUID.needsUpdate (stableFind T) (startRun T) S).
    destruct (pass_spec StableUID.needsUpdate (stableFind T) (length T)
                (stableFind_valid T) (startRun T) S eq_refl)
      as (_ & Hdeleted & _ & _ & _ & Hexisting).
    fold r in Hdeleted, Hexisting. simpl in Hdeleted, Hexisting.
    rewrite Hdeleted. simpl.
    intros [_ (t' & Ht' & Htest)]%removedFrom_lookup e He.
    rewrite Nat.sub_0_r in Ht'.
    destruct (Hexisting i) as [Hsame|(e' & He' & Hwritten)].
    + rewrite Hsame, Hi in Ht'. injection Ht' as <-. split.
      * intros Hkey. by rewrite (identity_match_kept S t e) in Htest.
      * intros Hkey. by rewrite (content_match_kept S t e) in Htest.
    + rewrite Hwritten in Ht'. injection Ht' as <-.
      rewrite (content_match_kept S (createEvent e') e') in Htest;
        [done|done|done|]. symmetry. apply contentKey_createEvent.
  - intros Hok. rewrite Clean_processEvents_pass. simpl.
    set (r := pass Clean.needsUpdate (cleanFind T) (startRun T) S).
    destruct (pass_spec Clean.needsUpdate (cleanFind T) (length T)
                (cleanFind_valid T) (startRun T) S eq_refl)
      as (_ & Hdeleted & _ & _ & _ & Hexisting).
    fold r in Hdeleted, Hexisting. simpl in Hdeleted, Hexisting.
    rewrite Hdeleted. simpl.
    intros [_ (t' & Ht' & Htest)]%removedFrom_lookup.
    rewrite Nat.sub_0_r in Ht'.
    apply Clean_shouldRemove_true in Htest as (u & Hu & Hnot).
    destruct (Hexisting i) as [Hsame|(e' & He' & Hwritten)].
    + rewrite Hsame, Hi in Ht'. injection Ht' as <-.
      exists u. split; [done|]. intros e He <-. apply Hnot.
      by apply list_elem_of_fmap_2.
    + rewrite Hwritten in Ht'. injection Ht' as <-.
      rewrite storedUID_createEvent in Hu by auto. injection Hu as <-.
      exfalso. apply Hnot. by apply list_elem_of_fmap_2.
Qed.

Lemma deletion_only_without_match_witness :
  (forall e, e ∈ [practice; game] ->
     stableStoredUID legacyStray <> Some (uid e)
     /\ StableUID.hockeyContentKey e <> StableUID.existingContentKey legacyStray)
  /\ (exists u, storedUID legacyStray = Some u
                /\ forall e, e ∈ [practice; game] -> uid e <> u).
Proof.
  destruct (deletion_only_without_match [practice; game]
              [syncedPractice; legacyStray] 1 legacyStray eq_refl)
    as [Hstable Hclean].
  split.
  - apply Hstable; by_decide.
  - apply Hclean; [|by_decide]. intros e He.
    repeat (apply elem_of_cons in He as [->|He]; [reflexivity|]).
    by apply elem_of_nil in He.
Defined.

(** Why the amended claim asks for pairwise distinct source identities: the
    content test of the removal loop runs over the values of the identity
    index, where a source event is shadowed by a later one with the same
    identity.  Here the two source events are as [parseEventBlock] returns
    them; the existing event at position 0 has the content key of the first
    and is deleted. *)
Example shadowed_source_content_not_consulted :
  parseEventBlock_finish
    (mkRaw None (Some "Aa") (Some 1700000000000) None (Some "Rink A") None)
  = Some teamAa
  /\ parseEventBlock_finish
       (mkRaw None (Some "BB") (Some 1700000000000) None (Some "Rink A") None)
     = Some teamBB
  /\ StableUID.existingContentKey legacyAa = StableUID.hockeyContentKey teamAa
  /\ log (StableUID.processEventsWithStableUIDs [teamAa; teamBB]
            [legacyAa; legacyAa])
     = [Migrated 1 teamAa; Added teamBB; Removed O].
Proof. vm_compute. done. Qed.

(** ** Migration *)

Lemma lastIndex_is_last {K : Type} `{EqDecision K} (k : K)
    (keys : list (option K)) (i : nat) :
  keys !! i = Some (Some k) ->
  (forall j, (i < j)%nat -> keys !! j <> Some (Some k)) ->
  lastIndex k keys = Some i.
Proof.
  revert i. induction keys as [|x keys IH]; intros i Hi Hlast; [done|].
  simpl. destruct i as [|i]; simpl in Hi.
  - injection Hi as ->.
    destruct (lastIndex k keys) as [j|] eqn:Hj.
    + apply lastIndex_lookup in Hj. exfalso. apply (Hlast (S j)); [lia|done].
    + by rewrite decide_True.
  - rewrite (IH i); [done|done|]. intros j Hj. apply (Hlast (S j)). lia.
Qed.

(** A source event whose identity no existing event stores, and the last
    existing event with its content key: the lookup finds that event, as a
    migration. *)
Lemma stableFind_migration (T : list CalendarEvent) (e : HockeyEvent)
    (i : nat) (t : CalendarEvent) :
  T !! i = Some t ->
  (forall t', t' ∈ T -> stableStoredUID t' <> Some (uid e)) ->
  StableUID.existingContentKey t = StableUID.hockeyContentKey e ->
  (forall j t', T !! j = Some t' -> (i < j)%nat ->
     StableUID.existingContentKey t' <> StableUID.hockeyContentKey e) ->
  stableFind T e = (Some i, true).
Proof.
  intros Hi Hnone Hkey Hlast. unfold stableFind, StableUID.findExisting.
  rewrite StableUID_buildLookup_eq. simpl. rewrite !forEachIdx_indexBy.
  assert (lastIndex (uid e) (stableStoredUID <$> T) = None) as ->.
  { apply lastIndex_None. intros (t' & Ht' & Hin)%list_elem_of_fmap.
    by apply (Hnone t'). }
  rewrite lookup_empty.
  rewrite (lastIndex_is_last _ _ i); [done| |].
  - rewrite list_lookup_fmap, Hi. simpl. unfold contentKeyOf. by rewrite Hkey.
  - intros j Hj. rewrite list_lookup_fmap.
    destruct (T !! j) as [t'|] eqn:Ht'; [|done]. simpl.
    unfold contentKeyOf. intros [= Heq]. by apply (Hlast j t').
Qed.

Lemma pass_app {needs : CalendarEvent -> HockeyEvent -> bool}
    {find : HockeyEvent -> option nat * bool} (r : Run)
    (es1 es2 : list HockeyEvent) :
  pass needs find r (es1 ++ es2) = pass needs find (pass needs find r es1) es2.
Proof. unfold pass. by rewrite foldl_app. Qed.

(** C5, as stated, fails: the existing event at position 0 stores an identity
    that no source event has and has the content key of the source event, yet
    the source event is matched by identity to the event at position 1; the
    pair is not classified as a migration and no update is requested. *)
Lemma content_twin_not_migrated :
  let r := StableUID.processEventsWithStableUIDs [drill]
             [legacyDrill; createEvent drill] in
  stableStoredUID legacyDrill <> Some (uid drill)
  /\ StableUID.existingContentKey legacyDrill = StableUID.hockeyContentKey drill
  /\ log r = [Unchanged 1 drill]
  /\ results r = mkResults 0 0 0 1 0.
Proof. vm_compute. split; [discriminate|done]. Qed.

(** C5 (amended): in [processEventsWithStableUIDs], when no two source events
    share an identity, a source event whose identity no existing event stores
    and the last existing event that has its content key are classified as a
    migration: the verdict for the source event is [Migrated] with that
    existing event, which is an update request on it; no create is requested
    for the source event; and the existing event is not deleted. *)
Theorem migration_rescue (S : list HockeyEvent) (T : list CalendarEvent)
    (k i : nat) (e : HockeyEvent) (t : CalendarEvent) :
  NoDup (uid <$> S) ->
  S !! k = Some e ->
  T !! i = Some t ->
  (forall t', t' ∈ T -> stableStoredUID t' <> Some (uid e)) ->
  StableUID.existingContentKey t = StableUID.hockeyContentKey e ->
  (forall j t', T !! j = Some t' -> (i < j)%nat ->
     StableUID.existingContentKey t' <> StableUID.hockeyContentKey e) ->
  let r := StableUID.processEventsWithStableUIDs S T in
  log r !! k = Some (Migrated i e)
  /\ (Added e ∉ log r)
  /\ (i ∉ deleted r).
Proof.
  intros Hnd Hk Hi Hnone Hkey Hlast r.
  pose proof (stableFind_migration T e i t Hi Hnone Hkey Hlast) as Hfind.
  unfold r. rewrite StableUID_processEvents_unfold. simpl.
  pose proof (take_drop_middle S k e Hk) as Hsplit.
  set (S1 := take k S) in *. set (S2 := drop (Datatypes.S k) S) in *.
  set (find := stableFind T). set (needs := StableUID.needsUpdate).
  pose proof (stableFind_valid T) as Hvalid. fold find in Hvalid, Hfind.
  set (ra := pass needs find (startRun T) S1).
  set (rb := stepWith needs (find e) ra e).
  assert (pass needs find (startRun T) S = pass needs find rb S2) as Hpass.
  { rewrite <- Hsplit. rewrite pass_app. fold ra. done. }
  destruct (pass_spec needs find (length T) Hvalid (startRun T) S1 eq_refl)
    as (Hlen_a & Hdel_a & _ & _ & (ds1 & Hlog_a & Hsrc1 & _) & _).
  fold ra in Hlen_a, Hdel_a, Hlog_a. simpl in Hdel_a, Hlog_a.
  destruct (step_spec needs find (length T) Hvalid ra e Hlen_a)
    as (Hlen_b & Hdel_b & _ & _ & (d & Hlog_b & _ & Hd & _) & _ & Hwritten).
  fold rb in Hlen_b, Hdel_b, Hlog_b, Hwritten.
  rewrite (Hd i Hfind) in Hlog_b. specialize (Hwritten i Hfind).
  destruct (pass_spec needs find (length T) Hvalid rb S2 Hlen_b)
    as (_ & Hdel & _ & _ & (ds2 & Hlog & _ & _) & _).
  destruct (pass_spec needs find (length T) Hvalid (startRun T) S eq_refl)
    as (_ & _ & _ & _ & (ds & Hlog_all & Hsrc & _) & _).
  rewrite Hpass in Hlog_all |- *. simpl in Hlog_all.
  assert (length ds1 = k) as Hk1.
  { apply (f_equal length) in Hsrc1. rewrite !length_fmap in Hsrc1.
    rewrite Hsrc1. unfold S1. rewrite length_take.
    apply lookup_lt_Some in Hk. lia. }
  assert (ds !! k = Some (Migrated i e)) as Hdk.
  { rewrite <- Hlog_all, Hlog, Hlog_b, Hlog_a. simpl.
    rewrite <- app_assoc. rewrite lookup_app_r by lia.
    by rewrite Hk1, Nat.sub_diag. }
  split_and!.
  - rewrite Hlog_all. rewrite lookup_app_l; [done|].
    by apply lookup_lt_Some in Hdk.
  - rewrite Hlog_all. intros [Hin|Hin]%elem_of_app.
    + apply list_elem_of_lookup in Hin as [k' Hk'].
      assert (S !! k' = Some e) as HSk'.
      { apply (f_equal (fun l => l !! k')) in Hsrc.
        rewrite !list_lookup_fmap, Hk' in Hsrc. simpl in Hsrc.
        destruct (S !! k'); [|done]. by injection Hsrc as ->. }
      assert (k' = k) as ->.
      { apply (NoDup_lookup (uid <$> S) k' k (uid e)); [done| |].
        - by rewrite list_lookup_fmap, HSk'.
        - by rewrite list_lookup_fmap, Hk. }
      congruence.
    + by apply list_elem_of_fmap in Hin as (j & [=] & _).
  - rewrite Hdel, Hdel_b, Hdel_a. simpl.
    intros [_ (t' & Ht' & Htest)]%removedFrom_lookup.
    rewrite Nat.sub_0_r in Ht'.
    destruct (pass_written needs find (length T) Hvalid rb S2 i e Hlen_b Hwritten)
      as (e' & He' & Hfinal).
    rewrite Hfinal in Ht'. injection Ht' as <-.
    rewrite (content_match_kept S (createEvent e') e') in Htest;
      [done|done| |symmetry; apply contentKey_createEvent].
    rewrite <- Hsplit. destruct He' as [->|He'].
    + apply elem_of_app. right. left.
    + apply elem_of_app. right. by right.
Qed.

(** An existing event left by the old scheme and the source event of the
    same title, start and location. *)
Lemma migration_rescue_witness :
  let r := StableUID.processEventsWithStableUIDs [game; drill]
             [legacyStray; legacyDrill] in
  log r !! 1%nat = Some (Migrated 1 drill)
  /\ (Added drill ∉ log r)
  /\ (1%nat ∉ deleted r).
Proof.
  apply (migration_rescue [game; drill] [legacyStray; legacyDrill] 1 1 drill
           legacyDrill).
  - by_decide.
  - reflexivity.
  - reflexivity.
  - intros t' Ht'.
    repeat (apply elem_of_cons in Ht' as [->|Ht']; [vm_compute; discriminate|]).
    by apply elem_of_nil in Ht'.
  - reflexivity.
  - intros [|[|[|j]]] t' Ht' Hj; try lia; discriminate Ht'.
Defined.

(** * More properties of the scripts *)

(** ** The hash of [createStableUID] *)

Lemma toInt32_range (z : Z) : - 2 ^ 31 <= toInt32 z < 2 ^ 31.
Proof.
  unfold toInt32.
  pose proof (Z.mod_pos_bound (z + 2 ^ 31) (2 ^ 32) ltac:(lia)). lia.
Qed.

Lemma toInt32_small (z : Z) : - 2 ^ 31 <= z < 2 ^ 31 -> toInt32 z = z.
Proof. intros Hz. unfold toInt32. rewrite Z.mod_small; lia. Qed.

Lemma toInt32_add_l (a b : Z) : toInt32 (toInt32 a + b) = toInt32 (a + b).
Proof.
  unfold toInt32. f_equal.
  replace ((a + 2 ^ 31) mod 2 ^ 32 - 2 ^ 31 + b + 2 ^ 31)
    with ((a + 2 ^ 31) mod 2 ^ 32 + b) by lia.
  rewrite Zplus_mod_idemp_l. f_equal. lia.
Qed.

Lemma hashStep_spec (hash : Z) (c : ascii) :
  - 2 ^ 31 <= hash < 2 ^ 31 ->
  hashStep hash c = toInt32 (hash * 31 + Z.of_N (N_of_ascii c)).
Proof.
  intros Hrange. unfold hashStep. rewrite Z.land_diag.
  rewrite (toInt32_small hash) by done. rewrite Z.shiftl_mul_pow2 by lia.
  replace (toInt32 (hash * 2 ^ 5) - hash + Z.of_N (N_of_ascii c))
    with (toInt32 (hash * 2 ^ 5) + (- hash + Z.of_N (N_of_ascii c))) by lia.
  rewrite toInt32_add_l. f_equal. lia.
Qed.

Lemma hashLoop_spec (hash : Z) (s : string) :
  - 2 ^ 31 <= hash < 2 ^ 31 ->
  hashLoop hash s = hashSpec hash s /\ - 2 ^ 31 <= hashLoop hash s < 2 ^ 31.
Proof.
  revert hash. induction s as [|c s IH]; intros hash Hrange; simpl; [done|].
  rewrite hashStep_spec by done. apply IH, toInt32_range.
Qed.

(** X1: the number in a stable UID is the absolute value of the rolling
    [hash * 31 + charCode] hash of the stable string, each step truncated to
    a signed 32-bit word; it lies between 0 and 2^31. *)
Theorem createStableUID_hash (ev : RawEvent) :
  exists n,
    createStableUID ev = "benchapp-stable-" +:+ numberToString n
    /\ n = Z.abs (hashSpec 0 (stableString ev))
    /\ 0 <= n <= 2 ^ 31.
Proof.
  destruct (hashLoop_spec 0 (stableString ev) ltac:(lia)) as [Heq Hrange].
  exists (Z.abs (hashLoop 0 (stableString ev))). split_and!.
  - done.
  - by rewrite Heq.
  - lia.
  - lia.
Qed.

(** ** What the removal loops delete *)

Lemma Clean_found_key (T : list CalendarEvent) (e : HockeyEvent) (i : nat)
    (t : CalendarEvent) :
  (cleanFind T e).1 = Some i -> T !! i = Some t -> storedUID t = Some (uid e).
Proof.
  unfold cleanFind. simpl. intros Hfound Hi.
  apply Clean_existingEventMap_lookup, keys_lookup in Hfound
    as (t' & Ht' & Hkey).
  rewrite Hi in Ht'. by injection Ht' as <-.
Qed.

(** X2: in [processEvents], an existing event that stores an identity no
    source event has is deleted, whatever else the run does: no update
    reaches it, [deleteEvent] is called on it and a removal is counted. *)
Theorem stale_identity_removed (S : list HockeyEvent)
    (T : list CalendarEvent) (i : nat) (t : CalendarEvent) (u : string) :
  T !! i = Some t ->
  storedUID t = Some u ->
  (forall e, e ∈ S -> uid e <> u) ->
  let r := Clean.processEvents S T in
  existing r !! i = Some t /\ i ∈ deleted r /\ Removed i ∈ log r.
Proof.
  intros Hi Hu Hstale r. unfold r. rewrite Clean_processEvents_pass. simpl.
  set (r1 := pass Clean.needsUpdate (cleanFind T) (startRun T) S).
  assert (existing r1 !! i = Some t) as Hsame.
  { unfold r1. rewrite (pass_untouched _ _ (length T) (cleanFind_valid T));
      [done|done|].
    intros e He Hfound. apply (Hstale e He).
    pose proof (Clean_found_key T e i t Hfound Hi) as Hkey. congruence. }
  assert (i ∈ removedFrom (Clean.shouldRemove (hockeyEventMap S)) 0
                          (existing r1)) as Hgone.
  { apply removedFrom_lookup. split; [lia|]. exists t.
    rewrite Nat.sub_0_r. split; [done|].
    apply Clean_shouldRemove_true. exists u. split; [done|].
    intros (e & -> & He)%list_elem_of_fmap. by apply (Hstale e). }
  split_and!; [done| |].
  - apply elem_of_app. by right.
  - apply elem_of_app. right. by apply list_elem_of_fmap_2.
Qed.

Lemma stale_identity_removed_witness :
  let r := Clean.processEvents [practice; game] [syncedPractice; legacyStray] in
  existing r !! 1%nat = Some legacyStray
  /\ 1%nat ∈ deleted r /\ Removed 1 ∈ log r.
Proof.
  apply (stale_identity_removed [practice; game] [syncedPractice; legacyStray]
           1 legacyStray "45c48cce-2e2d-4fbd-aa1f@benchapp.com");
    [reflexivity|reflexivity|].
  intros e He.
  repeat (apply elem_of_cons in He as [->|He]; [discriminate|]).
  by apply elem_of_nil in He.
Defined.

Lemma Stable_found_key (T : list CalendarEvent) (e : HockeyEvent) (i : nat)
    (t : CalendarEvent) :
  (stableFind T e).1 = Some i -> T !! i = Some t ->
  stableStoredUID t = Some (uid e)
  \/ StableUID.existingContentKey t = StableUID.hockeyContentKey e.
Proof.
  unfold stableFind, StableUID.findExisting.
  rewrite StableUID_buildLookup_eq. simpl.
  destruct (forEachIdx (indexBy stableStoredUID) 0 T ∅ !! uid e)
    as [j|] eqn:Hj.
  - simpl. intros [= ->] Hi. left.
    apply indexBy_valid in Hj as (t' & Ht' & Hkey). congruence.
  - destruct (forEachIdx (indexBy contentKeyOf) 0 T ∅
                !! StableUID.hockeyContentKey e) as [j|] eqn:Hc; [|done].
    simpl. intros [= ->] Hi. right.
    apply indexBy_valid in Hc as (t' & Ht' & Hkey).
    unfold contentKeyOf in Hkey. congruence.
Qed.

(** X3: in [processEventsWithStableUIDs], an existing event whose stored
    identity is that of no source event (or which stores none) and whose
    content key is that of no source event is deleted, untouched. *)
Theorem stable_unmatched_removed (S : list HockeyEvent)
    (T : list CalendarEvent) (i : nat) (t : CalendarEvent) :
  T !! i = Some t ->
  (forall e, e ∈ S -> stableStoredUID t <> Some (uid e)) ->
  (forall e, e ∈ S ->
     StableUID.hockeyContentKey e <> StableUID.existingContentKey t) ->
  let r := StableUID.processEventsWithStableUIDs S T in
  existing r !! i = Some t /\ i ∈ deleted r /\ Removed i ∈ log r.
Proof.
  intros Hi Huid Hcontent r. unfold r.
  rewrite StableUID_processEvents_unfold. simpl.
  set (r1 := pass StableUID.needsUpdate (stableFind T) (startRun T) S).
  assert (existing r1 !! i = Some t) as Hsame.
  { unfold r1. rewrite (pass_untouched _ _ (length T) (stableFind_valid T));
      [done|done|].
    intros e He Hfound.
    destruct (Stable_found_key T e i t Hfound Hi) as [Hkey|Hkey].
    - by apply (Huid e).
    - by apply (Hcontent e). }
  assert (i ∈ removedFrom (StableUID.shouldRemove (hockeyEventMap S)) 0
                          (existing r1)) as Hgone.
  { apply removedFrom_lookup. split; [lia|]. exists t.
    rewrite Nat.sub_0_r. split; [done|].
    unfold StableUID.shouldRemove. apply andb_true_iff. split.
    - apply negb_true_iff, not_true_is_false.
      intros (e & He & Hkey)%existsByUID_true. by apply (Huid e).
    - apply negb_true_iff, not_true_is_false.
      intros (u' & e & He & Hkey)%existsByContent_true.
      apply hockeyEventMap_Some in He as [He _]. by apply (Hcontent e). }
  split_and!; [done| |].
  - apply elem_of_app. by right.
  - apply elem_of_app. right. by apply list_elem_of_fmap_2.
Qed.

Lemma stable_unmatched_removed_witness :
  let r := StableUID.processEventsWithStableUIDs [practice; game]
             [syncedPractice; blankMarker] in
  existing r !! 1%nat = Some blankMarker
  /\ 1%nat ∈ deleted r /\ Removed 1 ∈ log r.
Proof.
  apply (stable_unmatched_removed [practice; game]
           [syncedPractice; blankMarker] 1 blankMarker); [reflexivity| |];
    intros e He;
    repeat (apply elem_of_cons in He as [->|He]; [vm_compute; discriminate|]);
    by apply elem_of_nil in He.
Defined.

(** ** The first run *)

Lemma pass_all_new (needs : CalendarEvent -> HockeyEvent -> bool)
    (find : HockeyEvent -> option nat * bool) (r : Run)
    (es : list HockeyEvent) :
  (forall e, (find e).1 = None) ->
  pass needs find r es
  = mkRun (existing r) (deleted r) (created r ++ (createEvent <$> es))
          (mkResults (added (results r) + length es) (updated (results r))
                     (removed (results r)) (unchanged (results r))
                     (migrated (results r)))
          (log r ++ (Added <$> es)).
Proof.
  intros Hnew. unfold pass.
  revert r. induction es as [|e es IH]; intros r; simpl.
  - rewrite !app_nil_r, Nat.add_0_r. by destruct r as [? ? ? [] ?].
  - rewrite IH. unfold stepWith.
    specialize (Hnew e). destruct (find e) as [[i|] b]; [done|]. simpl.
    rewrite <- !app_assoc. simpl. do 2 f_equal. f_equal. lia.
Qed.

(** X4: against an empty calendar both versions create one event for each
    source event, in the order of the feed, and do nothing else: [added] is
    the number of source events and every other counter is 0. *)
Theorem first_run_creates_all (S : list HockeyEvent) :
  Clean.processEvents S []
  = mkRun [] [] (createEvent <$> S) (mkResults (length S) 0 0 0 0)
          (Added <$> S)
  /\ StableUID.processEventsWithStableUIDs S []
     = mkRun [] [] (createEvent <$> S) (mkResults (length S) 0 0 0 0)
             (Added <$> S).
Proof.
  split.
  - rewrite Clean_processEvents_pass.
    rewrite (pass_all_new _ (cleanFind [])); [|done]. simpl.
    by rewrite app_nil_r.
  - rewrite StableUID_processEvents_unfold.
    rewrite (pass_all_new _ (stableFind [])); [|done]. simpl.
    by rewrite app_nil_r.
Qed.

(** ** The calendar filter and the marker *)

Lemma getExisting_all (ts : list CalendarEvent) :
  getExistingHockeyEvents ts = ts <-> forall t, t ∈ ts -> isSynced t = true.
Proof.
  change (getExistingHockeyEvents ts)
    with (filter (fun t => isSynced t = true) ts).
  induction ts as [|t ts IH].
  - split; [|done]. intros _ t Ht. by apply elem_of_nil in Ht.
  - rewrite filter_cons. destruct (decide (isSynced t = true)) as [Ht|Ht].
    + split.
      * intros [= Hts]. pose proof (proj1 IH Hts) as Hall.
        intros t' [->|Ht']%elem_of_cons; auto.
      * intros H. f_equal. apply (proj2 IH). intros t' Ht'. apply H. by right.
    + split.
      * intros Hlen. exfalso.
        apply (f_equal length) in Hlen. simpl in Hlen.
        pose proof (length_filter (fun event => isSynced event = true) ts).
        lia.
      * intros H. exfalso. apply Ht, H. left.
Qed.

Lemma includes_app_r (s t p : string) :
  includes t p = true -> includes (s +:+ t) p = true.
Proof.
  intros Ht. induction s as [|c s IH]; [done|].
  rewrite append_cons. by apply includes_cons.
Qed.

Lemma isSynced_createEvent (e : HockeyEvent) : isSynced (createEvent e) = true.
Proof.
  unfold isSynced, createEvent. cbn [getTitle getDescription].
  rewrite startsWith_app. unfold newDescription.
  assert (includes ("Hockey-UID: " +:+ uid e) MARKER = true) as Hmarker.
  { apply includes_startsWith.
    change ("Hockey-UID: " +:+ uid e) with (MARKER +:+ String " " (uid e)).
    apply startsWith_app. }
  rewrite (includes_app_r (trim (orEmpty (description e))))
    by (by apply includes_app_r).
  rewrite (truthy_app_r (trim (orEmpty (description e))));
    [done|by apply truthy_app_r].
Qed.

Lemma elem_of_aliveFrom (i : nat) (dead : list nat) (ts : list CalendarEvent)
    (t : CalendarEvent) :
  t ∈ aliveFrom i dead ts -> t ∈ ts.
Proof.
  revert i. induction ts as [|t' ts IH]; intros i; simpl; [done|].
  destruct (bool_decide (i ∈ dead)).
  - intros H%IH. by right.
  - intros [->|H%IH]%elem_of_cons; [left|by right].
Qed.

Lemma pass_created (needs : CalendarEvent -> HockeyEvent -> bool)
    (find : HockeyEvent -> option nat * bool) (r : Run)
    (es : list HockeyEvent) (c : CalendarEvent) :
  c ∈ created (pass needs find r es) ->
  c ∈ created r \/ exists e, e ∈ es /\ c = createEvent e.
Proof.
  induction es as [|e es IH] using rev_ind; [by left|].
  rewrite pass_snoc. unfold stepWith.
  destruct (find e) as [[i|] b].
  - assert (c ∈ created (pass needs find r es) ->
            c ∈ created r \/ exists e', e' ∈ es ++ [e] /\ c = createEvent e')
      as Hold.
    { intros [?|(e' & He' & ->)]%IH; [by left|]. right. exists e'.
      split; [|done]. apply elem_of_snoc. by left. }
    destruct (existing (pass needs find r es) !! i) as [t|]; [|done].
    by destruct (b || needs t e).
  - simpl. intros [[?|(e' & He' & ->)]%IH| ->]%elem_of_snoc.
    + by left.
    + right. exists e'. split; [|done]. apply elem_of_snoc. by left.
    + right. exists e. split; [|done]. apply elem_of_snoc. by right.
Qed.

Lemma calendarAfter_synced (needs : CalendarEvent -> HockeyEvent -> bool)
    (find : HockeyEvent -> option nat * bool)
    (S : list HockeyEvent) (T : list CalendarEvent) (dead : list nat)
    (t : CalendarEvent) :
  (forall e i b, find e = (Some i, b) -> (i < length T)%nat) ->
  (forall t, t ∈ T -> isSynced t = true) ->
  let r := pass needs find (startRun T) S in
  t ∈ aliveFrom 0 dead (existing r) ++ created r -> isSynced t = true.
Proof.
  intros Hvalid HT r [Ht%elem_of_aliveFrom|Ht]%elem_of_app.
  - apply list_elem_of_lookup in Ht as [i Hi].
    destruct (pass_spec needs find (length T) Hvalid (startRun T) S eq_refl)
      as (_ & _ & _ & _ & _ & Hexisting).
    destruct (Hexisting i) as [Hsame|(e & _ & Hwritten)].
    + fold r in Hsame. rewrite Hi in Hsame. simpl in Hsame.
      apply HT. symmetry in Hsame. by apply list_elem_of_lookup_2 in Hsame.
    + fold r in Hwritten. rewrite Hi in Hwritten. injection Hwritten as ->.
      apply isSynced_createEvent.
  - apply pass_created in Ht as [Ht|(e & _ & ->)].
    + by apply elem_of_nil in Ht.
    + apply isSynced_createEvent.
Qed.

(** X5: the test of the calendar filter is closed under a run, in both
    versions.  When every existing event handed to the reconciler passes the
    test of [getExistingHockeyEvents] (title with the prefix, description
    with the marker), so does every event the run leaves, kept, rewritten or
    created: of whatever events of them a later query of the calendar
    returns, the filter drops none.  Which of them a later query returns,
    the window of that query decides; nothing is said of it. *)
Theorem filter_closed_under_run (S : list HockeyEvent)
    (T : list CalendarEvent) :
  getExistingHockeyEvents T = T ->
  (forall queried,
     (forall t, t ∈ queried -> t ∈ calendarAfter (Clean.processEvents S T)) ->
     getExistingHockeyEvents queried = queried)
  /\ (forall queried,
        (forall t, t ∈ queried ->
           t ∈ calendarAfter (StableUID.processEventsWithStableUIDs S T)) ->
        getExistingHockeyEvents queried = queried).
Proof.
  intros HT. pose proof (proj1 (getExisting_all T) HT) as Hall.
  split; intros queried Hsub; apply getExisting_all; intros t Ht;
    apply Hsub in Ht; revert Ht.
  - rewrite Clean_processEvents_pass. unfold calendarAfter. simpl.
    apply (calendarAfter_synced _ _ S T _ t (cleanFind_valid T) Hall).
  - rewrite StableUID_processEvents_unfold. unfold calendarAfter. simpl.
    apply (calendarAfter_synced _ _ S T _ t (stableFind_valid T) Hall).
Qed.

Lemma filter_closed_under_run_witness :
  (forall queried,
     (forall t, t ∈ queried ->
        t ∈ calendarAfter (Clean.processEvents [drill; game] [legacyStray])) ->
     getExistingHockeyEvents queried = queried)
  /\ (forall queried,
        (forall t, t ∈ queried ->
           t ∈ calendarAfter
                 (StableUID.processEventsWithStableUIDs [drill; game]
                    [legacyStray])) ->
        getExistingHockeyEvents queried = queried).
Proof. apply filter_closed_under_run. reflexivity. Defined.

Lemma matchMarkerToken_includes (s g : string) :
  matchMarkerToken s = Some g -> includes s MARKER = true.
Proof.
  induction s as [|c s IH]; rewrite matchMarkerToken_eq.
  - simpl. by destruct (startsWith EmptyString MARKER).
  - destruct (startsWith (String c s) MARKER) eqn:Hstart.
    + intros _. by apply includes_startsWith.
    + intros H. apply includes_cons. by apply IH.
Qed.

(** X6: the calendar filter hides no event the clean reconciler could match:
    an event whose title has the prefix and from whose description
    [extractUIDFromDescription] reads an identity passes the test of
    [getExistingHockeyEvents]. *)
Theorem identified_event_passes_filter (t : CalendarEvent) (u : string) :
  startsWith (getTitle t) EVENT_PREFIX = true ->
  Clean.extractUIDFromDescription (getDescription t) = Some u ->
  getExistingHockeyEvents [t] = [t].
Proof.
  intros Hprefix Hextract. apply getExisting_all.
  intros t' ->%list_elem_of_singleton. unfold isSynced. rewrite Hprefix.
  unfold Clean.extractUIDFromDescription in Hextract.
  destruct (truthy (getDescription t)); [|done]. simpl in *.
  destruct (matchMarkerToken (getDescription t)) as [g|] eqn:Hg; [|done].
  by rewrite (matchMarkerToken_includes _ _ Hg).
Qed.

Lemma identified_event_passes_filter_witness :
  getExistingHockeyEvents [legacyStray] = [legacyStray].
Proof.
  apply (identified_event_passes_filter legacyStray
           "45c48cce-2e2d-4fbd-aa1f@benchapp.com"); reflexivity.
Defined.

(** ** The legacy pattern of the stable-UID extractor *)

Lemma matchMarkerLine_eq (s : string) :
  StableUID.matchMarkerLine s
  = match (if startsWith s MARKER
           then let rest := dropChars (String.length MARKER) s in
                StableUID.captureLine
                  (String.length (takeWhile isWhiteSpace rest)) rest
           else None) with
    | Some group => Some group
    | None =>
        match s with
        | EmptyString => None
        | String _ s' => StableUID.matchMarkerLine s'
        end
    end.
Proof. by destruct s. Qed.

Lemma trimStart_blank (s : string) :
  trimStart s = EmptyString <-> allChars isWhiteSpace s = true.
Proof.
  induction s as [|c s IH]; simpl; [done|].
  destruct (isWhiteSpace c); simpl; [done|]. split; done.
Qed.

Lemma captureToken_None (rest : string) :
  captureToken rest = None -> allChars isWhiteSpace rest = true.
Proof.
  unfold captureToken. intros H. apply trimStart_blank.
  pose proof (trimStart_clean rest) as Hclean.
  destruct (trimStart rest) as [|c s]; [done|]. simpl in *.
  by rewrite Hclean in H.
Qed.

Lemma allChars_dropChars (f : ascii -> bool) (k : nat) (s : string) :
  allChars f s = true -> allChars f (dropChars k s) = true.
Proof.
  revert s. induction k as [|k IH]; intros [|c s]; simpl; try done.
  intros [_ Hs]%andb_true_iff. by apply IH.
Qed.

Lemma allChars_takeWhile (f g : ascii -> bool) (s : string) :
  allChars f s = true -> allChars f (takeWhile g s) = true.
Proof.
  induction s as [|c s IH]; simpl; [done|].
  intros [Hc Hs]%andb_true_iff. destruct (g c); [|done]. simpl.
  by rewrite Hc, IH.
Qed.

Lemma captureLine_blank (k : nat) (rest g : string) :
  allChars isWhiteSpace rest = true ->
  StableUID.captureLine k rest = Some g -> allChars isWhiteSpace g = true.
Proof.
  intros Hrest. induction k as [|k IH]; simpl.
  - destruct (isEmpty _) eqn:He; [done|]. intros [= <-].
    by apply allChars_takeWhile.
  - destruct (isEmpty _) eqn:He; [exact IH|]. intros [= <-].
    apply allChars_takeWhile. destruct rest as [|c rest]; [done|].
    simpl in Hrest. apply andb_true_iff in Hrest as [_ Hrest].
    by apply allChars_dropChars.
Qed.

Lemma trim_blank (s : string) : allChars isWhiteSpace s = true -> trim s = EmptyString.
Proof. intros H%trimStart_blank. unfold trim. by rewrite H. Qed.

Lemma matchMarkerLine_blank (s g : string) :
  matchMarkerToken s = None -> StableUID.matchMarkerLine s = Some g ->
  allChars isWhiteSpace g = true.
Proof.
  induction s as [|c s IH]; rewrite matchMarkerToken_eq, matchMarkerLine_eq.
  - by destruct (startsWith EmptyString MARKER).
  - destruct (startsWith (String c s) MARKER).
    + destruct (captureToken _) as [x|] eqn:Hx; [done|].
      apply captureToken_None in Hx. intros Htail. cbv zeta.
      destruct (StableUID.captureLine _ _) as [y|] eqn:Hy.
      * intros [= <-]. by apply (captureLine_blank _ _ _ Hx Hy).
      * by apply IH.
    + exact IH.
Qed.

(** X7: the backward-compatibility pattern of the stable-UID
    [extractUIDFromDescription] adds no identity: it is tried only where the
    first pattern finds nothing, and what it captures there is white space,
    empty once trimmed.  The identity the stable-UID version keys an existing
    event by is the one the clean version reads. *)
Theorem legacy_pattern_adds_nothing (t : CalendarEvent) :
  stableStoredUID t = storedUID t.
Proof.
  unfold stableStoredUID, storedUID, keyOf,
    StableUID.extractUIDFromDescription, Clean.extractUIDFromDescription.
  destruct (negb (truthy (getDescription t))); [done|].
  destruct (matchMarkerToken (getDescription t)) as [g|] eqn:Hg; [done|].
  destruct (StableUID.matchMarkerLine (getDescription t)) as [g|] eqn:Hline;
    [|done].
  by rewrite (trim_blank g (matchMarkerLine_blank _ _ Hg Hline)).
Qed.

(** ** What an update leaves to do *)

(** X8: in the clean version an update settles the event: whatever the
    existing event read before, after [updateEvent] with a source event whose
    UID is a token and whose description is free of the marker text,
    [needsUpdate] for that source event is false. *)
Theorem update_settles (t : CalendarEvent) (e : HockeyEvent) :
  sourceOK e = true -> Clean.needsUpdate (updateEvent t e) e = false.
Proof. intros He. rewrite updateEvent_createEvent. by apply needsUpdate_createEvent. Qed.

Lemma update_settles_witness :
  Clean.needsUpdate (updateEvent legacyStray game) game = false.
Proof. apply update_settles. reflexivity. Defined.

Lemma trimEnd_nonblank (c : ascii) (s : string) :
  isWhiteSpace c = false -> truthy (trim (String c s)) = true.
Proof.
  intros Hc. unfold trim. simpl trimStart. rewrite Hc. simpl.
  destruct (trimEnd s); [by rewrite Hc|done].
Qed.

Lemma Stable_needsUpdate_createEvent (e : HockeyEvent) :
  sourceOK e = true ->
  StableUID.needsUpdate (createEvent e) e
  = negb (truthy (orEmpty (description e))).
Proof.
  intros [Hu Hd]%andb_true_iff. apply andb_true_iff in Hu as [_ Hu].
  unfold StableUID.needsUpdate.
  assert (StableUID.titleChanged (createEvent e) e = false) as ->
    by apply eqb_refl_neg.
  assert (StableUID.startChanged (createEvent e) e = false) as ->.
  { unfold StableUID.startChanged, StableUID.startTimeDiff. simpl.
    rewrite Z.sub_diag. done. }
  assert (StableUID.endChanged (createEvent e) e = false) as ->.
  { unfold StableUID.endChanged, StableUID.endTimeDiff. simpl.
    rewrite Z.sub_diag. done. }
  assert (StableUID.locationChanged (createEvent e) e = false) as ->
    by apply eqb_refl_neg.
  simpl. unfold StableUID.descriptionChanged, StableUID.existingContentDesc,
    StableUID.newContentDesc. cbn [getDescription createEvent].
  destruct (newDescription_cases e) as [[Hempty ->]|[Hfull ->]].
  - rewrite Hempty. simpl negb.
    rewrite stripMarkerBlock_no_LF.
    + destruct (orEmpty (description e)); [|discriminate Hempty].
      change ("Hockey-UID: " +:+ uid e)
        with (String "H" ("ockey-UID: " +:+ uid e)).
      destruct (trim (String _ _)) as [|c s] eqn:Htrim; [|done].
      apply (f_equal truthy) in Htrim.
      rewrite trimEnd_nonblank in Htrim; done.
    + rewrite allChars_app. by rewrite (token_no_LF (uid e)).
  - rewrite Hfull. simpl negb.
    rewrite stripMarkerBlock_block by auto using markerFree_trim.
    rewrite trim_idempotent. apply eqb_refl_neg.
Qed.

Lemma stableStoredUID_createEvent (e : HockeyEvent) :
  sourceOK e = true -> stableStoredUID (createEvent e) = Some (uid e).
Proof.
  intros He. pose proof (extract_newDescription e He) as Hclean.
  unfold Clean.extractUIDFromDescription in Hclean.
  unfold stableStoredUID, keyOf, StableUID.extractUIDFromDescription.
  cbn [getDescription createEvent].
  destruct (negb (truthy (newDescription e))); [done|].
  destruct (matchMarkerToken (newDescription e)) as [g|]; [|done].
  injection Hclean as Hg. rewrite Hg.
  apply andb_true_iff in He as [[Htruthy _]%andb_true_iff _].
  by rewrite Htruthy.
Qed.

Lemma stableFind_createEvent (e : HockeyEvent) :
  sourceOK e = true -> stableFind [createEvent e] e = (Some O, false).
Proof.
  intros He. unfold stableFind, StableUID.findExisting.
  rewrite StableUID_buildLookup_eq. cbn [StableUID.existingEventMap].
  rewrite forEachIdx_indexBy. cbn [fmap list_fmap lastIndex].
  rewrite (stableStoredUID_createEvent e He).
  by rewrite decide_True by done.
Qed.

(** X9: in the stable-UID version, for a source event whose UID is a token
    and whose description does not hold the marker text, the event
    [createEvent] has just written for it needs an update exactly when the
    source event has no description (none, or the empty one): [needsUpdate]
    strips the marker only where a blank line precedes it, so a description
    that is the marker line alone reads as changed.  A run over such a source
    event without description and the event written for it alone counts one
    update, deletes and creates nothing, and leaves the event as it was. *)
Theorem stable_update_unsettled_without_description (e : HockeyEvent) :
  sourceOK e = true ->
  StableUID.needsUpdate (createEvent e) e
  = negb (truthy (orEmpty (description e)))
  /\ (truthy (orEmpty (description e)) = false ->
      let r := StableUID.processEventsWithStableUIDs [e] [createEvent e] in
      log r = [Updated 0 e]
      /\ results r = mkResults 0 1 0 0 0
      /\ created r = [] /\ deleted r = []
      /\ calendarAfter r = [createEvent e]).
Proof.
  intros He. split; [by apply Stable_needsUpdate_createEvent|].
  intros Hempty r. unfold r.
  rewrite StableUID_processEvents_unfold. cbn zeta.
  unfold pass. cbn [foldl]. unfold stepWith.
  rewrite (stableFind_createEvent e He).
  cbn [startRun existing lookup list_lookup].
  rewrite (Stable_needsUpdate_createEvent e He), Hempty.
  cbn [negb orb doUpdate existing deleted created results log startRun
       list_insert insert app incUpdated added updated removed unchanged
       migrated].
  rewrite updateEvent_createEvent. cbn [removedFrom].
  assert (StableUID.shouldRemove (hockeyEventMap [e]) (createEvent e) = false)
    as ->.
  { apply not_true_is_false. intros [Huid _]%Stable_shouldRemove_true.
    apply (Huid e); [by left|]. by apply stableStoredUID_createEvent. }
  unfold calendarAfter. cbn [existing deleted created app length fmap
                              list_fmap Nat.add].
  by rewrite aliveFrom_nil.
Qed.

Lemma stable_update_unsettled_without_description_witness :
  StableUID.needsUpdate (createEvent practice) practice
  = negb (truthy (orEmpty (description practice)))
  /\ (truthy (orEmpty (description practice)) = false ->
      let r := StableUID.processEventsWithStableUIDs [practice]
                 [createEvent practice] in
      log r = [Updated 0 practice]
      /\ results r = mkResults 0 1 0 0 0
      /\ created r = [] /\ deleted r = []
      /\ calendarAfter r = [createEvent practice]).
Proof. apply stable_update_unsettled_without_description. reflexivity. Defined.

(** ** Identities stay unique *)

Lemma NoDup_fmap_same {A B : Type} (f : A -> B) (l : list A) (x y : A) :
  NoDup (f <$> l) -> x ∈ l -> y ∈ l -> f x = f y -> x = y.
Proof.
  intros Hnd [i Hi]%list_elem_of_lookup [j Hj]%list_elem_of_lookup Hxy.
  assert (i = j) as ->.
  { apply (NoDup_lookup (f <$> l) i j (f x)); [done| |].
    - by rewrite list_lookup_fmap, Hi.
    - by rewrite list_lookup_fmap, Hj, Hxy. }
  congruence.
Qed.

Lemma NoDup_omap_filter {A B : Type} (f : A -> option B) (P : A -> Prop)
    `{!forall x, Decision (P x)} (l : list A) :
  NoDup (omap f l) -> NoDup (omap f (filter P l)).
Proof.
  induction l as [|x l IH]; [done|]. rewrite filter_cons. simpl.
  destruct (f x) as [y|] eqn:Hy.
  - intros [Hnew Hnd]%NoDup_cons. destruct (decide (P x)); [|by apply IH].
    simpl. rewrite Hy. apply NoDup_cons. split; [|by apply IH].
    intros (x' & [_ Hx']%list_elem_of_filter & Hfx')%list_elem_of_omap.
    apply Hnew, list_elem_of_omap. by exists x'.
  - intros Hnd. destruct (decide (P x)); [|by apply IH].
    simpl. rewrite Hy. by apply IH.
Qed.

Lemma omap_same_keys {A B : Type} (f : A -> option B) (l1 l2 : list A) :
  f <$> l1 = f <$> l2 -> omap f l1 = omap f l2.
Proof.
  revert l2. induction l1 as [|x l1 IH]; intros [|y l2]; simpl; try done.
  intros [= Hxy Htail]. rewrite Hxy. destruct (f y); [f_equal|]; by apply IH.
Qed.

Lemma identities_created (es : list HockeyEvent) :
  (forall e, e ∈ es -> sourceOK e = true) ->
  identities (createEvent <$> es) = uid <$> es.
Proof.
  unfold identities. induction es as [|e es IH]; intros Hok; [done|].
  simpl. rewrite storedUID_createEvent by (apply Hok; left). simpl.
  f_equal. apply IH. intros e' He'. apply Hok. by right.
Qed.

Lemma NoDup_fmap_filter {A B : Type} (f : A -> B) (P : A -> Prop)
    `{!forall x, Decision (P x)} (l : list A) :
  NoDup (f <$> l) -> NoDup (f <$> filter P l).
Proof.
  induction l as [|x l IH]; [done|]. rewrite filter_cons, fmap_cons.
  intros [Hnew Hnd]%NoDup_cons. destruct (decide (P x)); [|by apply IH].
  rewrite fmap_cons. apply NoDup_cons. split; [|by apply IH].
  intros (x' & Hfx' & [_ Hx']%list_elem_of_filter)%list_elem_of_fmap.
  apply Hnew, list_elem_of_fmap. by exists x'.
Qed.

Lemma isNew_not_stored (T : list CalendarEvent) (e : HockeyEvent)
    (t : CalendarEvent) :
  isNew T e -> t ∈ T -> storedUID t <> Some (uid e).
Proof.
  unfold isNew. rewrite Clean_existingEventMap_eq, forEachIdx_indexBy.
  destruct (lastIndex (uid e) (storedUID <$> T)) as [j|] eqn:Hj; [done|].
  intros _ Ht Hkey. apply lastIndex_None in Hj. apply Hj.
  rewrite <- Hkey. by apply list_elem_of_fmap_2.
Qed.

(** X10: a run of the clean version introduces no duplicate identity.  When
    the existing events store pairwise distinct identities, the source events
    have pairwise distinct UIDs, each a token, and descriptions free of the
    marker text, the events of the calendar the run leaves store pairwise
    distinct identities. *)
Theorem identities_stay_unique (S : list HockeyEvent)
    (T : list CalendarEvent) :
  NoDup (identities T) ->
  NoDup (uid <$> S) ->
  (forall e, e ∈ S -> sourceOK e = true) ->
  NoDup (identities (calendarAfter (Clean.processEvents S T))).
Proof.
  intros HT HS Hok.
  assert (forall e e', e ∈ S -> e' ∈ S -> uid e = uid e' -> e = e') as Hfun
    by (intros e e'; by apply NoDup_fmap_same).
  pose proof (PassInv_foldl S T Hok Hfun S (fun x Hx => Hx)) as Hinv.
  set (r := foldl (Clean.processOne (Clean.existingEventMap T)) (startRun T) S)
    in Hinv.
  destruct Hinv as [Hkeys Hcreated Hdeleted _].
  assert (calendarAfter (Clean.processEvents S T)
          = filter (fun t => cleanKeeps S t = true) (existing r) ++ created r)
    as ->.
  { rewrite Clean_processEvents_unfold. fold r. unfold calendarAfter. simpl.
    rewrite Hdeleted.
    by rewrite aliveFrom_removedFrom by (intros j ?%elem_of_nil; done). }
  unfold identities. rewrite omap_app. apply NoDup_app. split_and!.
  - apply NoDup_omap_filter. by rewrite (omap_same_keys _ _ T).
  - intros u (t & [_ Ht]%list_elem_of_filter & Hu)%list_elem_of_omap Hin.
    rewrite Hcreated in Hin. fold (identities (createEvent <$> filter (isNew T) S)) in Hin.
    rewrite identities_created in Hin
      by (intros e [_ He]%list_elem_of_filter; auto).
    apply list_elem_of_fmap in Hin as (e & -> & [Hnew He]%list_elem_of_filter).
    assert (Some (uid e) ∈ storedUID <$> T) as Hstored.
    { rewrite <- Hkeys, <- Hu. by apply list_elem_of_fmap_2. }
    apply list_elem_of_fmap in Hstored as (t' & Hkey & Ht').
    by apply (isNew_not_stored T e t' Hnew Ht').
  - rewrite Hcreated. fold (identities (createEvent <$> filter (isNew T) S)).
    rewrite identities_created by (intros e [_ He]%list_elem_of_filter; auto).
    by apply NoDup_fmap_filter.
Qed.

Lemma identities_stay_unique_witness :
  NoDup (identities
           (calendarAfter
              (Clean.processEvents [drill; game] [syncedPractice; legacyStray]))).
Proof.
  apply identities_stay_unique; [by_decide|by_decide|].
  intros e He.
  repeat (apply elem_of_cons in He as [->|He]; [reflexivity|]).
  by apply elem_of_nil in He.
Defined.

(** ** The feed parser *)

Example sampleFeed_parsed :
  Feed.parseICSData clockOfDay sampleFeed
  = [mkHockey "benchapp-stable-805283480" "Practice" 80000000 None
              (Some "Rink A, North St") (Some "Bring both jerseys")].
Proof. vm_compute. reflexivity. Qed.

Lemma splitFrom_no_separator (sep acc s : string) :
  includes s sep = false -> splitFrom sep O acc s = [acc +:+ s].
Proof.
  revert acc. induction s as [|c s IH]; intros acc Hs.
  - simpl. rewrite (startsWith_of_includes_false _ _ Hs).
    by rewrite append_nil_r.
  - simpl. rewrite (startsWith_of_includes_false _ _ Hs).
    rewrite IH by (by apply includes_false_tail in Hs).
    by rewrite append_assoc.
Qed.

Lemma parseICSData_no_event (newDate : Z -> Z -> Z -> Z -> Z -> Z -> Z)
    (icsData : string) :
  includes icsData "BEGIN:VEVENT" = false ->
  Feed.parseICSData newDate icsData = [].
Proof.
  intros Hnone. unfold Feed.parseICSData, split.
  by rewrite splitFrom_no_separator.
Qed.

(** X11: a response that holds no [BEGIN:VEVENT] (an empty calendar, or any
    text that is not a calendar) parses to no event, and the run treats it as
    an empty feed: it returns normally, adds nothing, and deletes every
    existing event that stores an identity. *)
Theorem feed_without_events_empties_calendar
    (newDate : Z -> Z -> Z -> Z -> Z -> Z -> Z)
    (events : list CalendarEvent) (icsData : string) :
  includes icsData "BEGIN:VEVENT" = false ->
  exists r,
    Clean.syncHockeyCalendar (Feed.parseICSData newDate) (Some events)
      (Returned icsData) = Returned r
    /\ created r = []
    /\ forall i t, getExistingHockeyEvents events !! i = Some t ->
                   is_Some (storedUID t) -> i ∈ deleted r.
Proof.
  intros Hnone. eexists. split; [reflexivity|]. simpl.
  rewrite parseICSData_no_event by done.
  rewrite Clean_processEvents_pass. simpl. split; [done|].
  intros i t Hi [u Hu]. apply removedFrom_lookup. split; [lia|].
  exists t. rewrite Nat.sub_0_r. split; [done|].
  apply Clean_shouldRemove_true. exists u. split; [done|].
  apply not_elem_of_nil.
Qed.

Lemma feed_without_events_empties_calendar_witness :
  exists r,
    Clean.syncHockeyCalendar (Feed.parseICSData clockOfDay)
      (Some [dentist; syncedPractice])
      (Returned "<html><body>504 Gateway Time-out</body></html>") = Returned r
    /\ created r = []
    /\ forall i t,
         getExistingHockeyEvents [dentist; syncedPractice] !! i = Some t ->
         is_Some (storedUID t) -> i ∈ deleted r.
Proof.
  apply feed_without_events_empties_calendar. reflexivity.
Defined.

(** *** What a parsed event looks like *)

Lemma trim_cleanLocationString (location : string) :
  trim (cleanLocationString location) = cleanLocationString location.
Proof.
  unfold cleanLocationString. destruct (negb (truthy location)); [done|].
  apply trim_idempotent.
Qed.

Lemma readLine_trimmed (newDate : Z -> Z -> Z -> Z -> Z -> Z -> Z)
    (unescape : string -> string) (ev : RawEvent) (line : string) :
  (forall x, trim (unescape x) = unescape x) ->
  rawTrimmed ev -> rawTrimmed (Feed.readLine newDate unescape ev line).
Proof.
  intros Hun (Ht & Hl & Hd). unfold Feed.readLine.
  repeat (destruct (startsWith line _); [
    unfold rawTrimmed; simpl; split_and!; intros x Hx;
    first [ by apply Ht | by apply Hl | by apply Hd
          | injection Hx as <-; first [apply trim_idempotent | apply Hun] ]
  |]).
  done.
Qed.

Lemma foldl_readLine_trimmed (newDate : Z -> Z -> Z -> Z -> Z -> Z -> Z)
    (unescape : string -> string) (lines : list string) (ev : RawEvent) :
  (forall x, trim (unescape x) = unescape x) ->
  rawTrimmed ev ->
  rawTrimmed (foldl (Feed.readLine newDate unescape) ev lines).
Proof.
  intros Hun. revert ev. induction lines as [|line lines IH]; intros ev Hev;
    [done|].
  simpl. apply IH. by apply readLine_trimmed.
Qed.

Lemma parseEventBlock_finish_Some (ev : RawEvent) (e : HockeyEvent) :
  parseEventBlock_finish ev = Some e ->
  raw_title ev = Some (title e) /\ raw_startTime ev = Some (startTime e)
  /\ truthy (title e) = true
  /\ uid e = createStableUID ev
  /\ endTime e = raw_endTime ev
  /\ location e = raw_location ev /\ description e = raw_description ev.
Proof.
  unfold parseEventBlock_finish.
  destruct (raw_title ev) as [t|]; [|done].
  destruct (raw_startTime ev) as [s|]; [|done].
  destruct (truthy t) eqn:Ht; [|done].
  by intros [= <-].
Qed.

Lemma createStableUID_reads (ev : RawEvent) :
  createStableUID ev
  = createStableUID
      (mkRaw None (raw_title ev) (raw_startTime ev) None (raw_location ev) None).
Proof. reflexivity. Qed.

(** X12: every event [parseICSData] returns has a non-empty, trimmed title;
    its location and description, where the block had them, are trimmed; and
    its [uid] is the stable UID of its own title, start time and location,
    a token: the [UID], [DTEND] and [DESCRIPTION] lines of the feed have no
    part in it. *)
Theorem parsed_event_well_formed
    (newDate : Z -> Z -> Z -> Z -> Z -> Z -> Z) (icsData : string) (i : nat)
    (e : HockeyEvent) :
  Feed.parseICSData newDate icsData !! i = Some e ->
  truthy (title e) = true
  /\ trim (title e) = title e
  /\ (forall l, location e = Some l -> trim l = l)
  /\ (forall d, description e = Some d -> trim d = d)
  /\ uid e = createStableUID
               (mkRaw None (Some (title e)) (Some (startTime e)) None
                      (location e) None)
  /\ tokenLike (uid e) = true.
Proof.
  intros Hi. apply list_elem_of_lookup_2 in Hi.
  unfold Feed.parseICSData in Hi.
  apply list_elem_of_omap in Hi as (block & _ & Hblock).
  unfold Feed.parseEventBlock, Feed.parseEventBlockWith in Hblock.
  set (ev := foldl _ _ _) in Hblock.
  assert (rawTrimmed ev) as (Ht & Hl & Hd).
  { apply foldl_readLine_trimmed; [apply trim_cleanLocationString|].
    by split_and!. }
  apply parseEventBlock_finish_Some in Hblock
    as (Htitle & Hstart & Htruthy & Huid & _ & Hloc & Hdesc).
  split_and!.
  - done.
  - by apply Ht.
  - intros l Hl'. apply Hl. congruence.
  - intros d Hd'. apply Hd. congruence.
  - rewrite Huid, createStableUID_reads. by rewrite Htitle, Hstart, Hloc.
  - rewrite Huid. apply createStableUID_token.
Qed.

Lemma parsed_event_well_formed_witness :
  let e := mkHockey "benchapp-stable-805283480" "Practice" 80000000 None
                    (Some "Rink A, North St") (Some "Bring both jerseys") in
  truthy (title e) = true
  /\ trim (title e) = title e
  /\ (forall l, location e = Some l -> trim l = l)
  /\ (forall d, description e = Some d -> trim d = d)
  /\ uid e = createStableUID
               (mkRaw None (Some (title e)) (Some (startTime e)) None
                      (location e) None)
  /\ tokenLike (uid e) = true.
Proof.
  apply (parsed_event_well_formed clockOfDay sampleFeed 0).
  vm_compute. reflexivity.
Defined.

(** *** Blocks that are dropped *)

Lemma readLine_title (newDate : Z -> Z -> Z -> Z -> Z -> Z -> Z)
    (unescape : string -> string) (ev : RawEvent) (line : string) :
  startsWith line "SUMMARY:" = false ->
  raw_title (Feed.readLine newDate unescape ev line) = raw_title ev.
Proof.
  intros Hline. unfold Feed.readLine. rewrite Hline.
  by repeat (destruct (startsWith line _); [done|]).
Qed.

Lemma readLine_startTime (newDate : Z -> Z -> Z -> Z -> Z -> Z -> Z)
    (unescape : string -> string) (ev : RawEvent) (line : string) :
  startsWith line "DTSTART" = false ->
  raw_startTime (Feed.readLine newDate unescape ev line) = raw_startTime ev.
Proof.
  intros Hline. unfold Feed.readLine. rewrite Hline.
  by repeat (destruct (startsWith line _); [done|]).
Qed.

Lemma foldl_readLine_keeps {A : Type} (field : RawEvent -> A)
    (skip : string -> bool) (step : RawEvent -> string -> RawEvent)
    (lines : list string) (ev : RawEvent) :
  (forall ev line, skip line = false -> field (step ev line) = field ev) ->
  (forall line, line ∈ lines -> skip line = false) ->
  field (foldl step ev lines) = field ev.
Proof.
  intros Hstep. revert ev. induction lines as [|line lines IH];
    intros ev Hlines; [done|].
  simpl. rewrite IH by (intros l Hl; apply Hlines; by right).
  apply Hstep, Hlines. by left.
Qed.

(** X13: a block is dropped when none of its trimmed, non-empty lines starts
    with [SUMMARY:], and also when none starts with [DTSTART], in both
    versions of [parseEventBlock]: an event without a title or without a
    start never reaches the calendar. *)
Theorem block_without_title_or_start_dropped
    (newDate : Z -> Z -> Z -> Z -> Z -> Z -> Z) (eventBlock : string) :
  (forall line, line ∈ Feed.linesOf eventBlock ->
                startsWith line "SUMMARY:" = false)
  \/ (forall line, line ∈ Feed.linesOf eventBlock ->
                   startsWith line "DTSTART" = false) ->
  Feed.parseEventBlock newDate eventBlock = None
  /\ Feed.parseEventBlock_stable newDate eventBlock = None.
Proof.
  intros Hlines.
  assert (forall unescape,
            Feed.parseEventBlockWith newDate unescape eventBlock = None)
    as Hnone; [|by split; apply Hnone].
  intros unescape. unfold Feed.parseEventBlockWith, parseEventBlock_finish.
  destruct Hlines as [Hlines|Hlines].
  - rewrite (foldl_readLine_keeps raw_title
               (fun line => startsWith line "SUMMARY:")); [done| |done].
    intros ev line. apply readLine_title.
  - rewrite (foldl_readLine_keeps raw_startTime
               (fun line => startsWith line "DTSTART")); [|by
      intros ev line; apply readLine_startTime|done].
    simpl. by destruct (raw_title _).
Qed.

Lemma block_without_title_or_start_dropped_witness :
  let eventBlock :=
    NL +:+ "UID:b2@benchapp.com" +:+ NL +:+ "DTSTART:20231121T210000" +:+ NL in
  Feed.parseEventBlock clockOfDay eventBlock = None
  /\ Feed.parseEventBlock_stable clockOfDay eventBlock = None.
Proof.
  apply block_without_title_or_start_dropped. left. intros line Hline.
  vm_compute in Hline.
  repeat (apply elem_of_cons in Hline as [->|Hline]; [reflexivity|]).
  by apply elem_of_nil in Hline.
Defined.

(** *** Time stamps *)

Lemma digitChar_spec (d : Z) :
  0 <= d < 10 ->
  isDigit (digitChar d) = true /\ Z.of_N (N_of_ascii (digitChar d)) - 48 = d.
Proof.
  intros Hd.
  assert (d = 0 \/ d = 1 \/ d = 2 \/ d = 3 \/ d = 4 \/ d = 5 \/ d = 6 \/ d = 7
          \/ d = 8 \/ d = 9) as Hcases by lia.
  repeat (destruct Hcases as [->|Hcases]; [by split|]). by subst.
Qed.

Lemma stampAt_not_digit (c : ascii) (s : string) :
  isDigit c = false -> stampAt (String c s) = false.
Proof.
  intros Hc. unfold stampAt. cbn [takeChars allChars]. rewrite Hc. simpl.
  by rewrite andb_false_r.
Qed.

Lemma matchStamp_skip (pre s : string) :
  allChars notDigit pre = true -> matchStamp (pre +:+ s) = matchStamp s.
Proof.
  induction pre as [|c pre IH]; [done|].
  intros [Hc Hpre]%andb_true_iff. apply negb_true_iff in Hc.
  rewrite append_cons. cbn [matchStamp].
  rewrite (stampAt_not_digit _ _ Hc). by apply IH.
Qed.

Lemma stampAt_stamp (y1 y2 y3 y4 m1 m2 d1 d2 h1 h2 i1 i2 s1 s2 : ascii)
    (rest : string) :
  isDigit y1 = true -> isDigit y2 = true -> isDigit y3 = true ->
  isDigit y4 = true -> isDigit m1 = true -> isDigit m2 = true ->
  isDigit d1 = true -> isDigit d2 = true -> isDigit h1 = true ->
  isDigit h2 = true -> isDigit i1 = true -> isDigit i2 = true ->
  isDigit s1 = true -> isDigit s2 = true ->
  stampAt
    (String y1 (String y2 (String y3 (String y4 (String m1 (String m2
      (String d1 (String d2 (String "T" (String h1 (String h2 (String i1
        (String i2 (String s1 (String s2 rest)))))))))))))))
  = true.
Proof.
  intros Hy1 Hy2 Hy3 Hy4 Hm1 Hm2 Hd1 Hd2 Hh1 Hh2 Hi1 Hi2 Hs1 Hs2.
  unfold stampAt.
  cbn [takeChars dropChars allChars String.length Nat.eqb].
  rewrite Hy1, Hy2, Hy3, Hy4, Hm1, Hm2, Hd1, Hd2, Hh1, Hh2, Hi1, Hi2, Hs1, Hs2.
  by rewrite startsWith_cons, startsWith_nil, bool_decide_eq_true_2.
Qed.

(** X14: [parseICSDateTime] reads a stamp [YYYYMMDDTHHMMSS] back field by
    field, whatever text without digits stands before it (the property name
    and its parameters) and whatever follows, and hands the month to [Date]
    counted from zero. *)
Theorem parseICSDateTime_reads_stamp
    (newDate : Z -> Z -> Z -> Z -> Z -> Z -> Z) (name rest : string)
    (year month day hour minute second : Z) :
  allChars notDigit name = true ->
  0 <= year < 10000 -> 0 <= month < 100 -> 0 <= day < 100 ->
  0 <= hour < 100 -> 0 <= minute < 100 -> 0 <= second < 100 ->
  Feed.parseICSDateTime newDate
    (name +:+ icsStamp year month day hour minute second +:+ rest)
  = Some (newDate year (month - 1) day hour minute second).
Proof.
  intros Hname Hy Hmo Hd Hh Hmi Hs. unfold Feed.parseICSDateTime.
  rewrite matchStamp_skip by done.
  unfold icsStamp, pad4, pad2.
  repeat (rewrite ?append_cons, ?append_nil_l).
  destruct (digitChar_spec (year / 1000)) as [Ey1 Vy1];
    [Z.div_mod_to_equations; lia|].
  destruct (digitChar_spec (year / 100 mod 10)) as [Ey2 Vy2];
    [Z.div_mod_to_equations; lia|].
  destruct (digitChar_spec (year / 10 mod 10)) as [Ey3 Vy3];
    [Z.div_mod_to_equations; lia|].
  destruct (digitChar_spec (year mod 10)) as [Ey4 Vy4];
    [Z.div_mod_to_equations; lia|].
  destruct (digitChar_spec (month / 10)) as [Em1 Vm1];
    [Z.div_mod_to_equations; lia|].
  destruct (digitChar_spec (month mod 10)) as [Em2 Vm2];
    [Z.div_mod_to_equations; lia|].
  destruct (digitChar_spec (day / 10)) as [Ed1 Vd1];
    [Z.div_mod_to_equations; lia|].
  destruct (digitChar_spec (day mod 10)) as [Ed2 Vd2];
    [Z.div_mod_to_equations; lia|].
  destruct (digitChar_spec (hour / 10)) as [Eh1 Vh1];
    [Z.div_mod_to_equations; lia|].
  destruct (digitChar_spec (hour mod 10)) as [Eh2 Vh2];
    [Z.div_mod_to_equations; lia|].
  destruct (digitChar_spec (minute / 10)) as [Ei1 Vi1];
    [Z.div_mod_to_equations; lia|].
  destruct (digitChar_spec (minute mod 10)) as [Ei2 Vi2];
    [Z.div_mod_to_equations; lia|].
  destruct (digitChar_spec (second / 10)) as [Es1 Vs1];
    [Z.div_mod_to_equations; lia|].
  destruct (digitChar_spec (second mod 10)) as [Es2 Vs2];
    [Z.div_mod_to_equations; lia|].
  cbn [matchStamp]. rewrite stampAt_stamp by done.
  unfold substring, parseInt.
  cbn [Nat.sub takeChars dropChars parseDigits].
  rewrite Vy1, Vy2, Vy3, Vy4, Vm1, Vm2, Vd1, Vd2, Vh1, Vh2, Vi1, Vi2, Vs1, Vs2.
  f_equal. f_equal; Z.div_mod_to_equations; lia.
Qed.

Lemma parseICSDateTime_reads_stamp_witness :
  Feed.parseICSDateTime clockOfDay
    ("DTSTART;TZID=America/Toronto:" +:+ icsStamp 2023 11 14 22 13 20 +:+ "Z")
  = Some (clockOfDay 2023 (11 - 1) 14 22 13 20).
Proof.
  apply parseICSDateTime_reads_stamp; first [reflexivity | lia].
Defined.

(** *** Locations *)

Lemma replacePair_absent (a b r : ascii) (s : string) :
  allChars (fun c => negb (Ascii.eqb c a)) s = true ->
  replacePair a b r s = s.
Proof.
  induction s as [|x t IH]; [done|].
  intros [Hx Ht]%andb_true_iff. apply negb_true_iff in Hx.
  cbn [replacePair]. destruct t as [|y s']; [done|].
  rewrite Hx. cbn [andb]. f_equal. by apply IH.
Qed.

Lemma cleanLocationString_plain (location : string) :
  allChars notBackslash location = true ->
  cleanLocationString location = trim location.
Proof.
  intros Hplain. unfold cleanLocationString.
  destruct location as [|c s]; [done|]. cbn [truthy isEmpty negb].
  rewrite (replacePair_absent BACKSLASH "n") by exact Hplain.
  rewrite (replacePair_absent BACKSLASH ",") by exact Hplain.
  rewrite (replacePair_absent BACKSLASH BACKSLASH) by exact Hplain.
  by rewrite (replacePair_absent BACKSLASH ";") by exact Hplain.
Qed.

Lemma allChars_trimStart (f : ascii -> bool) (s : string) :
  allChars f s = true -> allChars f (trimStart s) = true.
Proof.
  induction s as [|c s IH]; [done|]. intros Hs. cbn [trimStart].
  destruct (isWhiteSpace c); [|done].
  apply IH. by apply andb_true_iff in Hs as [_ ?].
Qed.

Lemma allChars_trimEnd (f : ascii -> bool) (s : string) :
  allChars f s = true -> allChars f (trimEnd s) = true.
Proof.
  induction s as [|c s IH]; [done|].
  intros [Hc Hs]%andb_true_iff. cbn [trimEnd].
  specialize (IH Hs). destruct (trimEnd s) as [|d r].
  - destruct (isWhiteSpace c); [done|]. cbn [allChars]. by rewrite Hc.
  - cbn [allChars] in *. by rewrite Hc.
Qed.

Lemma allChars_trim (f : ascii -> bool) (s : string) :
  allChars f s = true -> allChars f (trim s) = true.
Proof. intros Hs. by apply allChars_trimEnd, allChars_trimStart. Qed.

Lemma splitFrom_allChars (f : ascii -> bool) (sep : string) (s : string) :
  forall (skip : nat) (acc : string),
    allChars f acc = true -> allChars f s = true ->
    forall piece, piece ∈ splitFrom sep skip acc s -> allChars f piece = true.
Proof.
  induction s as [|c s IH]; intros skip acc Hacc Hs piece.
  - destruct skip; cbn [splitFrom]; [destruct (startsWith _ _)|];
      by intros ->%list_elem_of_singleton.
  - apply andb_true_iff in Hs as [Hc Hs]. destruct skip as [|k]; cbn [splitFrom].
    + destruct (startsWith _ _).
      * intros [->|Hpiece]%elem_of_cons; [done|]. by apply IH in Hpiece.
      * apply IH; [|done]. rewrite allChars_app, Hacc. cbn [allChars andb].
        by rewrite Hc.
    + by apply IH.
Qed.

Lemma linesOf_allChars (f : ascii -> bool) (eventBlock line : string) :
  allChars f eventBlock = true -> line ∈ Feed.linesOf eventBlock ->
  allChars f line = true.
Proof.
  intros Hblock. unfold Feed.linesOf.
  intros [_ (piece & -> & Hpiece)%list_elem_of_fmap]%list_elem_of_filter.
  apply allChars_trim. by apply (splitFrom_allChars f) in Hpiece.
Qed.

Lemma readLine_plain (newDate : Z -> Z -> Z -> Z -> Z -> Z -> Z)
    (ev : RawEvent) (line : string) :
  allChars notBackslash line = true ->
  Feed.readLine newDate cleanLocationString ev line
  = Feed.readLine newDate (fun rawLocation => rawLocation) ev line.
Proof.
  intros Hline. unfold Feed.readLine.
  rewrite cleanLocationString_plain
    by (by apply allChars_trim, allChars_dropChars).
  by rewrite trim_idempotent.
Qed.

Lemma foldl_readLine_plain (newDate : Z -> Z -> Z -> Z -> Z -> Z -> Z)
    (lines : list string) (ev : RawEvent) :
  (forall line, line ∈ lines -> allChars notBackslash line = true) ->
  foldl (Feed.readLine newDate cleanLocationString) ev lines
  = foldl (Feed.readLine newDate (fun rawLocation => rawLocation)) ev lines.
Proof.
  revert ev. induction lines as [|line lines IH]; intros ev Hlines; [done|].
  cbn [foldl]. rewrite readLine_plain by (apply Hlines; by left).
  apply IH. intros l Hl. apply Hlines. by right.
Qed.

(** X15: on a location without a backslash [cleanLocationString] does
    nothing but trim, and cleaning the result again changes nothing. *)
Theorem cleanLocationString_without_escape (location : string) :
  allChars notBackslash location = true ->
  cleanLocationString location = trim location
  /\ cleanLocationString (cleanLocationString location)
     = cleanLocationString location.
Proof.
  intros Hplain. rewrite (cleanLocationString_plain location) by done.
  split; [done|].
  rewrite cleanLocationString_plain by (by apply allChars_trim).
  apply trim_idempotent.
Qed.

Lemma cleanLocationString_without_escape_witness :
  cleanLocationString "  Rink A, North St " = trim "  Rink A, North St "
  /\ cleanLocationString (cleanLocationString "  Rink A, North St ")
     = cleanLocationString "  Rink A, North St ".
Proof. apply cleanLocationString_without_escape. reflexivity. Defined.

(** X16: the two versions of [parseEventBlock] return the same event, with
    the same stable UID, for every block that holds no backslash: the
    unescaping of the location that the clean version added changes nothing
    for such a feed. *)
Theorem parseEventBlock_versions_agree
    (newDate : Z -> Z -> Z -> Z -> Z -> Z -> Z) (eventBlock : string) :
  allChars notBackslash eventBlock = true ->
  Feed.parseEventBlock newDate eventBlock
  = Feed.parseEventBlock_stable newDate eventBlock.
Proof.
  intros Hblock.
  unfold Feed.parseEventBlock, Feed.parseEventBlock_stable,
    Feed.parseEventBlockWith.
  rewrite foldl_readLine_plain; [done|].
  intros line. by apply linesOf_allChars.
Qed.

Lemma parseEventBlock_versions_agree_witness :
  let eventBlock :=
    NL +:+ "SUMMARY:Practice" +:+ NL +:+ "DTSTART:20231114T221320" +:+ NL
    +:+ "LOCATION: Rink A" +:+ NL in
  Feed.parseEventBlock clockOfDay eventBlock
  = Feed.parseEventBlock_stable clockOfDay eventBlock.
Proof. apply parseEventBlock_versions_agree. reflexivity. Defined.

(** ** Removing duplicates by hand *)

Example cleanup_sample :
  cleanupDuplicateEvents [syncedPractice; dentist; practiceCopy; legacyDrill]
  = mkCleanup [1%nat; 2%nat] 2.
Proof. vm_compute. reflexivity. Qed.

Lemma forEachIdx_snoc {A R : Type} (f : R -> nat -> A -> R) (i : nat)
    (l : list A) (x : A) (r : R) :
  forEachIdx f i (l ++ [x]) r = f (forEachIdx f i l r) (i + length l)%nat x.
Proof.
  revert i r. induction l as [|y l IH]; intros i r; simpl.
  - by rewrite Nat.add_0_r.
  - rewrite IH. by rewrite Nat.add_succ_r.
Qed.

Lemma removedFrom_snoc (test : CalendarEvent -> bool) (i : nat)
    (ts : list CalendarEvent) (t : CalendarEvent) :
  removedFrom test i (ts ++ [t])
  = removedFrom test i ts ++ (if test t then [(i + length ts)%nat] else []).
Proof.
  revert i. induction ts as [|t' ts IH]; intros i; simpl.
  - rewrite Nat.add_0_r. by destruct (test t).
  - rewrite IH, Nat.add_succ_r. by destruct (test t').
Qed.

Lemma tail_removedFrom (test : CalendarEvent -> bool) (a : nat)
    (ts : list CalendarEvent) (i : nat) :
  i ∈ tail (removedFrom test a ts) <->
  i ∈ removedFrom test a ts
  /\ exists j, (j < i)%nat /\ j ∈ removedFrom test a ts.
Proof.
  revert a. induction ts as [|t ts IH]; intros a; simpl.
  - rewrite elem_of_nil. split; [done|]. by intros [? _].
  - destruct (test t); [|apply IH]. simpl. split.
    + intros Hi. pose proof (removedFrom_ge _ _ _ _ Hi). split; [by right|].
      exists a. split; [lia|by left].
    + intros [[->|Hi]%elem_of_cons (j & Hlt & Hj)]; [|done].
      apply elem_of_cons in Hj as [->|Hj]; [lia|].
      apply removedFrom_ge in Hj. lia.
Qed.

Lemma pushGroup_keys (key : string) (i : nat)
    (groups : list (string * list nat)) :
  (pushGroup key i groups).*1
  = if bool_decide (key ∈ groups.*1) then groups.*1 else groups.*1 ++ [key].
Proof.
  induction groups as [|[k events] groups IH]; [done|].
  cbn [pushGroup]. destruct (decide (k = key)) as [->|Hne].
  - rewrite (bool_decide_eq_true_2 (key = key)) by done.
    rewrite bool_decide_eq_true_2; [done|]. rewrite fmap_cons. by left.
  - rewrite (bool_decide_eq_false_2 (k = key)) by done.
    rewrite !fmap_cons, IH. cbn [fst].
    destruct (decide (key ∈ groups.*1)) as [Hin|Hout].
    + rewrite !bool_decide_eq_true_2; [done|by right|done].
    + rewrite !bool_decide_eq_false_2; [done| |done].
      intros [->|?]%elem_of_cons; done.
Qed.

Lemma keyIs_true (k : string) (t : CalendarEvent) :
  keyIs k t = true <-> duplicateKey t = k.
Proof. unfold keyIs. apply bool_decide_eq_true. Qed.

Lemma removedFrom_other_key (k : string) (E : list CalendarEvent)
    (t : CalendarEvent) :
  k <> duplicateKey t ->
  removedFrom (keyIs k) 0 (E ++ [t]) = removedFrom (keyIs k) 0 E.
Proof.
  intros Hk. rewrite removedFrom_snoc. unfold keyIs at 2.
  rewrite bool_decide_eq_false_2 by done. by rewrite app_nil_r.
Qed.

Lemma removedFrom_this_key (E : list CalendarEvent) (t : CalendarEvent) :
  removedFrom (keyIs (duplicateKey t)) 0 (E ++ [t])
  = removedFrom (keyIs (duplicateKey t)) 0 E ++ [length E].
Proof.
  rewrite removedFrom_snoc. unfold keyIs at 2.
  by rewrite bool_decide_eq_true_2.
Qed.

Lemma pushGroup_Forall (E : list CalendarEvent) (t : CalendarEvent)
    (groups : list (string * list nat)) :
  NoDup groups.*1 ->
  Forall (fun g => g.2 = removedFrom (keyIs g.1) 0 E /\ g.2 <> []) groups ->
  (duplicateKey t ∉ groups.*1 ->
   removedFrom (keyIs (duplicateKey t)) 0 E = []) ->
  Forall (fun g => g.2 = removedFrom (keyIs g.1) 0 (E ++ [t]) /\ g.2 <> [])
         (pushGroup (duplicateKey t) (length E) groups).
Proof.
  induction groups as [|[k events] groups IH]; intros Hnodup Hall Habsent.
  - cbn [pushGroup]. apply Forall_singleton. cbn [fst snd].
    rewrite removedFrom_this_key, Habsent by apply not_elem_of_nil. done.
  - rewrite fmap_cons in Hnodup. apply NoDup_cons in Hnodup as [Hk Hnodup].
    apply Forall_cons in Hall as [[Hevents Hne] Hall]. cbn [fst snd] in *.
    cbn [pushGroup]. destruct (decide (k = duplicateKey t)) as [->|Heq].
    + rewrite bool_decide_eq_true_2 by done. apply Forall_cons. split.
      * cbn [fst snd]. rewrite removedFrom_this_key, <- Hevents.
        split; [done|]. by destruct events.
      * apply Forall_forall. intros g Hg.
        rewrite Forall_forall in Hall. destruct (Hall g Hg) as [Hg2 Hgne].
        split; [|done]. rewrite removedFrom_other_key; [done|].
        intros Hsame. apply Hk. rewrite <- Hsame.
        by apply list_elem_of_fmap_2.
    + rewrite bool_decide_eq_false_2 by done. apply Forall_cons. split.
      * cbn [fst snd]. by rewrite removedFrom_other_key.
      * apply IH; [done|done|]. intros Hnot. apply Habsent.
        rewrite fmap_cons. apply not_elem_of_cons. split; [|done].
        cbn [fst]. congruence.
Qed.

Lemma pushGroup_grouped (E : list CalendarEvent) (t : CalendarEvent)
    (groups : list (string * list nat)) :
  Grouped E groups ->
  Grouped (E ++ [t]) (pushGroup (duplicateKey t) (length E) groups).
Proof.
  intros (Hnodup & Hall & Habsent). split_and!.
  - rewrite pushGroup_keys. case_bool_decide as Hin; [done|].
    apply NoDup_app. split_and!; [done| |apply NoDup_singleton].
    intros k Hk ->%list_elem_of_singleton. done.
  - apply pushGroup_Forall; [done|done|apply Habsent].
  - intros k. rewrite pushGroup_keys. intros Hk.
    assert ((k ∉ groups.*1) /\ k <> duplicateKey t) as [Hout Hne].
    { case_bool_decide as Hin.
      - split; [done|]. by intros ->.
      - apply not_elem_of_app in Hk as [? Hk]. split; [done|].
        intros ->. apply Hk. by apply list_elem_of_singleton. }
    rewrite removedFrom_other_key by done. by apply Habsent.
Qed.

Lemma eventGroups_grouped (E : list CalendarEvent) : Grouped E (eventGroups E).
Proof.
  induction E as [|t E IH] using rev_ind.
  - split_and!; [apply NoDup_nil_2|apply Forall_nil_2|done].
  - unfold eventGroups. rewrite forEachIdx_snoc. by apply pushGroup_grouped.
Qed.

Lemma foldl_deleteDuplicate (c : Cleanup) (events : list nat) :
  foldl deleteDuplicate c events
  = mkCleanup (cleaned c ++ events) (duplicatesRemoved c + length events).
Proof.
  revert c. induction events as [|i events IH]; intros c; simpl.
  - rewrite app_nil_r, Nat.add_0_r. by destruct c.
  - rewrite IH. simpl. rewrite <- app_assoc. f_equal. lia.
Qed.

Lemma removeExtra_spec (c : Cleanup) (group : string * list nat) :
  removeExtra c group
  = mkCleanup (cleaned c ++ tail group.2)
              (duplicatesRemoved c + length (tail group.2)).
Proof.
  unfold removeExtra. destruct (1 <? length group.2)%nat eqn:Hlen.
  - apply foldl_deleteDuplicate.
  - apply Nat.ltb_ge in Hlen. destruct group as [k [|i [|j events]]]; simpl in *;
      [| |lia]; rewrite app_nil_r, Nat.add_0_r; by destruct c.
Qed.

Lemma foldl_removeExtra (c : Cleanup) (groups : list (string * list nat)) :
  foldl removeExtra c groups
  = mkCleanup (cleaned c ++ extras groups)
              (duplicatesRemoved c + length (extras groups)).
Proof.
  revert c. induction groups as [|g groups IH]; intros c.
  - simpl. rewrite app_nil_r, Nat.add_0_r. by destruct c.
  - cbn [foldl]. rewrite IH, removeExtra_spec. unfold extras.
    rewrite fmap_cons. cbn [mjoin list_join cleaned duplicatesRemoved].
    by rewrite length_app, <- app_assoc, Nat.add_assoc.
Qed.

Lemma cleanup_unfold (events : list CalendarEvent) :
  let groups := eventGroups (getExistingHockeyEvents events) in
  cleanupDuplicateEvents events
  = mkCleanup (extras groups) (length (extras groups)).
Proof. intros groups. unfold cleanupDuplicateEvents. apply foldl_removeExtra. Qed.

Lemma elem_of_extras (groups : list (string * list nat)) (i : nat) :
  i ∈ extras groups <-> exists g, g ∈ groups /\ i ∈ tail g.2.
Proof.
  unfold extras. rewrite list_elem_of_join. split.
  - intros (l & Hi & (g & -> & Hg)%list_elem_of_fmap). by exists g.
  - intros (g & Hg & Hi). exists (tail g.2). split; [done|].
    by apply (list_elem_of_fmap_2 (fun g => tail g.2)).
Qed.

(** An event is removed exactly when an earlier one has its key. *)
Lemma extras_iff (E : list CalendarEvent) (i : nat) :
  i ∈ extras (eventGroups E) <->
  exists j t t', (j < i)%nat /\ E !! j = Some t' /\ E !! i = Some t
                 /\ duplicateKey t' = duplicateKey t.
Proof.
  destruct (eventGroups_grouped E) as (Hnodup & Hall & Habsent).
  rewrite Forall_forall in Hall. rewrite elem_of_extras. split.
  - intros (g & Hg & Hi). destruct (Hall g Hg) as [Hg2 _].
    rewrite Hg2 in Hi. apply tail_removedFrom in Hi as [Hi (j & Hlt & Hj)].
    apply removedFrom_lookup in Hi as [_ (t & Ht & Hkt)].
    apply removedFrom_lookup in Hj as [_ (t' & Ht' & Hkt')].
    rewrite Nat.sub_0_r in Ht, Ht'.
    apply keyIs_true in Hkt, Hkt'. exists j, t, t'. split_and!; try done.
    congruence.
  - intros (j & t & t' & Hlt & Hj & Hi & Hkey).
    set (k := duplicateKey t).
    assert (i ∈ removedFrom (keyIs k) 0 E) as Hin.
    { apply removedFrom_lookup. split; [lia|]. exists t.
      rewrite Nat.sub_0_r. split; [done|]. by apply keyIs_true. }
    assert (j ∈ removedFrom (keyIs k) 0 E) as Hjn.
    { apply removedFrom_lookup. split; [lia|]. exists t'.
      rewrite Nat.sub_0_r. split; [done|]. by apply keyIs_true. }
    destruct (decide (k ∈ (eventGroups E).*1)) as [Hk|Hk].
    + apply list_elem_of_fmap in Hk as (g & Hg1 & Hg). exists g.
      split; [done|]. destruct (Hall g Hg) as [-> _]. rewrite <- Hg1.
      apply tail_removedFrom. split; [done|]. by exists j.
    + rewrite (Habsent k Hk) in Hin. by apply elem_of_nil in Hin.
Qed.

Lemma NoDup_tail {A : Type} (l : list A) : NoDup l -> NoDup (tail l).
Proof. destruct l; [done|]. by intros [_ ?]%NoDup_cons. Qed.

Lemma elem_of_tail {A : Type} (l : list A) (x : A) : x ∈ tail l -> x ∈ l.
Proof. destruct l; [done|]. by right. Qed.

Lemma NoDup_extras (E : list CalendarEvent) (groups : list (string * list nat)) :
  NoDup groups.*1 ->
  Forall (fun g => g.2 = removedFrom (keyIs g.1) 0 E /\ g.2 <> []) groups ->
  NoDup (extras groups).
Proof.
  induction groups as [|g groups IH]; intros Hnodup Hall; [apply NoDup_nil_2|].
  rewrite fmap_cons in Hnodup. apply NoDup_cons in Hnodup as [Hg Hnodup].
  apply Forall_cons in Hall as [[Hg2 _] Hall].
  unfold extras. rewrite fmap_cons. cbn [mjoin list_join].
  apply NoDup_app. split_and!.
  - apply NoDup_tail. rewrite Hg2. apply NoDup_removedFrom.
  - intros i Hi Hrest. apply elem_of_tail in Hi. rewrite Hg2 in Hi.
    apply removedFrom_lookup in Hi as [_ (t & Ht & Hkt)].
    apply elem_of_extras in Hrest as (g' & Hg' & Hi').
    rewrite Forall_forall in Hall. destruct (Hall g' Hg') as [Hg2' _].
    apply elem_of_tail in Hi'. rewrite Hg2' in Hi'.
    apply removedFrom_lookup in Hi' as [_ (t' & Ht' & Hkt')].
    rewrite Ht in Ht'. injection Ht' as <-.
    apply keyIs_true in Hkt, Hkt'. apply Hg. rewrite <- Hkt, Hkt'.
    by apply list_elem_of_fmap_2.
  - by apply IH.
Qed.

Lemma uint_notBar (d : Decimal.uint) :
  allChars notBar (NilEmpty.string_of_uint d) = true.
Proof. induction d; simpl; done. Qed.

Lemma numberToString_notBar (z : Z) :
  allChars notBar (numberToString z) = true.
Proof.
  unfold numberToString, NilZero.string_of_int, NilZero.string_of_uint.
  destruct (Z.to_int z) as [d|d]; destruct d; try done;
    simpl; apply uint_notBar.
Qed.

Lemma to_int_not_nil (z : Z) :
  Z.to_int z <> Decimal.Pos Decimal.Nil /\ Z.to_int z <> Decimal.Neg Decimal.Nil.
Proof.
  split; intros Hnil; pose proof (DecimalZ.of_to z) as Hz;
    rewrite Hnil in Hz; simpl in Hz; subst z; discriminate.
Qed.

Lemma numberToString_inj (z z' : Z) :
  numberToString z = numberToString z' -> z = z'.
Proof.
  unfold numberToString. intros Heq. apply DecimalZ.to_int_inj.
  destruct (to_int_not_nil z) as [Hp Hn].
  destruct (to_int_not_nil z') as [Hp' Hn'].
  pose proof (NilZero.isi _ Hp Hn) as H1.
  pose proof (NilZero.isi _ Hp' Hn') as H2.
  rewrite Heq in H1. congruence.
Qed.

Lemma append_bar_inj (a b x y : string) :
  allChars notBar x = true -> allChars notBar y = true ->
  a +:+ String "|" x = b +:+ String "|" y -> a = b /\ x = y.
Proof.
  intros Hx Hy. revert b. induction a as [|c a IH]; intros [|d b].
  - rewrite !append_nil_l. by intros [= ->].
  - rewrite append_nil_l, append_cons. intros [= <- ->].
    rewrite allChars_app in Hx. cbn [allChars] in Hx.
    by rewrite andb_false_r in Hx.
  - rewrite append_nil_l, append_cons. intros [= -> <-].
    rewrite allChars_app in Hy. cbn [allChars] in Hy.
    by rewrite andb_false_r in Hy.
  - rewrite !append_cons. intros [= -> [-> ->]%IH]. done.
Qed.

Lemma duplicateKey_inj (t t' : CalendarEvent) :
  duplicateKey t' = duplicateKey t <->
  getTitle t' = getTitle t /\ getStartTime t' = getStartTime t.
Proof.
  unfold duplicateKey. split; [|by intros [-> ->]].
  intros [Htitle Hstart]%append_bar_inj;
    [|apply numberToString_notBar|apply numberToString_notBar].
  split; [done|]. by apply numberToString_inj.
Qed.

(** X17: [cleanupDuplicateEvents] deletes a synced event exactly when an
    earlier synced event has the same title and the same start time: the
    first event of every such group is kept, whatever its location and
    whatever identity it stores. *)
Theorem duplicate_removed_iff (events : list CalendarEvent) (i : nat) :
  let existingEvents := getExistingHockeyEvents events in
  i ∈ cleaned (cleanupDuplicateEvents events) <->
  exists j t t',
    (j < i)%nat /\ existingEvents !! j = Some t' /\ existingEvents !! i = Some t
    /\ getTitle t' = getTitle t /\ getStartTime t' = getStartTime t.
Proof.
  intros existingEvents. rewrite cleanup_unfold. cbn [cleaned].
  rewrite extras_iff. split.
  - intros (j & t & t' & Hlt & Hj & Hi & Hkey%duplicateKey_inj).
    by exists j, t, t'.
  - intros (j & t & t' & Hlt & Hj & Hi & Hkey).
    exists j, t, t'. split_and!; try done. by apply duplicateKey_inj.
Qed.

(** X18: no event is deleted twice by [cleanupDuplicateEvents], every
    deleted position is one of the synced events, and the number it reports
    is the number of events it deleted. *)
Theorem cleanup_counts_deletions (events : list CalendarEvent) :
  let c := cleanupDuplicateEvents events in
  NoDup (cleaned c)
  /\ (forall i, i ∈ cleaned c ->
                (i < length (getExistingHockeyEvents events))%nat)
  /\ duplicatesRemoved c = length (cleaned c).
Proof.
  intros c. unfold c. rewrite cleanup_unfold. cbn [cleaned duplicatesRemoved].
  destruct (eventGroups_grouped (getExistingHockeyEvents events))
    as (Hnodup & Hall & _).
  split_and!; [by eapply NoDup_extras| |done].
  intros i (j & t & t' & _ & _ & Hi & _)%extras_iff.
  by apply lookup_lt_Some in Hi.
Qed.

Lemma aliveFrom_lookup (a : nat) (dead : list nat) (ts : list CalendarEvent)
    (t : CalendarEvent) :
  t ∈ aliveFrom a dead ts <->
  exists i, (a <= i)%nat /\ ts !! (i - a)%nat = Some t /\ i ∉ dead.
Proof.
  revert a. induction ts as [|t' ts IH]; intros a; cbn [aliveFrom].
  - rewrite elem_of_nil. split; [done|]. by intros (i & _ & ? & _).
  - assert (t ∈ aliveFrom (S a) dead ts <->
            exists i, (a < i)%nat /\ (t' :: ts) !! (i - a)%nat = Some t
                      /\ i ∉ dead) as Htail.
    { rewrite IH. split; intros (i & Hle & Hi & Hdead); exists i.
      - split_and!; [lia| |done].
        by replace (i - a)%nat with (S (i - S a)) by lia.
      - split_and!; [lia| |done].
        by replace (i - a)%nat with (S (i - S a)) in Hi by lia. }
    case_bool_decide as Ha.
    + rewrite Htail. split; intros (i & Hle & Hi & Hdead); exists i.
      * split_and!; [lia|done|done].
      * split_and!; [|done|done].
        destruct (decide (i = a)) as [->|]; [done|lia].
    + rewrite elem_of_cons, Htail. split.
      * intros [->|(i & Hle & Hi & Hdead)].
        -- exists a. rewrite Nat.sub_diag. by split_and!.
        -- exists i. split_and!; [lia|done|done].
      * intros (i & Hle & Hi & Hdead).
        destruct (decide (i = a)) as [->|Hne].
        -- rewrite Nat.sub_diag in Hi. left. by injection Hi.
        -- right. exists i. split_and!; [lia|done|done].
Qed.

Lemma NoDup_fmap_aliveFrom {K : Type} (key : CalendarEvent -> K) (a : nat)
    (dead : list nat) (ts : list CalendarEvent) :
  (forall i j t t', (a <= i < j)%nat -> ts !! (i - a)%nat = Some t ->
                    ts !! (j - a)%nat = Some t' -> key t = key t' ->
                    j ∈ dead) ->
  NoDup (key <$> aliveFrom a dead ts).
Proof.
  revert a. induction ts as [|t ts IH]; intros a Hdup; cbn [aliveFrom].
  - apply NoDup_nil_2.
  - assert (NoDup (key <$> aliveFrom (S a) dead ts)) as Hrest.
    { apply IH. intros i j t1 t2 Hij Hi Hj Hkey.
      apply (Hdup i j t1 t2); [lia| | |done].
      - by replace (i - a)%nat with (S (i - S a)) by lia.
      - by replace (j - a)%nat with (S (j - S a)) by lia. }
    case_bool_decide as Ha; [done|].
    rewrite fmap_cons. apply NoDup_cons. split; [|done].
    intros (t' & Hkey & (j & Hle & Hj & Hdead)%aliveFrom_lookup)%list_elem_of_fmap.
    apply Hdead, (Hdup a j t t'); [lia| | |done].
    + by rewrite Nat.sub_diag.
    + by replace (j - a)%nat with (S (j - S a)) by lia.
Qed.

Lemma first_of_key_kept (E : list CalendarEvent) (i : nat) :
  forall t, E !! i = Some t ->
  exists j t', (j <= i)%nat /\ E !! j = Some t'
               /\ duplicateKey t' = duplicateKey t
               /\ j ∉ extras (eventGroups E).
Proof.
  induction (lt_wf i) as [i _ IH]. intros t Hi.
  destruct (decide (i ∈ extras (eventGroups E))) as [Hin|Hout].
  - apply extras_iff in Hin as (j & t1 & t' & Hlt & Hj & Hi' & Hkey).
    rewrite Hi in Hi'. injection Hi' as <-.
    destruct (IH j Hlt t' Hj) as (j0 & t0 & Hle & Hj0 & Hkey0 & Hout).
    exists j0, t0. split_and!; [lia|done|congruence|done].
  - exists i, t. by split_and!.
Qed.

(** X19: after [cleanupDuplicateEvents] the synced events that are left
    differ pairwise in title or start time, and every title and start time
    that was there still is: the clean-up loses no game, and a second
    clean-up finds nothing to delete. *)
Theorem cleanup_leaves_one_of_each (events : list CalendarEvent) :
  let existingEvents := getExistingHockeyEvents events in
  let kept :=
    aliveFrom 0 (cleaned (cleanupDuplicateEvents events)) existingEvents in
  NoDup ((fun t => (getTitle t, getStartTime t)) <$> kept)
  /\ (forall t, t ∈ existingEvents ->
        exists t', t' ∈ kept /\ getTitle t' = getTitle t
                   /\ getStartTime t' = getStartTime t)
  /\ cleanupDuplicateEvents kept = mkCleanup [] 0.
Proof.
  intros E kept. unfold kept. rewrite cleanup_unfold. cbn [cleaned].
  fold E.
  assert (NoDup ((fun t => (getTitle t, getStartTime t))
                   <$> aliveFrom 0 (extras (eventGroups E)) E)) as Hnodup.
  { apply NoDup_fmap_aliveFrom. intros i j t t' Hij Hi Hj [= Htitle Hstart].
    rewrite Nat.sub_0_r in Hi, Hj. apply extras_iff.
    exists i, t', t. split_and!; [lia|done|done|].
    by apply duplicateKey_inj. }
  split_and!.
  - done.
  - intros t (i & Hi)%list_elem_of_lookup_1.
    destruct (first_of_key_kept E i t Hi) as (j & t' & _ & Hj & Hkey & Hout).
    exists t'. apply duplicateKey_inj in Hkey as [Htitle Hstart].
    split_and!; [|done|done].
    apply aliveFrom_lookup. exists j. rewrite Nat.sub_0_r.
    split_and!; [lia|done|done].
  - set (K := aliveFrom 0 (extras (eventGroups E)) E) in *.
    assert (getExistingHockeyEvents K = K) as Hsynced.
    { apply getExisting_all. intros t Ht%elem_of_aliveFrom.
      unfold E, getExistingHockeyEvents in Ht.
      by apply list_elem_of_filter in Ht as [? _]. }
    rewrite cleanup_unfold. cbn zeta. rewrite Hsynced.
    assert (extras (eventGroups K) = []) as ->; [|done].
    apply elem_of_nil_inv. intros i.
    intros (j & t & t' & Hlt & Hj & Hi & Hkey)%extras_iff.
    apply duplicateKey_inj in Hkey as [Htitle Hstart].
    pose proof (proj1 (NoDup_alt _) Hnodup i j (getTitle t, getStartTime t))
      as Hsame.
    rewrite !list_lookup_fmap, Hi, Hj in Hsame. cbn in Hsame.
    rewrite Htitle, Hstart in Hsame. specialize (Hsame eq_refl eq_refl). lia.
Qed.

(** ** What a run reports *)

Lemma stepWith_counts (needs : CalendarEvent -> HockeyEvent -> bool)
    (found : option nat * bool) (r : Run) (e : HockeyEvent) :
  let r' := stepWith needs found r e in
  (length (created r') + added (results r)
   = length (created r) + added (results r'))%nat
  /\ (updated (results r) <= updated (results r'))%nat
  /\ (migrated (results r) <= migrated (results r'))%nat
  /\ ((updated (results r') + migrated (results r')
       = updated (results r) + migrated (results r))%nat ->
      existing r' = existing r).
Proof.
  unfold stepWith. destruct found as [[i|] b].
  - destruct (existing r !! i) as [t|]; [|by split_and!].
    destruct b; [|destruct (needs t e)]; simpl; split_and!; try done; lia.
  - simpl. rewrite length_app. simpl. split_and!; try done. lia.
Qed.

Lemma pass_counts (needs : CalendarEvent -> HockeyEvent -> bool)
    (find : HockeyEvent -> option nat * bool) (es : list HockeyEvent)
    (r : Run) :
  let r' := pass needs find r es in
  (length (created r') + added (results r)
   = length (created r) + added (results r'))%nat
  /\ (updated (results r) <= updated (results r'))%nat
  /\ (migrated (results r) <= migrated (results r'))%nat
  /\ ((updated (results r') + migrated (results r')
       = updated (results r) + migrated (results r))%nat ->
      existing r' = existing r).
Proof.
  induction es as [|e es IH] using rev_ind; [by split_and!|].
  rewrite pass_snoc. destruct IH as (IH1 & IH2 & IH3 & IH4).
  destruct (stepWith_counts needs (find e) (pass needs find r es) e)
    as (H1 & H2 & H3 & H4).
  simpl. split_and!; [lia|lia|lia|].
  intros Hsame. rewrite H4 by lia. apply IH4. lia.
Qed.

Lemma quiet_run (needs : CalendarEvent -> HockeyEvent -> bool)
    (find : HockeyEvent -> option nat * bool) (test : CalendarEvent -> bool)
    (es : list HockeyEvent) (ts : list CalendarEvent) :
  let r := pass needs find (startRun ts) es in
  let gone := removedFrom test 0 (existing r) in
  (forall e i b, find e = (Some i, b) -> (i < length ts)%nat) ->
  added (results r) = O -> updated (results r) = O ->
  migrated (results r) = O -> (removed (results r) + length gone)%nat = O ->
  existing r = ts /\ created r = [] /\ deleted r ++ gone = [].
Proof.
  intros r gone Hvalid Hadded Hupdated Hmigrated Hremoved.
  destruct (pass_counts needs find es (startRun ts)) as (H1 & _ & _ & H4).
  destruct (pass_spec needs find (length ts) Hvalid (startRun ts) es eq_refl)
    as (_ & Hdeleted & _).
  fold r in H1, H4, Hdeleted. simpl in H1, H4, Hdeleted.
  split_and!.
  - apply H4. lia.
  - apply length_zero_iff_nil. lia.
  - rewrite Hdeleted. apply length_zero_iff_nil. simpl. lia.
Qed.

Lemma changesDetected_false (r : Results) :
  changesDetected r = false <-> added r = O /\ updated r = O /\ removed r = O.
Proof.
  unfold changesDetected. rewrite !orb_false_iff, !Nat.ltb_ge. lia.
Qed.

(** X20: when a run of the clean [syncHockeyCalendar] reports "No changes
    needed", it made none: no event was created, none deleted, and every
    existing event reads as before. *)
Theorem no_change_reported_none_made (S : list HockeyEvent)
    (T : list CalendarEvent) :
  let r := Clean.processEvents S T in
  changesDetected (results r) = false ->
  existing r = T /\ created r = [] /\ deleted r = []
  /\ calendarAfter r = T.
Proof.
  intros r. unfold r. rewrite Clean_processEvents_pass. cbn zeta.
  set (r1 := pass Clean.needsUpdate (cleanFind T) (startRun T) S).
  intros (Hadded & Hupdated & Hremoved)%changesDetected_false.
  cbn [results added updated removed] in Hadded, Hupdated, Hremoved.
  destruct (quiet_run Clean.needsUpdate (cleanFind T)
              (Clean.shouldRemove (hockeyEventMap S)) S T (cleanFind_valid T))
    as (Hexisting & Hcreated & Hdeleted); try done.
  { unfold r1. by rewrite (pass_no_migration _ _ (cleanFind T)). }
  fold r1 in Hexisting, Hcreated, Hdeleted.
  unfold calendarAfter. cbn [existing created deleted].
  rewrite Hexisting, Hcreated, Hdeleted in *. split_and!; try done.
  by rewrite aliveFrom_nil, app_nil_r.
Qed.

Lemma no_change_reported_none_made_witness :
  let r := Clean.processEvents [practice] [syncedPractice] in
  existing r = [syncedPractice] /\ created r = [] /\ deleted r = []
  /\ calendarAfter r = [syncedPractice].
Proof.
  apply (no_change_reported_none_made [practice] [syncedPractice]).
  vm_compute. reflexivity.
Defined.

(** The same report of the stable-UID version can be wrong: a run that only
    migrates counts no addition, no update and no removal, and has rewritten
    an event. *)
Example stable_migration_reported_as_no_change :
  let r := StableUID.processEventsWithStableUIDs [drill] [legacyDrill] in
  changesDetected (results r) = false
  /\ migrated (results r) = 1%nat
  /\ existing r <> [legacyDrill].
Proof. vm_compute. split_and!; [done|done|discriminate]. Qed.

(** X21: in the stable-UID version, a run that reports "No changes needed"
    and counts no migration made no change. *)
Theorem stable_no_change_without_migration (S : list HockeyEvent)
    (T : list CalendarEvent) :
  let r := StableUID.processEventsWithStableUIDs S T in
  changesDetected (results r) = false ->
  migrated (results r) = O ->
  existing r = T /\ created r = [] /\ deleted r = []
  /\ calendarAfter r = T.
Proof.
  intros r. unfold r. rewrite StableUID_processEvents_unfold. cbn zeta.
  set (r1 := pass StableUID.needsUpdate (stableFind T) (startRun T) S).
  intros (Hadded & Hupdated & Hremoved)%changesDetected_false Hmigrated.
  cbn [results added updated removed migrated]
    in Hadded, Hupdated, Hremoved, Hmigrated.
  destruct (quiet_run StableUID.needsUpdate (stableFind T)
              (StableUID.shouldRemove (hockeyEventMap S)) S T (stableFind_valid T))
    as (Hexisting & Hcreated & Hdeleted); try done.
  fold r1 in Hexisting, Hcreated, Hdeleted.
  unfold calendarAfter. cbn [existing created deleted].
  rewrite Hexisting, Hcreated, Hdeleted in *. split_and!; try done.
  by rewrite aliveFrom_nil, app_nil_r.
Qed.

Lemma stable_no_change_without_migration_witness :
  let r := StableUID.processEventsWithStableUIDs [drill]
             [createEvent drill] in
  existing r = [createEvent drill] /\ created r = [] /\ deleted r = []
  /\ calendarAfter r = [createEvent drill].
Proof.
  apply (stable_no_change_without_migration [drill] [createEvent drill]);
    vm_compute; reflexivity.
Defined.

(** ** Triggers *)

Lemma foldl_deleteIfSync (triggers : list Trigger) (st : list Trigger * nat) :
  foldl deleteIfSync st triggers
  = (st.1 ++ filter (fun t => isOtherTrigger t = true) triggers,
     (st.2 + length (filter (fun t => isSyncTrigger t = true) triggers))%nat).
Proof.
  revert st. induction triggers as [|t triggers IH]; intros [kept n].
  - simpl. by rewrite app_nil_r, Nat.add_0_r.
  - cbn [foldl]. rewrite IH. unfold deleteIfSync.
    destruct (isSyncTrigger t) eqn:Ht; cbn [fst snd].
    + rewrite (filter_cons_True (fun t => isSyncTrigger t = true)) by done.
      rewrite (filter_cons_False (fun t => isOtherTrigger t = true))
        by (unfold isOtherTrigger; by rewrite Ht).
      cbn [length]. f_equal. lia.
    + rewrite (filter_cons_False (fun t => isSyncTrigger t = true))
        by (by rewrite Ht).
      rewrite (filter_cons_True (fun t => isOtherTrigger t = true))
        by (unfold isOtherTrigger; by rewrite Ht).
      by rewrite <- app_assoc.
Qed.

Lemma filter_sync_others (triggers : list Trigger) :
  filter (fun t => isSyncTrigger t = true)
         (filter (fun t => isOtherTrigger t = true) triggers) = [].
Proof.
  induction triggers as [|t triggers IH]; [done|].
  destruct (isSyncTrigger t) eqn:Ht.
  - by rewrite (filter_cons_False (fun t => isOtherTrigger t = true))
      by (unfold isOtherTrigger; by rewrite Ht).
  - rewrite (filter_cons_True (fun t => isOtherTrigger t = true))
      by (unfold isOtherTrigger; by rewrite Ht).
    by rewrite (filter_cons_False (fun t => isSyncTrigger t = true))
      by (by rewrite Ht).
Qed.

Lemma filter_others_others (triggers : list Trigger) :
  filter (fun t => isOtherTrigger t = true)
         (filter (fun t => isOtherTrigger t = true) triggers)
  = filter (fun t => isOtherTrigger t = true) triggers.
Proof.
  induction triggers as [|t triggers IH]; [done|].
  destruct (isOtherTrigger t) eqn:Ht.
  - rewrite !(filter_cons_True (fun t => isOtherTrigger t = true)) by done.
    by rewrite IH.
  - by rewrite (filter_cons_False (fun t => isOtherTrigger t = true))
      by (by rewrite Ht).
Qed.

(** X22: [setupTriggers] never stacks sync triggers and never touches
    another trigger.  Whatever triggers the project had, the triggers of other
    handlers are all still there, in order; the counter is the number of sync
    triggers there were; and the project ends with exactly one sync trigger
    when the new one could be created ([getSyncStatus] then reports an
    active trigger, and the verification logs 1), with none when its creation
    failed. *)
Theorem setupTriggers_leaves_one (triggers : list Trigger)
    (newTrigger : Outcome string) (lastSync : option string) :
  let s := setupTriggers triggers newTrigger in
  let syncTriggers t := filter (fun t => isSyncTrigger t = true) t in
  filter (fun t => isOtherTrigger t = true) (projectTriggers s)
  = filter (fun t => isOtherTrigger t = true) triggers
  /\ deletedCount s = length (syncTriggers triggers)
  /\ match newTrigger with
     | Returned uniqueId =>
         syncTriggers (projectTriggers s)
         = [mkTrigger "syncHockeyCalendar" uniqueId]
         /\ verified s = Some 1%nat
         /\ (getSyncStatus lastSync (projectTriggers s)).2 = true
     | Thrown _ =>
         syncTriggers (projectTriggers s) = []
         /\ verified s = None
         /\ (getSyncStatus lastSync (projectTriggers s)).2 = false
     end.
Proof.
  intros s syncTriggers. unfold s, setupTriggers, getSyncStatus, syncTriggers.
  rewrite foldl_deleteIfSync. cbn [fst snd app Nat.add].
  destruct newTrigger as [uniqueId|error]; cbn [projectTriggers deletedCount verified].
  - rewrite !filter_app, filter_others_others, filter_sync_others.
    split_and!; try done. apply app_nil_r.
  - rewrite filter_others_others, filter_sync_others. by split_and!.
Qed.

(** ** The original script *)

Lemma Original_matchMarkerRest_eq (s : string) :
  Original.matchMarkerRest s
  = match (if startsWith s MARKER
           then Original.captureRest (dropChars (String.length MARKER) s)
           else None) with
    | Some group => Some group
    | None =>
        match s with
        | EmptyString => None
        | String _ s' => Original.matchMarkerRest s'
        end
    end.
Proof. by destruct s. Qed.

(** A leftmost search for the marker passes over a marker-free text and the
    blank line after it. *)
Lemma marker_search_skips (search : string -> option string)
    (capture : string -> option string) (d rest : string) :
  (forall s, search s
             = match (if startsWith s MARKER
                      then capture (dropChars (String.length MARKER) s)
                      else None) with
               | Some group => Some group
               | None => match s with
                         | EmptyString => None
                         | String _ s' => search s'
                         end
               end) ->
  includes d MARKER = false ->
  forall group, capture rest = Some group ->
  search (d +:+ LFLF +:+ MARKER +:+ rest) = Some group.
Proof.
  intros Heq Hd group Hgroup. induction d as [|c d IH].
  - change (EmptyString +:+ LFLF +:+ MARKER +:+ rest)
      with (String LF (String LF (MARKER +:+ rest))).
    rewrite Heq.
    change (startsWith (String LF (String LF (MARKER +:+ rest))) MARKER)
      with false. cbv iota.
    rewrite Heq.
    change (startsWith (String LF (MARKER +:+ rest)) MARKER) with false.
    cbv iota. by rewrite Heq, startsWith_app, dropChars_app, Hgroup.
  - rewrite Heq.
    change (String c d +:+ LFLF +:+ MARKER +:+ rest)
      with (String c d +:+ String LF (String LF (MARKER +:+ rest))) at 1.
    rewrite (startsWith_before LF) by apply MARKER_no_LF.
    rewrite (startsWith_of_includes_false _ _ Hd).
    rewrite append_cons. apply IH. by apply includes_false_tail in Hd.
Qed.

Lemma takeWhile_token_line (u : string) :
  tokenLike u = true ->
  takeWhile (fun c => negb (isLineTerminator c)) u = u.
Proof.
  intros [_ Hu]%andb_true_iff. apply takeWhile_all.
  eapply allChars_impl; [|exact Hu].
  intros c Hc. unfold notWhiteSpace in Hc. apply negb_true_iff in Hc.
  apply negb_true_iff, not_true_is_false. intros Hlt.
  by rewrite (lineTerminator_whiteSpace _ Hlt) in Hc.
Qed.

Lemma Original_captureRest_token (u : string) :
  tokenLike u = true -> Original.captureRest u = Some u.
Proof.
  intros Hu. unfold Original.captureRest. rewrite takeWhile_token_line by done.
  apply andb_true_iff in Hu as [Hu _]. by destruct u.
Qed.

Lemma captureToken_bare (u : string) :
  tokenLike u = true -> captureToken u = Some u.
Proof.
  intros Hu. pose proof Hu as [Ht Hchars]%andb_true_iff. unfold captureToken.
  rewrite trimStart_token by done.
  fold notWhiteSpace. rewrite takeWhile_all by done.
  by destruct u.
Qed.

(** X23: the identity marker is read alike by every version of the script.
    For a source event whose UID is a token and whose description does not
    hold the marker text, the description the original script stores is read
    back to that UID by the extractor of the original script, of the
    stable-UID version and of the clean version; and the description the later
    versions store is read back to it by the extractor of the original
    script. *)
Theorem marker_read_across_versions (e : HockeyEvent) :
  sourceOK e = true ->
  Original.extractUIDFromDescription (Original.newDescription e) = Some (uid e)
  /\ Clean.extractUIDFromDescription (Original.newDescription e) = Some (uid e)
  /\ StableUID.extractUIDFromDescription (Original.newDescription e)
     = Some (uid e)
  /\ Original.extractUIDFromDescription (newDescription e) = Some (uid e).
Proof.
  intros [Hu Hd]%andb_true_iff.
  pose proof Hu as [Htruthy Hchars]%andb_true_iff.
  assert (includes (orEmpty (description e)) MARKER = false) as Hfree
    by (by apply negb_true_iff in Hd).
  assert (matchMarkerToken (Original.newDescription e) = Some (uid e)) as Hnew.
  { apply (marker_search_skips matchMarkerToken captureToken);
      [apply matchMarkerToken_eq|done|by apply captureToken_bare]. }
  assert (truthy (Original.newDescription e) = true) as Hfull.
  { unfold Original.newDescription. rewrite !truthy_app_r; done. }
  split_and!.
  - unfold Original.extractUIDFromDescription, Original.newDescription.
    rewrite (marker_search_skips Original.matchMarkerRest Original.captureRest
               _ _ Original_matchMarkerRest_eq Hfree (uid e))
      by (by apply Original_captureRest_token).
    by rewrite (trim_token (uid e)).
  - unfold Clean.extractUIDFromDescription. rewrite Hfull, Hnew. cbn [negb].
    by rewrite (trim_token (uid e)).
  - unfold StableUID.extractUIDFromDescription. rewrite Hfull, Hnew. cbn [negb].
    by rewrite (trim_token (uid e)).
  - unfold Original.extractUIDFromDescription.
    assert (Original.captureRest (String " " (uid e))
            = Some (String " " (uid e))) as Hrest.
    { unfold Original.captureRest. cbn [takeWhile isLineTerminator].
      change (negb (isLineTerminator " ")) with true. cbv iota.
      by rewrite takeWhile_token_line. }
    assert (trim (String " " (uid e)) = uid e) as Htrim.
    { unfold trim. cbn [trimStart]. change (isWhiteSpace " ") with true.
      cbv iota. by apply trim_token. }
    destruct (newDescription_cases e) as [[_ ->]|[_ ->]].
    + rewrite Original_matchMarkerRest_eq.
      change ("Hockey-UID: " +:+ uid e) with (MARKER +:+ String " " (uid e)).
      by rewrite startsWith_app, dropChars_app, Hrest, Htrim.
    + change ("Hockey-UID: " +:+ uid e) with (MARKER +:+ String " " (uid e)).
      rewrite (marker_search_skips Original.matchMarkerRest Original.captureRest
                 _ _ Original_matchMarkerRest_eq
                 (markerFree_trim e Hd) _ Hrest).
      by rewrite Htrim.
Qed.

Lemma marker_read_across_versions_witness :
  Original.extractUIDFromDescription (Original.newDescription drill)
  = Some (uid drill)
  /\ Clean.extractUIDFromDescription (Original.newDescription drill)
     = Some (uid drill)
  /\ StableUID.extractUIDFromDescription (Original.newDescription drill)
     = Some (uid drill)
  /\ Original.extractUIDFromDescription (newDescription drill)
     = Some (uid drill).
Proof. apply marker_read_across_versions. reflexivity. Defined.

(** In the original script an event that was just written needs no update,
    whatever the source event. *)
Lemma original_update_settles (t : CalendarEvent) (e : HockeyEvent) :
  Original.needsUpdate (Original.updateEvent t e) e = false
  /\ Original.needsUpdate (Original.createEvent e) e = false.
Proof.
  unfold Original.needsUpdate, Original.updateEvent, Original.createEvent.
  cbn [getTitle getStartTime getEndTime getLocation setTitle setTime
       setDescription setLocation].
  rewrite !Z.eqb_refl, !bool_decide_eq_true_2 by done. done.
Qed.

(** X24: the calendar filter of the original script and the one of the later
    versions select the same events: the test for an empty description that
    was added changes nothing. *)
Theorem filters_agree (events : list CalendarEvent) :
  Original.getExistingHockeyEvents events = getExistingHockeyEvents events.
Proof.
  unfold Original.getExistingHockeyEvents, getExistingHockeyEvents.
  apply list_filter_iff. intros t.
  destruct (getDescription t) as [|c d]; cbn [truthy isEmpty negb].
  - change (includes EmptyString MARKER) with false.
    by rewrite !andb_false_r.
  - by rewrite andb_true_r.
Qed.

(** ** The identities a run leaves *)

Lemma cleanKeeps_cases (S : list HockeyEvent) (t : CalendarEvent) :
  cleanKeeps S t = true <->
  storedUID t = None \/ exists u, storedUID t = Some u /\ u ∈ uid <$> S.
Proof.
  unfold cleanKeeps. rewrite negb_true_iff. split.
  - intros Hkeep. destruct (storedUID t) as [u|] eqn:Hu; [|by left].
    right. exists u. split; [done|].
    destruct (decide (u ∈ uid <$> S)) as [Hin|Hout]; [done|].
    assert (Clean.shouldRemove (hockeyEventMap S) t = true) as Hgone
      by (apply Clean_shouldRemove_true; by exists u).
    congruence.
  - intros Hcases. apply not_true_is_false.
    intros (u & Hu & Hout)%Clean_shouldRemove_true.
    destruct Hcases as [Hnone|(u' & Hu' & Hin)]; [congruence|].
    rewrite Hu in Hu'. injection Hu' as <-. done.
Qed.

Lemma identities_kept (S : list HockeyEvent) (l : list CalendarEvent) :
  omap storedUID (filter (fun t => cleanKeeps S t = true) l)
  = filter (fun u => u ∈ uid <$> S) (omap storedUID l).
Proof.
  induction l as [|t l IH]; [done|].
  cbn [omap list_omap]. destruct (storedUID t) as [u|] eqn:Hu.
  - destruct (decide (u ∈ uid <$> S)) as [Hin|Hout].
    + rewrite filter_cons_True
        by (apply cleanKeeps_cases; right; by exists u).
      rewrite (filter_cons_True (fun u => u ∈ uid <$> S)) by done.
      cbn [omap list_omap]. rewrite Hu. f_equal. apply IH.
    + rewrite filter_cons_False.
      * rewrite (filter_cons_False (fun u => u ∈ uid <$> S)) by done. apply IH.
      * intros [Hnone|(u' & Hu' & Hin)]%cleanKeeps_cases; [congruence|].
        rewrite Hu in Hu'. injection Hu' as <-. done.
  - rewrite filter_cons_True by (apply cleanKeeps_cases; by left).
    cbn [omap list_omap]. rewrite Hu. apply IH.
Qed.

(** The identities the calendar stores when a run of the clean version
    ends: those of the existing events that a source event has, then those of
    the source events that were new. *)
Lemma Clean_identities_after (S : list HockeyEvent) (T : list CalendarEvent) :
  NoDup (uid <$> S) ->
  (forall e, e ∈ S -> sourceOK e = true) ->
  identities (calendarAfter (Clean.processEvents S T))
  = filter (fun u => u ∈ uid <$> S) (identities T)
    ++ (uid <$> filter (isNew T) S).
Proof.
  intros HS Hok.
  assert (forall e e', e ∈ S -> e' ∈ S -> uid e = uid e' -> e = e') as Hfun
    by (intros e e'; by apply NoDup_fmap_same).
  pose proof (PassInv_foldl S T Hok Hfun S (fun x Hx => Hx)) as Hinv.
  set (r := foldl (Clean.processOne (Clean.existingEventMap T)) (startRun T) S)
    in Hinv.
  destruct Hinv as [Hkeys Hcreated Hdeleted _].
  assert (calendarAfter (Clean.processEvents S T)
          = filter (fun t => cleanKeeps S t = true) (existing r) ++ created r)
    as ->.
  { rewrite Clean_processEvents_unfold. fold r. unfold calendarAfter. simpl.
    rewrite Hdeleted.
    by rewrite aliveFrom_removedFrom by (intros j ?%elem_of_nil; done). }
  unfold identities. rewrite omap_app, identities_kept.
  rewrite (omap_same_keys _ _ T Hkeys), Hcreated.
  fold (identities (createEvent <$> filter (isNew T) S)).
  by rewrite identities_created
    by (intros e [_ He]%list_elem_of_filter; auto).
Qed.

Lemma stored_or_new (T : list CalendarEvent) (e : HockeyEvent) :
  isNew T e \/ uid e ∈ identities T.
Proof.
  destruct (decide (isNew T e)) as [Hnew|Hold]; [by left|]. right.
  unfold isNew in Hold.
  destruct (Clean.existingEventMap T !! uid e) as [i|] eqn:Hi; [|done].
  apply Clean_existingEventMap_lookup, keys_lookup in Hi as (t & Ht & Hu).
  apply list_elem_of_omap. exists t. split; [|done].
  by apply list_elem_of_lookup_2 in Ht.
Qed.

(** X25: when a run of the clean version ends, the identities the calendar
    stores are exactly the identities of the feed: every source event has an
    event that stores its UID, and no event is left that stores anything
    else.  The source events have pairwise distinct UIDs, each a token, and
    descriptions free of the marker text. *)
Theorem run_leaves_feed_identities (S : list HockeyEvent)
    (T : list CalendarEvent) (u : string) :
  NoDup (uid <$> S) ->
  (forall e, e ∈ S -> sourceOK e = true) ->
  u ∈ identities (calendarAfter (Clean.processEvents S T)) <-> u ∈ uid <$> S.
Proof.
  intros HS Hok. rewrite Clean_identities_after by done.
  rewrite elem_of_app, list_elem_of_filter. split.
  - intros [[Hin _]|(e & -> & [_ He]%list_elem_of_filter)%list_elem_of_fmap];
      [done|]. by apply list_elem_of_fmap_2.
  - intros Hin. pose proof Hin as (e & -> & He)%list_elem_of_fmap.
    destruct (stored_or_new T e) as [Hnew|Hold]; [right|by left].
    apply list_elem_of_fmap_2. by apply list_elem_of_filter.
Qed.

Lemma run_leaves_feed_identities_witness :
  "benchapp-stable-2064294037"
    ∈ identities (calendarAfter
                    (Clean.processEvents [drill; game]
                       [syncedPractice; legacyStray]))
  <-> "benchapp-stable-2064294037" ∈ uid <$> [drill; game].
Proof.
  apply run_leaves_feed_identities; [by_decide|].
  intros e He.
  repeat (apply elem_of_cons in He as [->|He]; [reflexivity|]).
  by apply elem_of_nil in He.
Defined.

Lemma length_omap_all {A B : Type} (f : A -> option B) (l : list A) :
  (forall x, x ∈ l -> is_Some (f x)) -> length (omap f l) = length l.
Proof.
  induction l as [|x l IH]; intros Hall; [done|].
  cbn [omap list_omap]. destruct (Hall x) as [y ->]; [by left|].
  cbn [length]. f_equal. apply IH. intros x' Hx'. apply Hall. by right.
Qed.

Lemma Clean_identities_perm (S : list HockeyEvent) (T : list CalendarEvent) :
  NoDup (uid <$> S) ->
  (forall e, e ∈ S -> sourceOK e = true) ->
  NoDup (identities T) ->
  identities (calendarAfter (Clean.processEvents S T)) ≡ₚ uid <$> S.
Proof.
  intros HS Hok HT. rewrite Clean_identities_after by done.
  apply NoDup_Permutation; [|done|].
  - apply NoDup_app. split_and!.
    + by apply NoDup_filter.
    + intros u [_ Hu]%list_elem_of_filter
        (e & -> & [Hnew He]%list_elem_of_filter)%list_elem_of_fmap.
      apply list_elem_of_omap in Hu as (t & Ht & Hkey).
      by apply (isNew_not_stored T e t Hnew Ht).
    + by apply NoDup_fmap_filter.
  - intros u. rewrite elem_of_app, list_elem_of_filter. split.
    + intros [[Hin _]|(e & -> & [_ He]%list_elem_of_filter)%list_elem_of_fmap];
        [done|]. by apply list_elem_of_fmap_2.
    + intros Hin. pose proof Hin as (e & -> & He)%list_elem_of_fmap.
      destruct (stored_or_new T e) as [Hnew|Hold]; [right|by left].
      apply list_elem_of_fmap_2. by apply list_elem_of_filter.
Qed.

Lemma Clean_after_identified (S : list HockeyEvent) (T : list CalendarEvent)
    (t : CalendarEvent) :
  NoDup (uid <$> S) ->
  (forall e, e ∈ S -> sourceOK e = true) ->
  (forall t, t ∈ T -> is_Some (storedUID t)) ->
  t ∈ calendarAfter (Clean.processEvents S T) -> is_Some (storedUID t).
Proof.
  intros HS Hok HT.
  assert (forall e e', e ∈ S -> e' ∈ S -> uid e = uid e' -> e = e') as Hfun
    by (intros e e'; by apply NoDup_fmap_same).
  pose proof (PassInv_foldl S T Hok Hfun S (fun x Hx => Hx)) as Hinv.
  set (r := foldl (Clean.processOne (Clean.existingEventMap T)) (startRun T) S)
    in Hinv.
  destruct Hinv as [Hkeys Hcreated Hdeleted _].
  rewrite Clean_processEvents_unfold. fold r. unfold calendarAfter. simpl.
  intros [Ht%elem_of_aliveFrom|Ht]%elem_of_app.
  - apply list_elem_of_lookup in Ht as [i Hi].
    assert ((storedUID <$> T) !! i = Some (storedUID t)) as Hkey
      by (by rewrite <- Hkeys, list_lookup_fmap, Hi).
    rewrite list_lookup_fmap in Hkey.
    destruct (T !! i) as [t'|] eqn:Ht'; [|done].
    injection Hkey as <-. apply HT. by apply list_elem_of_lookup_2 in Ht'.
  - rewrite Hcreated in Ht.
    apply list_elem_of_fmap in Ht as (e & -> & [_ He]%list_elem_of_filter).
    rewrite storedUID_createEvent by auto. done.
Qed.

(** X26: after a run of the clean version [quickStatusCheck] reports a
    match, the calendar holding as many synced events as the feed has
    events, when the feed gives [quickStatusCheck] the events it gave the
    run, and the query of [quickStatusCheck] returns the events the run
    left and, besides them, only events that the filter drops.  The source
    events are as above; the existing events are what the calendar filter
    returned, and each stores an identity no other stores.  An event the run
    left that lies outside the window of the later query is not returned by
    it, and then nothing is said. *)
Theorem status_matches_after_run (S : list HockeyEvent)
    (T others queried : list CalendarEvent) :
  NoDup (uid <$> S) ->
  (forall e, e ∈ S -> sourceOK e = true) ->
  getExistingHockeyEvents T = T ->
  NoDup (identities T) ->
  (forall t, t ∈ T -> is_Some (storedUID t)) ->
  (forall t, t ∈ others -> isSynced t = false) ->
  queried ≡ₚ others ++ calendarAfter (Clean.processEvents S T) ->
  quickStatusCheck S queried = (length S, length S).
Proof.
  intros HS Hok Hsynced HT Hall Hothers Hquery. unfold quickStatusCheck. f_equal.
  change (getExistingHockeyEvents queried)
    with (filter (fun t => isSynced t = true) queried).
  rewrite Hquery, filter_app, length_app.
  assert (filter (fun t => isSynced t = true) others = []) as ->.
  { apply elem_of_nil_inv. intros t [Ht Hin]%list_elem_of_filter.
    rewrite (Hothers t Hin) in Ht. discriminate. }
  change (filter (fun t => isSynced t = true)
            (calendarAfter (Clean.processEvents S T)))
    with (getExistingHockeyEvents (calendarAfter (Clean.processEvents S T))).
  assert (getExistingHockeyEvents (calendarAfter (Clean.processEvents S T))
          = calendarAfter (Clean.processEvents S T)) as ->.
  { apply getExisting_all. intros t.
    rewrite Clean_processEvents_pass. unfold calendarAfter. simpl.
    apply (calendarAfter_synced _ _ S T _ t (cleanFind_valid T)).
    by apply getExisting_all. }
  cbn [length Nat.add].
  rewrite <- (length_omap_all storedUID)
    by (intros t; by apply Clean_after_identified).
  fold (identities (calendarAfter (Clean.processEvents S T))).
  rewrite (Clean_identities_perm S T) by done.
  apply length_fmap.
Qed.

Lemma status_matches_after_run_witness :
  quickStatusCheck [drill; game]
    ([dentist]
     ++ calendarAfter (Clean.processEvents [drill; game]
                         [syncedPractice; legacyStray]))
  = (2%nat, 2%nat).
Proof.
  apply (status_matches_after_run [drill; game] [syncedPractice; legacyStray]
           [dentist]);
    [by_decide| |reflexivity|by_decide| | |reflexivity].
  - intros e He.
    repeat (apply elem_of_cons in He as [->|He]; [reflexivity|]).
    by apply elem_of_nil in He.
  - intros t Ht.
    repeat (apply elem_of_cons in Ht as [->|Ht]; [by eexists|]).
    by apply elem_of_nil in Ht.
  - intros t Ht.
    repeat (apply elem_of_cons in Ht as [->|Ht]; [reflexivity|]).
    by apply elem_of_nil in Ht.
Defined.

(** ** The stable-UID version without a feed *)

Lemma removedFrom_all (test : CalendarEvent -> bool) (i : nat)
    (ts : list CalendarEvent) :
  (forall t, t ∈ ts -> test t = true) ->
  removedFrom test i ts = seq i (length ts).
Proof.
  revert i. induction ts as [|t ts IH]; intros i Hall; [done|].
  cbn [removedFrom length seq]. rewrite (Hall t) by left.
  f_equal. apply IH. intros t' Ht'. apply Hall. by right.
Qed.

Lemma aliveFrom_seq (i : nat) (ts : list CalendarEvent) (dead : list nat) :
  (forall j, (i <= j < i + length ts)%nat -> j ∈ dead) ->
  aliveFrom i dead ts = [].
Proof.
  revert i. induction ts as [|t ts IH]; intros i Hdead; [done|].
  cbn [aliveFrom]. rewrite bool_decide_eq_true_2
    by (apply Hdead; cbn [length]; lia).
  apply IH. intros j Hj. apply Hdead. cbn [length]. lia.
Qed.

Lemma Stable_shouldRemove_no_source (t : CalendarEvent) :
  StableUID.shouldRemove (hockeyEventMap []) t = true.
Proof.
  unfold StableUID.shouldRemove. apply andb_true_iff. split.
  - apply negb_true_iff, not_true_is_false.
    intros (e & He & _)%existsByUID_true. by apply elem_of_nil in He.
  - apply negb_true_iff, not_true_is_false.
    intros (u & e & He & _)%existsByContent_true.
    apply hockeyEventMap_Some in He as [He _]. by apply elem_of_nil in He.
Qed.

(** X27: when the feed cannot be loaded, or gives no event, a run of the
    stable-UID version returns normally and deletes every synced event of the
    calendar, also those from which no identity can be read: nothing is
    left. *)
Theorem stable_run_without_feed_deletes_all
    (parseICSData : string -> list HockeyEvent) (events : list CalendarEvent)
    (response : Outcome string) :
  Clean.fetchHockeyEvents parseICSData response = [] ->
  exists r,
    syncHockeyCalendar_stable parseICSData (Some events) response = Returned r
    /\ existing r = getExistingHockeyEvents events
    /\ deleted r = seq 0 (length (getExistingHockeyEvents events))
    /\ removed (results r) = length (getExistingHockeyEvents events)
    /\ calendarAfter r = [].
Proof.
  intros Hfeed. eexists. split; [reflexivity|]. cbn zeta. rewrite Hfeed.
  rewrite StableUID_processEvents_unfold. cbn zeta.
  cbn [pass foldl startRun existing deleted created results removed app].
  rewrite removedFrom_all by (intros t _; apply Stable_shouldRemove_no_source).
  unfold calendarAfter. cbn [existing deleted created].
  split_and!; [done|done|by rewrite length_seq|].
  rewrite app_nil_r. apply aliveFrom_seq. intros j Hj.
  apply elem_of_seq. lia.
Qed.

Lemma stable_run_without_feed_deletes_all_witness :
  exists r,
    syncHockeyCalendar_stable (Feed.parseICSData clockOfDay)
      (Some [dentist; syncedPractice; blankMarker])
      (Thrown "Request failed for https://ics.benchapp.com returned code 504")
    = Returned r
    /\ existing r = getExistingHockeyEvents [dentist; syncedPractice; blankMarker]
    /\ deleted r
       = seq 0 (length (getExistingHockeyEvents
                          [dentist; syncedPractice; blankMarker]))
    /\ removed (results r)
       = length (getExistingHockeyEvents [dentist; syncedPractice; blankMarker])
    /\ calendarAfter r = [].
Proof. apply stable_run_without_feed_deletes_all. reflexivity. Defined.
